(** * Robin Hood hash map (rodrigoo-r/hashmap): a shallow embedding

    The development follows [hashmap.h], the macro [DEFINE_HASHMAP(K, V, NAME)]
    and the hashing helpers in front of it.  One instance of the macro is
    modelled, generically in the key type [K] and the value type [V]; the
    suffix [NAME] is dropped from the identifiers.

    - [size_t] and [uint32_t] values are integers of [Z] with the wrap-around
      written out ([wrap64], [u32]);
    - [double] values are binary64 numbers of the standard library's
      [SpecFloat], so that [capacity * 0.9] and [capacity * grow_factor]
      are rounded as the machine rounds them;
    - the slot array is a list, read with [!!] and written with [<[ _ := _ ]>];
      a read outside the array is undefined behaviour ([Undefined]);
    - [malloc] and [calloc] draw their outcome from a plan kept in the
      [world], which also logs the calls of the destructor callback;
    - the loops [while (1)] and the mutual recursion of insert and resize
      take fuel: [OutOfFuel] for every amount of fuel is divergence;
    - tables and iterators are passed by value, so the null checks at the
      head of each function have no counterpart. *)

From Stdlib Require Import ZArith Lia.
From Stdlib Require Import Floats.SpecFloat.
From stdpp Require Import list numbers strings.

Open Scope Z_scope.

(** ** Machine integers *)

Definition wrap64 (x : Z) : Z := x mod 2 ^ 64.
Definition u32 (x : Z) : Z := x mod 2 ^ 32.

(** ** binary64 *)

Module Double.

Definition prec : Z := 53.
Definition emax : Z := 1024.

Definition mul : spec_float → spec_float → spec_float := SFmul prec emax.

(** [a < b] on doubles; false as soon as one side is a NaN. *)
Definition ltb : spec_float → spec_float → bool := SFltb.

(** The conversion [(double) n] of an unsigned integer, to nearest even. *)
Definition of_size (n : Z) : spec_float := binary_normalize prec emax n 0 false.

(** The literal [0.9]: 0x1.ccccccccccccdp-1. *)
Definition c0_9 : spec_float := S754_finite false 8106479329266893 (-53).

(** The conversion [(size_t) x]: the fractional part is discarded; the
    behaviour is undefined ([None]) when the integral part is not a
    [size_t], and for infinities and NaN. *)
Definition to_size (x : spec_float) : option Z :=
  match x with
  | S754_zero _ => Some 0
  | S754_finite s m e =>
      let t := if 0 <=? e then Z.pos m * 2 ^ e else Z.pos m / 2 ^ (- e) in
      if s then (if t =? 0 then Some 0 else None)
      else if t <? 2 ^ 64 then Some t else None
  | _ => None
  end.

(** [count + 1 > capacity * 0.9] for [size_t] operands: the sum wraps,
    then both sides are doubles. *)
Definition load_exceeded (capacity count : Z) : bool :=
  ltb (mul (of_size capacity) c0_9) (of_size (wrap64 (count + 1))).

End Double.

(** ** Default hashing *)

(** [hash_str_key]: FNV-1a over the bytes of a C string.  The string is the
    list of its characters; the loop [for (i = 0; key[i]; i++)] stops at the
    first NUL character, and at the end of the list, where the terminating
    NUL sits. *)
Fixpoint hash_str_key_loop (hash : Z) (key : string) : Z :=
  match key with
  | EmptyString => hash
  | String c rest =>
      let byte := Z.of_N (Ascii.N_of_ascii c) in
      if byte =? 0 then hash
      else
        let hash := u32 (Z.lxor hash byte) in
        let hash := u32 (hash * 16777619) in
        hash_str_key_loop hash rest
  end.

Definition hash_str_key (key : string) : Z :=
  hash_str_key_loop 2166136261 key.

Definition hash_char_key (c : Ascii.ascii) : Z :=
  let hash := 2166136261 in
  let hash := u32 (Z.lxor hash (Z.of_N (Ascii.N_of_ascii c))) in
  let hash := u32 (hash * 16777619) in
  hash.

Definition hash_int (x : Z) : Z :=
  let x := Z.lxor x (Z.shiftr x 16) in
  let x := u32 (x * 0x85ebca6b) in
  let x := Z.lxor x (Z.shiftr x 13) in
  let x := u32 (x * 0xc2b2ae35) in
  let x := Z.lxor x (Z.shiftr x 16) in
  x.

(** [hash_probe_distance]: how far [index] lies behind the ideal bucket of
    [hash]; the sum and the difference are [size_t] operations. *)
Definition hash_probe_distance (hash index capacity : Z) : Z :=
  wrap64 (index + capacity - hash mod capacity) mod capacity.

Inductive hash_entry_status_t : Set :=
| __FLUENT_LIBC_HASHMAP_EMPTY
| OCCUPIED
| TOMBSTONE.

Global Instance hash_entry_status_eq_dec : EqDecision hash_entry_status_t.
Proof. solve_decision. Defined.

(** ** Results of running C code with fuel *)

Inductive result (A : Type) : Type :=
| Ret (a : A)
| Undefined
| OutOfFuel.

Arguments Ret {A} a.
Arguments Undefined {A}.
Arguments OutOfFuel {A}.

Definition bind {A B : Type} (r : result A) (f : A → result B) : result B :=
  match r with
  | Ret a => f a
  | Undefined => Undefined
  | OutOfFuel => OutOfFuel
  end.

Notation "'let*' p := r 'in' k" := (bind r (λ p, k))
  (at level 10, p pattern, r at level 100, k at level 200).

(** ** The table generated by [DEFINE_HASHMAP(K, V, NAME)] *)

Section Hashmap.

(** The key and value types, their all-zero values [(K){0}] and [(V){0}]
    (what [calloc] leaves in a slot), and the names of destructor
    callbacks, which the table stores and calls but never inspects. *)
Context {K V D : Type}.
Variable zero_key : K.
Variable zero_value : V.

(** [(hash_NAME_function_t) hash_str_key], the hash function installed
    when the caller passes a null [hash_fn]. *)
Variable default_hash_fn : K → Z.

Record hash_entry_t : Type := Build_entry {
  entry_key : K;
  entry_value : V;
  entry_status : hash_entry_status_t;
  entry_hash : Z
}.

(** [hash_fn] returns an [unsigned long]; [cmp_fn] returns an [int] that
    the table reads as a truth value. *)
Record hashmap_t : Type := Build_hashmap {
  entries : list hash_entry_t;
  capacity : Z;
  count : Z;
  grow_factor : spec_float;
  destructor : option D;
  hash_fn : K → Z;
  cmp_fn : K → K → Z
}.

Record hashmap_iter_t : Type := Build_iter {
  iter_map : hashmap_t;
  iter_index : Z
}.

Definition set_entries (map : hashmap_t) (es : list hash_entry_t) : hashmap_t :=
  Build_hashmap es (capacity map) (count map) (grow_factor map)
    (destructor map) (hash_fn map) (cmp_fn map).

Definition set_count (map : hashmap_t) (n : Z) : hashmap_t :=
  Build_hashmap (entries map) (capacity map) n (grow_factor map)
    (destructor map) (hash_fn map) (cmp_fn map).

(** [map->entries[index]] *)
Definition entry_at (map : hashmap_t) (index : Z) : option hash_entry_t :=
  entries map !! Z.to_nat index.

(** [map->entries[index] = e] *)
Definition store_entry (map : hashmap_t) (index : Z) (e : hash_entry_t) : hashmap_t :=
  set_entries map (<[Z.to_nat index := e]> (entries map)).

(** *** The allocator and the destructor callback *)

Record world : Type := Build_world {
  alloc_plan : list bool;
  destructor_calls : list (D * hashmap_t)
}.

(** One call of [malloc] or [calloc]: the next outcome of the plan; an
    exhausted plan lets every further allocation succeed. *)
Definition alloc (w : world) : world * bool :=
  match alloc_plan w with
  | [] => (w, true)
  | ok :: plan => (Build_world plan (destructor_calls w), ok)
  end.

Definition zero_entry : hash_entry_t :=
  Build_entry zero_key zero_value __FLUENT_LIBC_HASHMAP_EMPTY 0.

(** [hashmap_NAME_init] on a struct that [hashmap_NAME_new] has just
    allocated; [None] is the return value 0. *)
Definition hashmap_init (w : world) (capacity : Z) (grow_factor : spec_float)
    (destructor : option D) (hash_fn : option (K → Z)) (cmp_fn : K → K → Z)
    : world * option hashmap_t :=
  let '(w, ok) := alloc w in
  if negb ok then (w, None)
  else
    (w, Some (Build_hashmap (replicate (Z.to_nat capacity) zero_entry)
                capacity 0 grow_factor destructor
                (match hash_fn with Some f => f | None => default_hash_fn end)
                cmp_fn)).

(** [hashmap_NAME_new]; [None] is the null pointer. *)
Definition hashmap_new (w : world) (capacity : Z) (grow_factor : spec_float)
    (destructor : option D) (hash_fn : option (K → Z)) (cmp_fn : K → K → Z)
    : world * option hashmap_t :=
  let '(w, ok) := alloc w in
  if negb ok then (w, None)
  else hashmap_init w capacity grow_factor destructor hash_fn cmp_fn.

(** [hashmap_NAME_free]: the destructor, when there is one, is called on
    the table; the memory is returned. *)
Definition hashmap_free (w : world) (map : hashmap_t) : world :=
  match destructor map with
  | Some d => Build_world (alloc_plan w) (destructor_calls w ++ [(d, map)])
  | None => w
  end.

(** *** Lookup *)

(** The slot test shared by get and remove. *)
Definition slot_matches (map : hashmap_t) (e : hash_entry_t) (hash : Z) (key : K) : bool :=
  bool_decide (entry_status e = OCCUPIED)
  && (entry_hash e =? hash)
  && negb (cmp_fn map (entry_key e) key =? 0).

(** The [while] loop of [hashmap_NAME_get]; the result is the index of the
    slot whose value field the returned pointer addresses. *)
Fixpoint hashmap_get_loop (fuel : nat) (map : hashmap_t) (key : K) (hash index : Z)
    : result (option Z) :=
  match fuel with
  | O => OutOfFuel
  | S fuel =>
      match entry_at map index with
      | None => Undefined
      | Some e =>
          if bool_decide (entry_status e = __FLUENT_LIBC_HASHMAP_EMPTY) then Ret None
          else if slot_matches map e hash key then Ret (Some index)
          else hashmap_get_loop fuel map key hash (wrap64 (index + 1) mod capacity map)
      end
  end.

Definition hashmap_get (fuel : nat) (map : hashmap_t) (key : K) : result (option Z) :=
  let hash := u32 (hash_fn map key) in
  if capacity map =? 0 then Undefined
  else
    let index := hash mod capacity map in
    hashmap_get_loop fuel map key hash index.

(** Reading through the pointer that get returned. *)
Definition value_at (map : hashmap_t) (p : Z) : option V :=
  entry_value <$> entry_at map p.

(** *** Insert and resize *)

(** [map->count + 1 > map->capacity * 0.9], both sides as doubles. *)
Definition load_exceeded (map : hashmap_t) : bool :=
  Double.load_exceeded (capacity map) (count map).

(** [capacity * grow_factor], converted to the [size_t] parameter of
    resize. *)
Definition grown_capacity (map : hashmap_t) : option Z :=
  Double.to_size (Double.mul (Double.of_size (capacity map)) (grow_factor map)).

(** The [while (1)] loop of [hashmap_NAME_insert]. *)
Fixpoint hashmap_insert_loop (fuel : nat) (map : hashmap_t) (index dist : Z)
    (new_entry : hash_entry_t) : result (hashmap_t * Z) :=
  match fuel with
  | O => OutOfFuel
  | S fuel =>
      match entry_at map index with
      | None => Undefined
      | Some e =>
          if bool_decide (entry_status e = __FLUENT_LIBC_HASHMAP_EMPTY)
             || bool_decide (entry_status e = TOMBSTONE)
          then
            let map := store_entry map index new_entry in
            let map := set_count map (wrap64 (count map + 1)) in
            Ret (map, 1)
          else
            let existing_dist := hash_probe_distance (entry_hash e) index (capacity map) in
            let '(map, new_entry, dist) :=
              if existing_dist <? dist
              then (store_entry map index new_entry, e, existing_dist)
              else (map, new_entry, dist) in
            let index := wrap64 (index + 1) mod capacity map in
            let dist := wrap64 (dist + 1) in
            hashmap_insert_loop fuel map index dist new_entry
      end
  end.

(** The part of insert behind the capacity check. *)
Definition hashmap_insert_place (fuel : nat) (map : hashmap_t) (key : K) (value : V)
    : result (hashmap_t * Z) :=
  let hash := u32 (hash_fn map key) in
  if capacity map =? 0 then Undefined
  else
    let index := hash mod capacity map in
    let dist := 0 in
    let new_entry := Build_entry key value OCCUPIED hash in
    hashmap_insert_loop fuel map index dist new_entry.

(** The insert function that resize calls on the new table. *)
Definition insert_fn : Type := world → hashmap_t → K → V → result (world * hashmap_t * Z).

(** The first loop of [hashmap_NAME_resize], over the slot indices [idxs] of the
    old table; [false] in the result is the failure of one reinsertion. *)
Fixpoint hashmap_resize_loop (insert : insert_fn) (w : world) (map new_map : hashmap_t)
    (idxs : list Z) : result (world * hashmap_t * bool) :=
  match idxs with
  | [] => Ret (w, new_map, true)
  | i :: idxs =>
      match entry_at map i with
      | None => Undefined
      | Some e =>
          if bool_decide (entry_status e = OCCUPIED) then
            let* (w, new_map, ok) := insert w new_map (entry_key e) (entry_value e) in
            if ok =? 0 then Ret (w, new_map, false)
            else hashmap_resize_loop insert w map new_map idxs
          else hashmap_resize_loop insert w map new_map idxs
      end
  end.

(** [hashmap_NAME_resize], given the insert function. *)
Definition hashmap_resize_with (insert : insert_fn) (w : world) (map : hashmap_t)
    (new_capacity : Z) : result (world * hashmap_t * Z) :=
  let '(w, new_map) :=
    hashmap_new w new_capacity (grow_factor map) (destructor map)
      (Some (hash_fn map)) (cmp_fn map) in
  match new_map with
  | None => Ret (w, map, 0)
  | Some new_map =>
      let* (w, new_map, ok) :=
        hashmap_resize_loop insert w map new_map (seqZ 0 (capacity map)) in
      if ok then
        let map :=
          Build_hashmap (entries new_map) (capacity new_map) (count new_map)
            (grow_factor map) (destructor map) (hash_fn map) (cmp_fn map) in
        Ret (w, map, 1)
      else Ret (hashmap_free w new_map, map, 0)
  end.

(** [hashmap_NAME_insert]; one unit of fuel per nested call, and the rest
    for the placement loop. *)
Fixpoint hashmap_insert (fuel : nat) (w : world) (map : hashmap_t) (key : K) (value : V)
    : result (world * hashmap_t * Z) :=
  match fuel with
  | O => OutOfFuel
  | S fuel =>
      let* (w, map, ok) :=
        (if load_exceeded map then
           match grown_capacity map with
           | None => Undefined
           | Some new_capacity =>
               hashmap_resize_with (hashmap_insert fuel) w map new_capacity
           end
         else Ret (w, map, 1)) in
      if ok =? 0 then Ret (w, map, 0)
      else
        let* (map, ok) := hashmap_insert_place fuel map key value in
        Ret (w, map, ok)
  end.

Definition hashmap_resize (fuel : nat) : world → hashmap_t → Z → result (world * hashmap_t * Z) :=
  hashmap_resize_with (hashmap_insert fuel).

(** *** Remove *)

Fixpoint hashmap_remove_loop (fuel : nat) (map : hashmap_t) (key : K) (hash index : Z)
    : result (hashmap_t * Z) :=
  match fuel with
  | O => OutOfFuel
  | S fuel =>
      match entry_at map index with
      | None => Undefined
      | Some e =>
          if bool_decide (entry_status e = __FLUENT_LIBC_HASHMAP_EMPTY) then Ret (map, 0)
          else if slot_matches map e hash key then
            let e := Build_entry zero_key (entry_value e) TOMBSTONE (entry_hash e) in
            let map := store_entry map index e in
            let map := set_count map (wrap64 (count map - 1)) in
            Ret (map, 1)
          else hashmap_remove_loop fuel map key hash (wrap64 (index + 1) mod capacity map)
      end
  end.

Definition hashmap_remove (fuel : nat) (map : hashmap_t) (key : K) : result (hashmap_t * Z) :=
  let hash := u32 (hash_fn map key) in
  if capacity map =? 0 then Undefined
  else
    let index := hash mod capacity map in
    hashmap_remove_loop fuel map key hash index.

(** *** Iteration *)

Definition hashmap_iter_begin (map : hashmap_t) : hashmap_iter_t :=
  Build_iter map 0.

(** [hashmap_NAME_iter_next]: the updated iterator and the index of the
    entry returned, [None] for the null pointer. *)
Fixpoint hashmap_iter_next (fuel : nat) (iter : hashmap_iter_t)
    : result (hashmap_iter_t * option Z) :=
  match fuel with
  | O => OutOfFuel
  | S fuel =>
      if iter_index iter <? capacity (iter_map iter) then
        let index := iter_index iter in
        let iter := Build_iter (iter_map iter) (wrap64 (index + 1)) in
        match entry_at (iter_map iter) index with
        | None => Undefined
        | Some entry =>
            if bool_decide (entry_status entry = OCCUPIED) then Ret (iter, Some index)
            else hashmap_iter_next fuel iter
        end
      else Ret (iter, None)
  end.

(** *** What the statements below speak of *)

(** The array has [capacity] slots, and [capacity] is a [size_t]. *)
Definition shape (map : hashmap_t) : Prop :=
  capacity map = Z.of_nat (length (entries map)) ∧ capacity map < 2 ^ 64.

(** The occupied slots in array order, and their (key, value) pairs. *)
Definition live (es : list hash_entry_t) : list hash_entry_t :=
  filter (λ e, entry_status e = OCCUPIED) es.

Definition pairs (map : hashmap_t) : list (K * V) :=
  (λ e, (entry_key e, entry_value e)) <$> live (entries map).

(** [count] is the number of occupied slots. *)
Definition count_ok (map : hashmap_t) : Prop :=
  count map = Z.of_nat (length (live (entries map))).

(** Some slot is Empty or a Tombstone. *)
Definition has_free_slot (map : hashmap_t) : Prop :=
  ∃ p e, 0 ≤ p ∧ entry_at map p = Some e ∧ entry_status e ≠ OCCUPIED.

Definition has_empty_slot (map : hashmap_t) : Prop :=
  ∃ p e, 0 ≤ p ∧ entry_at map p = Some e ∧ entry_status e = __FLUENT_LIBC_HASHMAP_EMPTY.

Definition no_tombstone (map : hashmap_t) : Prop :=
  ∀ e, e ∈ entries map → entry_status e ≠ TOMBSTONE.

(** The [d] slots from [i] on, cyclically, are not Empty: a scan that
    starts at [i] walks over all of them. *)
Definition run (map : hashmap_t) (i : Z) (d : nat) : Prop :=
  ∀ j : nat, (j < d)%nat →
    ∃ e, entry_at map ((i + Z.of_nat j) mod capacity map) = Some e
         ∧ entry_status e ≠ __FLUENT_LIBC_HASHMAP_EMPTY.

Definition reachable (map : hashmap_t) (i p : Z) : Prop :=
  ∃ d : nat, p = (i + Z.of_nat d) mod capacity map ∧ run map i d.

(** Every occupied slot is reached by the scan that starts at the ideal
    bucket of its cached hash. *)
Definition chain_ok (map : hashmap_t) : Prop :=
  ∀ p e, 0 ≤ p → entry_at map p = Some e → entry_status e = OCCUPIED →
    reachable map (entry_hash e mod capacity map) p.

(** The cached hash of an occupied slot is the hash of its key. *)
Definition hashes_ok (map : hashmap_t) : Prop :=
  ∀ e, e ∈ entries map → entry_status e = OCCUPIED →
    entry_hash e = u32 (hash_fn map (entry_key e)).

(** The fields that neither insert nor resize nor remove writes. *)
Definition same_config (map map' : hashmap_t) : Prop :=
  grow_factor map' = grow_factor map ∧ destructor map' = destructor map
  ∧ hash_fn map' = hash_fn map ∧ cmp_fn map' = cmp_fn map.

(** What a successful insert of [key] and [value] into [map] has done
    when it leaves [map']. *)
Definition inserted (map : hashmap_t) (key : K) (value : V) (map' : hashmap_t) : Prop :=
  same_config map map' ∧ shape map' ∧ 0 < capacity map'
  ∧ pairs map' ≡ₚ (key, value) :: pairs map
  ∧ (count_ok map → count_ok map')
  ∧ (chain_ok map → chain_ok map')
  ∧ (hashes_ok map → hashes_ok map')
  ∧ (no_tombstone map → no_tombstone map')
  ∧ (load_exceeded map = false → capacity map' = capacity map).

(** What a successful resize of [map] has done when it leaves [map']. *)
Definition resized (map map' : hashmap_t) : Prop :=
  same_config map map' ∧ shape map' ∧ count_ok map' ∧ chain_ok map'
  ∧ hashes_ok map' ∧ no_tombstone map'
  ∧ pairs map' ≡ₚ pairs map.

(** The contract of the insert function that resize is given. *)
Definition insert_ok (insert : insert_fn) : Prop :=
  ∀ w map key value w' map' ok,
    shape map → insert w map key value = Ret (w', map', ok) →
    (ok = 0 ∧ map' = map) ∨ (ok = 1 ∧ inserted map key value map').

(** A caller inserting the pairs [kvs] one after the other, giving up at
    the first failure. *)
Fixpoint insert_all (fuel : nat) (w : world) (map : hashmap_t) (kvs : list (K * V))
    : result (world * hashmap_t * Z) :=
  match kvs with
  | [] => Ret (w, map, 1)
  | (key, value) :: kvs =>
      let* (w, map, ok) := hashmap_insert fuel w map key value in
      if ok =? 0 then Ret (w, map, 0) else insert_all fuel w map kvs
  end.

(** A caller driving an iterator until it returns the null pointer; the
    result lists the indices of the entries returned, in order, and the
    iterator as it is left. *)
Fixpoint iter_drain (rounds : nat) (iter : hashmap_iter_t)
    : result (hashmap_iter_t * list Z) :=
  match rounds with
  | O => OutOfFuel
  | S rounds =>
      let* (iter, r) := hashmap_iter_next (S (Z.to_nat (capacity (iter_map iter)))) iter in
      match r with
      | None => Ret (iter, [])
      | Some p =>
          let* (iter, ps) := iter_drain rounds iter in
          Ret (iter, p :: ps)
      end
  end.

End Hashmap.

Arguments hash_entry_t : clear implicits.
Arguments hashmap_t : clear implicits.
Arguments hashmap_iter_t : clear implicits.
Arguments world : clear implicits.
Arguments insert_fn : clear implicits.

(** ** The instance [DEFINE_HASHMAP(const char *, int, string_int)]

    Keys are C strings without an inner NUL, hashed with [hash_str_key];
    the comparison callback answers 1 for equal strings and 0 otherwise. *)

Module StringInt.

Definition str_eq (a b : string) : Z := if decide (a = b) then 1 else 0.

(** The doubles 2.0 and 1.5. *)
Definition two : spec_float := S754_finite false 4503599627370496 (-51).
Definition one_and_half : spec_float := S754_finite false 6755399441055744 (-52).

Definition table : Type := hashmap_t string Z unit.

(** A world in which every allocation succeeds, and one in which the
    next allocation fails. *)
Definition w_ok : world string Z unit := Build_world [] [].
Definition w_fail : world string Z unit := Build_world [false] [].

Definition occupied (key : string) (value : Z) : hash_entry_t string Z :=
  Build_entry key value OCCUPIED (hash_str_key key).
Definition empty : hash_entry_t string Z := zero_entry "" 0.
Definition tombstone (value hash : Z) : hash_entry_t string Z :=
  Build_entry "" value TOMBSTONE hash.

Definition make_with (hash_fn : string → Z) (es : list (hash_entry_t string Z))
    (count : Z) (grow_factor : spec_float) : table :=
  Build_hashmap es (Z.of_nat (length es)) count grow_factor None hash_fn str_eq.

Definition make : list (hash_entry_t string Z) → Z → spec_float → table :=
  make_with hash_str_key.


Definition new (capacity : Z) (grow_factor : spec_float) : world string Z unit * option table :=
  hashmap_new "" 0 hash_str_key w_ok capacity grow_factor None None str_eq.

Definition insert := hashmap_insert (D := unit) "" 0 hash_str_key.
Definition resize := hashmap_resize (D := unit) "" 0 hash_str_key.
Definition remove := hashmap_remove (V := Z) (D := unit) "".
Definition inserts := insert_all (D := unit) "" 0 hash_str_key.

(** The fresh table of capacity 4 and growth factor 2.0. *)
Definition fresh4 : table := make [empty; empty; empty; empty] 0 two.

(** The key "k" inserted twice, with the values 1 and 2, and the same
    table after one removal of "k". *)
Definition dup : table :=
  make [empty; empty; occupied "k" 1; occupied "k" 2] 2 two.
Definition dup_removed : table :=
  make [empty; empty; tombstone 1 3993778410; occupied "k" 2] 1 two.

(** The fresh table of capacity 1 and growth factor 1.5, and the same
    table after the insert of "a". *)
Definition fresh1 : table := make [empty] 0 one_and_half.
Definition full1 : table := make [occupied "a" 1] 1 one_and_half.

(** "a", "b" and "c" in their ideal buckets 0, 1 and 2, and the table
    after the insert of "d", which doubles the capacity. *)
Definition abc : table :=
  make [occupied "a" 1; occupied "b" 2; occupied "c" 3; empty] 3 two.
Definition abcd : table :=
  make [empty; empty; occupied "c" 3; occupied "d" 4;
        occupied "a" 1; occupied "b" 2; empty; empty] 4 two.

(** Four keys with the ideal buckets 0, 1, 2 and 3, each inserted and
    removed before the next one comes: the load factor never exceeds one
    quarter, and the removals leave a table without an Empty slot. *)
Definition churn : result (world string Z unit * table * Z) :=
  let* (w, map, _) := insert 8 w_ok fresh4 "a" 1 in
  let* (map, _) := remove 8 map "a" in
  let* (w, map, _) := insert 8 w map "b" 2 in
  let* (map, _) := remove 8 map "b" in
  let* (w, map, _) := insert 8 w map "c" 3 in
  let* (map, _) := remove 8 map "c" in
  insert 8 w map "x" 1.
Definition churned : table :=
  make [tombstone 1 3826002220; tombstone 2 3876335077; tombstone 3 3859557458;
        occupied "x" 1] 1 two.
Definition all_tombstones : table :=
  make [tombstone 1 3826002220; tombstone 2 3876335077; tombstone 3 3859557458;
        tombstone 1 4245442695] 0 two.

(** "x" inserted and removed, then "y" inserted: under [hash_str_key] the
    bucket of "y" follows the tombstone that "x" left in bucket 3. *)
Definition x_in : table := make [empty; empty; empty; occupied "x" 1] 1 two.
Definition x_out : table :=
  make [empty; empty; empty; tombstone 1 4245442695] 0 two.


(** A table of four slots: "a" in its ideal bucket 0, a tombstone behind
    it, "c" in its ideal bucket 2, and an empty slot. *)
Definition sample : table :=
  make [occupied "a" 1; tombstone 7 3876335077; occupied "c" 3; empty] 2 two.

(** [x_in] after a resize to the capacity 1, and [sample] after a resize
    to the capacity 8. *)
Definition x_resized : table := make [empty; occupied "x" 1] 1 two.
Definition sample_resized : table :=
  make [empty; empty; occupied "c" 3; empty; occupied "a" 1; empty; empty; empty] 2 two.

End StringInt.

(** ** The invariant of a table

    What [hashmap_NAME_new] establishes and insert, resize and remove
    keep: the array has [capacity] slots, [count] counts the occupied
    ones, every occupied slot is reached by the scan from its ideal bucket,
    and its cached hash is that of its key. *)

Definition table_ok {K V D : Type} (map : hashmap_t K V D) : Prop :=
  shape map ∧ count_ok map ∧ chain_ok map ∧ hashes_ok map.

(** ** More tables of the instance [string_int] *)

Module Examples.

(** [StringInt.sample] after the removal of "a". *)
Definition sample_less_a : StringInt.table :=
  StringInt.make
    [StringInt.tombstone 1 3826002220; StringInt.tombstone 7 3876335077;
     StringInt.occupied "c" 3; StringInt.empty] 1 StringInt.two.

(** The key "k" in its ideal bucket 2. *)
Definition k_in : StringInt.table :=
  StringInt.make
    [StringInt.empty; StringInt.empty; StringInt.occupied "k" 1; StringInt.empty]
    1 StringInt.two.

(** The table that [hashmap_string_int_new(0, 2.0, ...)] returns. *)
Definition empty0 : StringInt.table := StringInt.make [] 0 StringInt.two.

End Examples.

(** * Properties *)

(** ** Hashing *)

(** C9: [hash_str_key] of the empty string is 2166136261, the FNV offset
    basis: the loop body never runs, so no byte is mixed in.  Every byte
    before the terminating NUL is mixed in: a string that starts with the
    non-NUL character [c] hashes as its rest does from the basis xored with
    [c] and multiplied by the FNV prime, and "a" hashes to 0xe40c292c. *)
Theorem hash_str_key_empty :
  hash_str_key "" = 2166136261
  ∧ (∀ c rest, Ascii.N_of_ascii c ≠ 0%N →
       hash_str_key (String c rest)
       = hash_str_key_loop
           (u32 (u32 (Z.lxor 2166136261 (Z.of_N (Ascii.N_of_ascii c))) * 16777619)) rest)
  ∧ hash_str_key "a" = 0xe40c292c.
Proof.
  split_and!; [reflexivity | | reflexivity].
  intros c rest Hc. unfold hash_str_key. cbn [hash_str_key_loop].
  destruct (Z.of_N (Ascii.N_of_ascii c) =? 0) eqn:Hz; [lia | done].
Qed.

Lemma hash_str_key_nul (rest : string) :
  hash_str_key (String Ascii.zero rest) = 2166136261.
Proof. reflexivity. Qed.

Lemma wrap64_small (x : Z) : 0 ≤ x < 2 ^ 64 → wrap64 x = x.
Proof. intros. unfold wrap64. apply Z.mod_small. lia. Qed.

(** ** binary64: the capacity check in exact arithmetic

    The lemmas below follow one product and one comparison through the
    rounding of [SpecFloat]: a mantissa is shifted right by the number of
    digits it has above 53 and rounded to nearest even. *)

Lemma digits_bounds (p : positive) :
  2 ^ (Z.pos (digits2_pos p) - 1) ≤ Z.pos p < 2 ^ Z.pos (digits2_pos p).
Proof.
  induction p as [p IH | p IH |]; cbn [digits2_pos].
  - rewrite Pos2Z.inj_succ.
    replace (Z.succ (Z.pos (digits2_pos p)) - 1)
      with (Z.succ (Z.pos (digits2_pos p) - 1)) by lia.
    rewrite !Z.pow_succ_r by lia. lia.
  - rewrite Pos2Z.inj_succ.
    replace (Z.succ (Z.pos (digits2_pos p)) - 1)
      with (Z.succ (Z.pos (digits2_pos p) - 1)) by lia.
    rewrite !Z.pow_succ_r by lia. lia.
  - cbn. lia.
Qed.

Lemma digits_unique (p : positive) (k : Z) :
  2 ^ (k - 1) ≤ Z.pos p < 2 ^ k → Z.pos (digits2_pos p) = k.
Proof.
  intros [Hlo Hhi]. pose proof (digits_bounds p) as [Hlo' Hhi'].
  destruct (Z.lt_trichotomy (Z.pos (digits2_pos p)) k) as [Hlt | [Heq | Hgt]]; [| done |].
  - assert (2 ^ Z.pos (digits2_pos p) ≤ 2 ^ (k - 1)) by (apply Z.pow_le_mono_r; lia). lia.
  - assert (2 ^ k ≤ 2 ^ (Z.pos (digits2_pos p) - 1)) by (apply Z.pow_le_mono_r; lia). lia.
Qed.

Lemma shr_1_spec (x : shr_record) :
  0 ≤ shr_m x →
  shr_m (shr_1 x) = shr_m x / 2 ∧ shr_r (shr_1 x) = Z.odd (shr_m x) ∧ 0 ≤ shr_m (shr_1 x).
Proof.
  destruct x as [m r s]. cbn [shr_m]. intros Hm.
  destruct m as [| [p | p |] | p]; cbn [shr_1 shr_m shr_r]; [done | | | done | lia].
  - split_and!; [| done | lia]. rewrite Pos2Z.inj_xI.
    rewrite Z.mul_comm, Z.div_add_l by lia. rewrite Z.div_small; lia.
  - split_and!; [| done | lia]. rewrite Pos2Z.inj_xO.
    rewrite Z.mul_comm, Z.div_mul by lia. done.
Qed.

Lemma pow2_split (a b : Z) : 0 ≤ a → 0 ≤ b → 2 ^ a * 2 ^ b = 2 ^ (a + b).
Proof. intros. by rewrite Z.pow_add_r. Qed.

Lemma div_pow2 (x a b : Z) : 0 ≤ a → 0 ≤ b → x / 2 ^ a / 2 ^ b = x / 2 ^ (a + b).
Proof.
  intros Ha Hb.
  pose proof (Z.pow_pos_nonneg 2 a ltac:(lia) Ha).
  pose proof (Z.pow_pos_nonneg 2 b ltac:(lia) Hb).
  rewrite Z.div_div by lia. by rewrite pow2_split.
Qed.

Lemma shr_iter_spec (p : positive) : ∀ x : shr_record,
  0 ≤ shr_m x →
  shr_m (SpecFloat.iter_pos shr_1 p x) = shr_m x / 2 ^ Z.pos p
  ∧ shr_r (SpecFloat.iter_pos shr_1 p x) = Z.odd (shr_m x / 2 ^ (Z.pos p - 1))
  ∧ 0 ≤ shr_m (SpecFloat.iter_pos shr_1 p x).
Proof.
  induction p as [p IH | p IH |]; intros x Hx; cbn [SpecFloat.iter_pos].
  - destruct (shr_1_spec x Hx) as (H1 & _ & H1').
    destruct (IH (shr_1 x) H1') as (H2 & _ & H2').
    destruct (IH _ H2') as (H3 & H3r & H3').
    rewrite H3, H3r, H2, H1. split_and!; [| | rewrite <- H1, <- H2, <- H3; done].
    + change 2 with (2 ^ 1) at 1. rewrite !div_pow2 by lia. do 2 f_equal. lia.
    + change 2 with (2 ^ 1) at 1. rewrite !div_pow2 by lia. do 3 f_equal. lia.
  - destruct (IH x Hx) as (H2 & _ & H2').
    destruct (IH _ H2') as (H3 & H3r & H3').
    rewrite H3, H3r, H2. split_and!; [| | rewrite <- H2, <- H3; done].
    + rewrite !div_pow2 by lia. do 2 f_equal. lia.
    + rewrite !div_pow2 by lia. do 3 f_equal. lia.
  - destruct (shr_1_spec x Hx) as (H1 & H1r & H1').
    rewrite H1, H1r. split_and!; [done | | lia]. by rewrite Z.div_1_r.
Qed.

Lemma round_bounds (x : shr_record) :
  shr_m x ≤ round_nearest_even (shr_m x) (loc_of_shr_record x)
          ≤ shr_m x + (if shr_r x then 1 else 0).
Proof. destruct x as [m [] []]; cbn; try destruct (Z.even m); lia. Qed.

Lemma shr_fexp_shift (m : positive) (e : Z) :
  -1000 ≤ e →
  shr_fexp 53 1024 (Z.pos m) e loc_Exact
  = shr (Build_shr_record (Z.pos m) false false) e (Z.pos (digits2_pos m) - 53).
Proof.
  intros He. unfold shr_fexp, fexp, emin. cbn [Zdigits2 shr_record_of_loc].
  rewrite Z.max_l by lia. f_equal. lia.
Qed.

(** A mantissa of 53 digits is left as it is. *)
Lemma round_aux_exact (m : positive) (e : Z) :
  Z.pos (digits2_pos m) = 53 → -1000 ≤ e ≤ 971 →
  binary_round_aux 53 1024 false (Z.pos m) e loc_Exact = S754_finite false m e.
Proof.
  intros Hd He. unfold binary_round_aux.
  rewrite shr_fexp_shift, Hd by lia. cbn [Z.sub Z.add Z.opp Z.pos_sub shr shr_m loc_of_shr_record round_nearest_even].
  change (53 - 53) with 0. cbn [shr shr_m shr_r shr_s loc_of_shr_record round_nearest_even].
  rewrite shr_fexp_shift, Hd by lia. change (53 - 53) with 0. cbn [shr shr_m].
  destruct (e <=? 1024 - 53) eqn:Hle; [done | lia].
Qed.

Lemma round_aux_spec (m : positive) (e : Z) :
  53 < Z.pos (digits2_pos m) → -1000 ≤ e → e + Z.pos (digits2_pos m) ≤ 1000 →
  ∃ mf ef,
    binary_round_aux 53 1024 false (Z.pos m) e loc_Exact = S754_finite false mf ef
    ∧ Z.pos (digits2_pos mf) = 53
    ∧ e + (Z.pos (digits2_pos m) - 53) ≤ ef
    ∧ Z.pos m / 2 ^ (Z.pos (digits2_pos m) - 53) * 2 ^ (Z.pos (digits2_pos m) - 53)
      ≤ Z.pos mf * 2 ^ (ef - e)
    ∧ Z.pos mf * 2 ^ (ef - e) ≤ Z.pos m + 2 ^ (Z.pos (digits2_pos m) - 53 - 1).
Proof.
  intros Hd He Hed. unfold binary_round_aux. rewrite shr_fexp_shift by lia.
  pose proof (digits_bounds m) as [Hlo Hhi].
  destruct (Z.pos (digits2_pos m) - 53) as [| s | s] eqn:Hs; [lia | | lia].
  replace (Z.pos (digits2_pos m) - 1) with (52 + Z.pos s) in Hlo by lia.
  replace (Z.pos (digits2_pos m)) with (53 + Z.pos s) in Hhi, Hed by lia.
  rewrite Z.pow_add_r in Hlo, Hhi by lia.
  cbn [shr].
  destruct (shr_iter_spec s (Build_shr_record (Z.pos m) false false)) as (Hm & Hr & _);
    [cbn; lia |]. cbn [shr_m] in Hm, Hr.
  set (x := SpecFloat.iter_pos shr_1 s _) in *.
  pose proof (round_bounds x) as Hround.
  set (mr := round_nearest_even (shr_m x) (loc_of_shr_record x)) in *.
  rewrite Hm in Hround.
  pose proof (Z.pow_pos_nonneg 2 (Z.pos s) ltac:(lia) ltac:(lia)) as Hpow.
  set (mk := Z.pos m / 2 ^ Z.pos s) in *.
  assert (2 ^ 52 ≤ mk < 2 ^ 53) as Hmk.
  { split; [apply Z.div_le_lower_bound | apply Z.div_lt_upper_bound]; lia. }
  assert (mk * 2 ^ Z.pos s ≤ Z.pos m) as Hfloor
    by (rewrite Z.mul_comm; apply Z.mul_div_le; lia).
  assert (mr * 2 ^ Z.pos s ≤ Z.pos m + 2 ^ (Z.pos s - 1)) as Hup.
  { assert (2 ^ Z.pos s = 2 * 2 ^ (Z.pos s - 1)) as Hhalf.
    { rewrite <- Z.pow_succ_r by lia. f_equal. lia. }
    pose proof (Z.pow_pos_nonneg 2 (Z.pos s - 1) ltac:(lia) ltac:(lia)) as Hpow'.
    destruct (shr_r x).
    - symmetry in Hr.
      set (h := Z.pos m / 2 ^ (Z.pos s - 1)) in *.
      assert (mk = h / 2) as Hmk2.
      { subst mk h. rewrite Hhalf. rewrite Z.mul_comm, <- Z.div_div by lia. done. }
      assert (h * 2 ^ (Z.pos s - 1) ≤ Z.pos m) as Hh
        by (subst h; rewrite Z.mul_comm; apply Z.mul_div_le; lia).
      rewrite Z.odd_spec in Hr. destruct Hr as [k Hk].
      assert (mk = k) by (rewrite Hmk2, Hk; rewrite Z.mul_comm, Z.div_add_l by lia;
                          rewrite Z.div_small; lia).
      nia.
    - nia. }
  assert (mk ≤ mr ≤ mk + 1) as Hround' by (destruct (shr_r x); lia).
  clear Hround.
  change (2 ^ 52) with 4503599627370496 in *.
  change (2 ^ 53) with 9007199254740992 in *.
  destruct mr as [| q | q] eqn:Hmr; [lia | | lia].
  rewrite shr_fexp_shift by lia.
  destruct (decide (Z.pos q < 9007199254740992)) as [Hlt | Hge].
  - rewrite (digits_unique q 53)
      by (change (2 ^ (53 - 1)) with 4503599627370496;
          change (2 ^ 53) with 9007199254740992; lia). change (53 - 53) with 0. cbn [shr shr_m].
    destruct (e + Z.pos s <=? 1024 - 53) eqn:Hle; [| lia].
    exists q, (e + Z.pos s).
    split_and!; [done | | lia | |].
    + apply digits_unique. change (2 ^ (53 - 1)) with 4503599627370496.
      change (2 ^ 53) with 9007199254740992. lia.
    + replace (e + Z.pos s - e) with (Z.pos s) by lia. nia.
    + replace (e + Z.pos s - e) with (Z.pos s) by lia. lia.
  - assert (q = 9007199254740992%positive) as -> by lia.
    change (Z.pos (digits2_pos 9007199254740992) - 53) with 1.
    cbn [shr SpecFloat.iter_pos shr_1 shr_m].
    destruct (e + Z.pos s + 1 <=? 1024 - 53) eqn:Hle; [| lia].
    exists 4503599627370496%positive, (e + Z.pos s + 1).
    split_and!; [done | done | lia | |].
    + replace (e + Z.pos s + 1 - e) with (Z.succ (Z.pos s)) by lia.
      rewrite Z.pow_succ_r by lia. nia.
    + replace (e + Z.pos s + 1 - e) with (Z.succ (Z.pos s)) by lia.
      rewrite Z.pow_succ_r by lia. lia.
Qed.

Lemma pos_shift (n k : positive) : Z.pos (Pos.iter xO n k) = Z.pos n * 2 ^ Z.pos k.
Proof.
  induction k as [| k IH] using Pos.peano_ind.
  - cbn. lia.
  - rewrite Pos.iter_succ, Pos2Z.inj_xO, IH, Pos2Z.inj_succ, Z.pow_succ_r by lia. lia.
Qed.

(** An integer below 2^53 converts exactly. *)
Lemma of_size_spec (n : positive) :
  Z.pos n < 2 ^ 53 →
  ∃ mf, Double.of_size (Z.pos n) = S754_finite false mf (Z.pos (digits2_pos n) - 53)
    ∧ Z.pos (digits2_pos mf) = 53
    ∧ Z.pos mf = Z.pos n * 2 ^ (53 - Z.pos (digits2_pos n))
    ∧ 1 ≤ Z.pos (digits2_pos n) ≤ 53.
Proof.
  intros Hn. pose proof (digits_bounds n) as [Hlo Hhi].
  assert (Z.pos (digits2_pos n) ≤ 53) as Hd.
  { destruct (decide (Z.pos (digits2_pos n) ≤ 53)) as [| Hgt]; [done |].
    assert (2 ^ 53 ≤ 2 ^ (Z.pos (digits2_pos n) - 1)) by (apply Z.pow_le_mono_r; lia). lia. }
  unfold Double.of_size, binary_normalize, binary_round, Double.prec, Double.emax.
  unfold shl_align, fexp, emin. rewrite Z.add_0_r, Z.max_l by lia. rewrite Z.sub_0_r.
  destruct (Z.pos (digits2_pos n) - 53) as [| k | k] eqn:Hk; [| lia |].
  - exists n. rewrite round_aux_exact by lia.
    split_and!; [done | lia | | lia | lia].
    replace (53 - Z.pos (digits2_pos n)) with 0 by lia. lia.
  - assert (2 ^ (53 - 1) ≤ Z.pos (Pos.iter xO n k) < 2 ^ 53) as Hrange.
    { rewrite pos_shift.
      assert (2 ^ 53 = 2 ^ Z.pos (digits2_pos n) * 2 ^ Z.pos k) as ->
        by (rewrite <- Z.pow_add_r by lia; f_equal; lia).
      assert (2 ^ (53 - 1) = 2 ^ (Z.pos (digits2_pos n) - 1) * 2 ^ Z.pos k) as ->
        by (rewrite <- Z.pow_add_r by lia; f_equal; lia).
      pose proof (Z.pow_pos_nonneg 2 (Z.pos k) ltac:(lia) ltac:(lia)). nia. }
    exists (Pos.iter xO n k).
    rewrite round_aux_exact; [| by apply digits_unique | lia].
    split_and!; [done | by apply digits_unique | | lia | lia].
    rewrite pos_shift. do 2 f_equal. lia.
Qed.

(** The order of two positive doubles with full mantissas. *)
Lemma ltb_finite (m1 m2 : positive) (e1 e2 b : Z) :
  Z.pos (digits2_pos m1) = 53 → Z.pos (digits2_pos m2) = 53 → b ≤ e1 → b ≤ e2 →
  Double.ltb (S754_finite false m1 e1) (S754_finite false m2 e2)
  = (Z.pos m1 * 2 ^ (e1 - b) <? Z.pos m2 * 2 ^ (e2 - b)).
Proof.
  intros Hd1 Hd2 Hb1 Hb2.
  pose proof (digits_bounds m1) as [Hlo1 Hhi1]. pose proof (digits_bounds m2) as [Hlo2 Hhi2].
  rewrite Hd1 in Hlo1, Hhi1. rewrite Hd2 in Hlo2, Hhi2.
  change (2 ^ (53 - 1)) with 4503599627370496 in *.
  change (2 ^ 53) with 9007199254740992 in *.
  unfold Double.ltb, SFltb, SFcompare.
  pose proof (Z.pow_pos_nonneg 2 (e1 - b) ltac:(lia) ltac:(lia)) as Hp1.
  pose proof (Z.pow_pos_nonneg 2 (e2 - b) ltac:(lia) ltac:(lia)) as Hp2.
  destruct (Z.compare_spec e1 e2) as [-> | Hlt | Hgt].
  - rewrite Pos.compare_cont_spec. cbn [Pos.switch_Eq].
    change (Pos.compare m1 m2) with (Z.compare (Z.pos m1) (Z.pos m2)).
    destruct (Z.compare_spec (Z.pos m1) (Z.pos m2)) as [Heq | Hlt | Hgt];
      symmetry; [apply Z.ltb_ge | apply Z.ltb_lt | apply Z.ltb_ge]; nia.
  - symmetry. apply Z.ltb_lt.
    replace (e2 - b) with (Z.succ (e2 - e1 - 1) + (e1 - b)) by lia.
    rewrite Z.pow_add_r, Z.pow_succ_r by lia.
    pose proof (Z.pow_pos_nonneg 2 (e2 - e1 - 1) ltac:(lia) ltac:(lia)) as Hq.
    set (P := 2 ^ (e1 - b)) in *. set (Q := 2 ^ (e2 - e1 - 1)) in *.
    assert (Z.pos m1 * P < 9007199254740992 * P) by (apply Z.mul_lt_mono_pos_r; lia).
    assert (9007199254740992 * P ≤ Z.pos m2 * 2 * P) by (apply Z.mul_le_mono_nonneg_r; lia).
    assert (0 < Z.pos m2 * 2 * P) as Hx by lia.
    replace (Z.pos m2 * (2 * Q * P)) with (Z.pos m2 * 2 * P * Q) by ring.
    set (X := Z.pos m2 * 2 * P) in *. nia.
  - symmetry. apply Z.ltb_ge.
    replace (e1 - b) with (Z.succ (e1 - e2 - 1) + (e2 - b)) by lia.
    rewrite Z.pow_add_r, Z.pow_succ_r by lia.
    pose proof (Z.pow_pos_nonneg 2 (e1 - e2 - 1) ltac:(lia) ltac:(lia)) as Hq.
    set (P := 2 ^ (e2 - b)) in *. set (Q := 2 ^ (e1 - e2 - 1)) in *.
    assert (Z.pos m2 * P < 9007199254740992 * P) by (apply Z.mul_lt_mono_pos_r; lia).
    assert (9007199254740992 * P ≤ Z.pos m1 * 2 * P) by (apply Z.mul_le_mono_nonneg_r; lia).
    assert (0 < Z.pos m1 * 2 * P) as Hx by lia.
    replace (Z.pos m1 * (2 * Q * P)) with (Z.pos m1 * 2 * P * Q) by ring.
    set (X := Z.pos m1 * 2 * P) in *. nia.
Qed.

(** The product of a positive double with a full mantissa and [0.9]. *)
Lemma mul_c0_9_spec (mc : positive) (ec : Z) :
  Z.pos (digits2_pos mc) = 53 → -52 ≤ ec ≤ 0 →
  ∃ mf ef s,
    Double.mul (S754_finite false mc ec) Double.c0_9 = S754_finite false mf ef
    ∧ Z.pos (digits2_pos mf) = 53 ∧ 52 ≤ s ≤ 53 ∧ ec - 53 + s ≤ ef
    ∧ Z.pos mc * 8106479329266893 / 2 ^ s * 2 ^ s ≤ Z.pos mf * 2 ^ (ef - (ec - 53))
    ∧ Z.pos mf * 2 ^ (ef - (ec - 53)) ≤ Z.pos mc * 8106479329266893 + 2 ^ (s - 1).
Proof.
  intros Hd Hec. pose proof (digits_bounds mc) as [Hlo Hhi]. rewrite Hd in Hlo, Hhi.
  change (2 ^ (53 - 1)) with 4503599627370496 in Hlo.
  change (2 ^ 53) with 9007199254740992 in Hhi.
  unfold Double.mul, SFmul, Double.c0_9, Double.prec, Double.emax. cbn [xorb].
  set (P := (mc * 8106479329266893)%positive).
  assert (Z.pos P = Z.pos mc * 8106479329266893) as HP by (subst P; lia).
  pose proof (digits_bounds P) as [HloP HhiP].
  assert (105 ≤ Z.pos (digits2_pos P) ≤ 106) as HdP.
  { split.
    - destruct (decide (105 ≤ Z.pos (digits2_pos P))) as [| Hn]; [done |].
      assert (2 ^ Z.pos (digits2_pos P) ≤ 2 ^ 104) as Hle by (apply Z.pow_le_mono_r; lia).
      change (2 ^ 104) with 20282409603651670423947251286016 in Hle. nia.
    - destruct (decide (Z.pos (digits2_pos P) ≤ 106)) as [| Hn]; [done |].
      assert (2 ^ 106 ≤ 2 ^ (Z.pos (digits2_pos P) - 1)) as Hle by (apply Z.pow_le_mono_r; lia).
      change (2 ^ 106) with 81129638414606681695789005144064 in Hle. nia. }
  destruct (round_aux_spec P (ec + -53)) as (mf & ef & Hrun & Hdf & Hef & Hlow & Hup);
    [lia | lia | lia |].
  exists mf, ef, (Z.pos (digits2_pos P) - 53).
  replace (ef - (ec + -53)) with (ef - (ec - 53)) in Hlow, Hup by lia.
  rewrite HP in Hlow, Hup. split_and!; [done | done | lia | lia | lia | done | done].
Qed.

(** The check [count + 1 > capacity * 0.9] on doubles agrees with the
    same check on integers as long as the table has fewer than 2^49
    slots. *)
Lemma load_exceeded_exact (capacity count : Z) :
  0 ≤ capacity < 2 ^ 49 → 0 ≤ count < 2 ^ 49 →
  Double.load_exceeded capacity count = (9 * capacity <? 10 * (count + 1)).
Proof.
  intros Hc Hn. unfold Double.load_exceeded.
  change (2 ^ 49) with 562949953421312 in *.
  rewrite wrap64_small by (change (2 ^ 64) with 18446744073709551616; lia).
  destruct (count + 1) as [| n | n] eqn:Hn1; [lia | | lia].
  destruct (of_size_spec n) as (mn & HN & Hdn & Hmn & Hdn');
    [change (2 ^ 53) with 9007199254740992; lia |].
  rewrite HN.
  destruct capacity as [| c | c]; [| | lia].
  - cbn. symmetry. apply Z.ltb_lt. lia.
  - destruct (of_size_spec c) as (mc & HC & Hdc & Hmc & Hdc');
      [change (2 ^ 53) with 9007199254740992; lia |].
    rewrite HC.
    pose proof (digits_bounds c) as [Hloc _].
    assert (Z.pos (digits2_pos c) ≤ 49) as Hdc49.
    { destruct (decide (Z.pos (digits2_pos c) ≤ 49)) as [| Hgt]; [done |].
      assert (2 ^ 49 ≤ 2 ^ (Z.pos (digits2_pos c) - 1)) as Hle by (apply Z.pow_le_mono_r; lia).
      change (2 ^ 49) with 562949953421312 in Hle. lia. }
    set (ec := Z.pos (digits2_pos c) - 53) in *.
    set (en := Z.pos (digits2_pos n) - 53) in *.
    destruct (mul_c0_9_spec mc ec Hdc ltac:(lia)) as (mf & ef & s & HY & Hdf & Hs & Hef & Hlow & Hup).
    rewrite HY. rewrite (ltb_finite mf mn ef en (-200)) by (done || lia).
    set (A := Z.pos mf * 2 ^ (ef - (ec - 53))) in *.
    assert (Z.pos mf * 2 ^ (ef - -200) = A * 2 ^ (ec + 147)) as ->.
    { subst A. rewrite <- Z.mul_assoc, <- Z.pow_add_r by lia. do 2 f_equal. lia. }
    assert (Z.pos mn * 2 ^ (en - -200) = Z.pos n * 2 ^ 200) as ->.
    { rewrite Hmn, <- Z.mul_assoc, <- Z.pow_add_r by lia. do 2 f_equal. lia. }
    assert (Z.pos mc * 2 ^ (ec + 147) = Z.pos c * 2 ^ 147) as HcP.
    { rewrite Hmc, <- Z.mul_assoc, <- Z.pow_add_r by lia. do 2 f_equal. lia. }
    pose proof (Z.pow_pos_nonneg 2 (ec + 147) ltac:(lia) ltac:(lia)) as Hpow.
    destruct (9 * Z.pos c <? 10 * Z.pos n) eqn:Hcmp.
    + apply Z.ltb_lt in Hcmp. apply Z.ltb_lt.
      assert (2 ^ (s - 1) * 2 ^ (ec + 147) ≤ 2 ^ 195) as Hulp.
      { rewrite <- Z.pow_add_r by lia. apply Z.pow_le_mono_r; lia. }
      assert (A * 2 ^ (ec + 147)
              ≤ Z.pos c * 2 ^ 147 * 8106479329266893 + 2 ^ 195) as HA.
      { rewrite <- HcP.
        replace (Z.pos mc * 2 ^ (ec + 147) * 8106479329266893)
          with (Z.pos mc * 8106479329266893 * 2 ^ (ec + 147)) by ring.
        etrans; [apply Z.mul_le_mono_nonneg_r; [lia | exact Hup] |].
        rewrite Z.mul_add_distr_r. lia. }
      change (2 ^ 147) with 178405961588244985132285746181186892047843328 in HA.
      change (2 ^ 195) with 50216813883093446110686315385661331328818843555712276103168 in HA.
      change (2 ^ 200) with 1606938044258990275541962092341162602522202993782792835301376.
      lia.
    + apply Z.ltb_ge in Hcmp. apply Z.ltb_ge.
      assert (Z.pos n * 2 ^ (53 - ec - s) * 2 ^ s ≤ Z.pos mc * 8106479329266893) as Hfit.
      { rewrite <- Z.mul_assoc, <- Z.pow_add_r by lia.
        replace (53 - ec - s + s) with (53 + (53 - Z.pos (digits2_pos c))) by lia.
        rewrite Hmc, Z.pow_add_r by lia.
        pose proof (Z.pow_pos_nonneg 2 (53 - Z.pos (digits2_pos c)) ltac:(lia) ltac:(lia)).
        change (2 ^ 53) with 9007199254740992. nia. }
      pose proof (Z.pow_pos_nonneg 2 s ltac:(lia) ltac:(lia)) as Hpows.
      assert (Z.pos n * 2 ^ (53 - ec - s) ≤ Z.pos mc * 8106479329266893 / 2 ^ s) as Hdiv
        by (apply Z.div_le_lower_bound; lia).
      assert (Z.pos n * 2 ^ (53 - ec - s) * 2 ^ s ≤ A) as HnA by nia.
      replace (Z.pos n * 2 ^ 200) with (Z.pos n * 2 ^ (53 - ec - s) * 2 ^ s * 2 ^ (ec + 147)).
      * apply Z.mul_le_mono_nonneg_r; lia.
      * rewrite <- !Z.mul_assoc, <- !Z.pow_add_r by lia. do 2 f_equal. lia.
Qed.

(** ** Slots *)

Section Slots.
Context {K V D : Type}.
Implicit Types (map : hashmap_t K V D) (e : hash_entry_t K V).

Lemma status_free e :
  entry_status e ≠ OCCUPIED ↔
  bool_decide (entry_status e = __FLUENT_LIBC_HASHMAP_EMPTY)
  || bool_decide (entry_status e = TOMBSTONE) = true.
Proof. destruct (entry_status e); cbn; split; (done || congruence). Qed.

Lemma status_occupied e :
  entry_status e = OCCUPIED ↔
  bool_decide (entry_status e = __FLUENT_LIBC_HASHMAP_EMPTY)
  || bool_decide (entry_status e = TOMBSTONE) = false.
Proof. destruct (entry_status e); cbn; split; (done || congruence). Qed.

Lemma entry_at_lt map p e :
  shape map → 0 ≤ p → entry_at map p = Some e → p < capacity map.
Proof.
  intros [Hcap _] Hp Hat. apply lookup_lt_Some in Hat. lia.
Qed.

Lemma entry_at_is_Some map p :
  shape map → 0 ≤ p < capacity map → is_Some (entry_at map p).
Proof.
  intros [Hcap _] Hp. apply lookup_lt_is_Some. lia.
Qed.

Lemma entry_at_elem map p e : entry_at map p = Some e → e ∈ entries map.
Proof. apply list_elem_of_lookup_2. Qed.

Lemma elem_entry_at map e :
  e ∈ entries map → ∃ p, 0 ≤ p ∧ entry_at map p = Some e.
Proof.
  intros [i Hi]%list_elem_of_lookup_1. exists (Z.of_nat i).
  unfold entry_at. rewrite Nat2Z.id. split; [lia | done].
Qed.

Lemma entry_at_store_eq map i e :
  shape map → 0 ≤ i < capacity map → entry_at (store_entry map i e) i = Some e.
Proof.
  intros [Hcap _] Hi. unfold entry_at, store_entry; cbn.
  apply list_lookup_insert_eq. lia.
Qed.

Lemma entry_at_store_ne map i j e :
  0 ≤ i → 0 ≤ j → i ≠ j → entry_at (store_entry map i e) j = entry_at map j.
Proof.
  intros Hi Hj Hne. unfold entry_at, store_entry; cbn.
  apply list_lookup_insert_ne. lia.
Qed.

Lemma shape_store map i e : shape map → shape (store_entry map i e).
Proof.
  unfold shape, store_entry; cbn. by rewrite length_insert.
Qed.

(** The successor of an index, as the loops compute it. *)
Lemma next_index map index :
  shape map → 0 ≤ index < capacity map →
  wrap64 (index + 1) mod capacity map = (index + 1) mod capacity map
  ∧ 0 ≤ (index + 1) mod capacity map < capacity map.
Proof.
  intros [_ Hlt] Hi. split.
  - rewrite wrap64_small; [done | lia].
  - apply Z.mod_pos_bound. lia.
Qed.

Lemma index_shift (i c : Z) (d : nat) :
  0 < c → ((i + 1) mod c + Z.of_nat d) mod c = (i + Z.of_nat (S d)) mod c.
Proof.
  intros Hc. rewrite Zplus_mod_idemp_l. f_equal. lia.
Qed.

(** *** The occupied slots under a store *)

Lemma live_store_free (es : list (hash_entry_t K V)) i old e :
  es !! i = Some old → entry_status old ≠ OCCUPIED → entry_status e = OCCUPIED →
  live (<[i:=e]> es) ≡ₚ e :: live es.
Proof.
  intros Hi Hold He. rewrite insert_take_drop by (by eapply lookup_lt_Some).
  rewrite <- (take_drop_middle es i old Hi) at 3. unfold live.
  rewrite !filter_app, filter_cons_True, filter_cons_False by done.
  by rewrite Permutation_middle.
Qed.

Lemma live_store_swap (es : list (hash_entry_t K V)) i old e :
  es !! i = Some old → entry_status old = OCCUPIED → entry_status e = OCCUPIED →
  old :: live (<[i:=e]> es) ≡ₚ e :: live es.
Proof.
  intros Hi Hold He. rewrite insert_take_drop by (by eapply lookup_lt_Some).
  rewrite <- (take_drop_middle es i old Hi) at 3. unfold live.
  rewrite !filter_app, !filter_cons_True by done.
  rewrite <- !Permutation_middle. apply perm_swap.
Qed.

Lemma live_length_le (es : list (hash_entry_t K V)) :
  (length (live es) ≤ length es)%nat.
Proof. apply length_filter. Qed.

(** When [count] counts the occupied slots and is below [capacity], a
    slot is free. *)
Lemma count_lt_capacity_free map :
  shape map → count_ok map → count map < capacity map → has_free_slot map.
Proof.
  intros [Hcap _] Hcount Hlt. unfold count_ok in Hcount.
  destruct (decide (Forall (λ e, entry_status e = OCCUPIED) (entries map))) as [Hall | Hex].
  - exfalso. unfold live in Hcount.
    assert (filter (λ e, entry_status e = OCCUPIED) (entries map) = entries map) as Heq.
    { clear -Hall. induction Hall as [| e es He _ IH]; [done |].
      rewrite filter_cons_True by done. by rewrite IH. }
    rewrite Heq in Hcount. lia.
  - apply not_Forall_Exists in Hex; [| intros e; apply _].
    apply Exists_exists in Hex as (e & Hin & Hfree).
    apply elem_entry_at in Hin as (p & Hp & Hat). by exists p, e.
Qed.

End Slots.

(** ** The placement loop *)

Section InsertLoop.
Context {K V D : Type}.
Implicit Types (map : hashmap_t K V D) (e ne : hash_entry_t K V).

(** A free slot [d] steps ahead is reached with more than [d] units of
    fuel: the slots walked over stay occupied, the free one stays free. *)
Lemma insert_loop_terminates (d : nat) : ∀ (fuel : nat) map index dist ne,
  shape map → 0 ≤ index < capacity map →
  (∃ e, entry_at map ((index + Z.of_nat d) mod capacity map) = Some e
        ∧ entry_status e ≠ OCCUPIED) →
  (d < fuel)%nat →
  ∃ map', hashmap_insert_loop fuel map index dist ne = Ret (map', 1).
Proof.
  induction d as [| d IH]; intros fuel map index dist ne Hshape Hidx (e & Hat & Hfree) Hfuel;
    (destruct fuel as [| fuel]; [lia |]); cbn [hashmap_insert_loop].
  - replace ((index + Z.of_nat 0) mod capacity map) with index in Hat
      by (rewrite Z.add_0_r, Z.mod_small; lia).
    rewrite Hat. apply status_free in Hfree. rewrite Hfree. eauto.
  - destruct (entry_at_is_Some map index Hshape Hidx) as [cur Hcur]. rewrite Hcur.
    destruct (bool_decide _ || bool_decide _) eqn:Hst; [eauto |].
    apply status_occupied in Hst.
    destruct (next_index map index Hshape Hidx) as [Hnext Hrange].
    assert ((index + Z.of_nat (S d)) mod capacity map ≠ index) as Hne
      by (intros Heq; rewrite Heq in Hat; congruence).
    assert (0 ≤ (index + Z.of_nat (S d)) mod capacity map) as Hpos
      by (apply Z.mod_pos_bound; lia).
    destruct (_ <? dist); cbn [capacity store_entry set_entries]; rewrite Hnext.
    + apply IH; [by apply shape_store | done | | lia].
      exists e. split; [| done]. cbn [capacity store_entry set_entries].
      rewrite index_shift by lia.
      rewrite <- Hat. apply entry_at_store_ne; [lia | done | done].
    + apply IH; [done | done | | lia].
      exists e. by rewrite index_shift by lia.
Qed.

Lemma free_slot_ahead map index :
  shape map → 0 ≤ index < capacity map → has_free_slot map →
  ∃ d : nat, (d < Z.to_nat (capacity map))%nat
    ∧ ∃ e, entry_at map ((index + Z.of_nat d) mod capacity map) = Some e
           ∧ entry_status e ≠ OCCUPIED.
Proof.
  intros Hshape Hidx (p & e & Hp & Hat & Hfree).
  pose proof (entry_at_lt map p e Hshape Hp Hat) as Hlt.
  pose proof (Z.mod_pos_bound (p - index) (capacity map) ltac:(lia)) as Hd.
  exists (Z.to_nat ((p - index) mod capacity map)). split; [lia |].
  exists e. split; [| done]. rewrite Z2Nat.id by lia.
  rewrite Zplus_mod_idemp_r.
  replace (index + (p - index)) with p by lia. by rewrite Z.mod_small by lia.
Qed.

Lemma elem_store map i e e' :
  e' ∈ entries (store_entry map i e) → e' = e ∨ e' ∈ entries map.
Proof.
  cbn. intros [j Hj]%list_elem_of_lookup_1.
  apply list_lookup_insert_Some in Hj as [(_ & -> & _) | [_ Hj]]; [by left |].
  right. by eapply list_elem_of_lookup_2.
Qed.

(** *** Scans *)

Lemma run_mono map map1 i d :
  capacity map1 = capacity map → 0 < capacity map →
  (∀ p e, 0 ≤ p → entry_at map p = Some e →
     entry_status e ≠ __FLUENT_LIBC_HASHMAP_EMPTY →
     ∃ e', entry_at map1 p = Some e' ∧ entry_status e' ≠ __FLUENT_LIBC_HASHMAP_EMPTY) →
  run map i d → run map1 i d.
Proof.
  intros Hcap Hpos Hkeep Hrun j Hj. destruct (Hrun j Hj) as (e & Hat & He).
  rewrite Hcap. eapply Hkeep; [| done | done].
  apply Z.mod_pos_bound. lia.
Qed.

Lemma reachable_mono map map1 i p :
  capacity map1 = capacity map → 0 < capacity map →
  (∀ p e, 0 ≤ p → entry_at map p = Some e →
     entry_status e ≠ __FLUENT_LIBC_HASHMAP_EMPTY →
     ∃ e', entry_at map1 p = Some e' ∧ entry_status e' ≠ __FLUENT_LIBC_HASHMAP_EMPTY) →
  reachable map i p → reachable map1 i p.
Proof.
  intros Hcap Hpos Hkeep (d & -> & Hrun). exists d. split; [by rewrite Hcap |].
  by eapply run_mono.
Qed.

Lemma reachable_step map i p e :
  0 < capacity map → reachable map i p → entry_at map p = Some e →
  entry_status e ≠ __FLUENT_LIBC_HASHMAP_EMPTY →
  reachable map i ((p + 1) mod capacity map).
Proof.
  intros Hpos (d & -> & Hrun) Hat He. exists (S d). split.
  - rewrite Zplus_mod_idemp_l. f_equal. lia.
  - intros j Hj. destruct (decide (j = d)) as [-> | Hne]; [by exists e |].
    apply Hrun. lia.
Qed.

Lemma reachable_self map i :
  0 ≤ i < capacity map → reachable map i i.
Proof.
  intros Hi. exists 0%nat. split.
  - by rewrite Z.add_0_r, Z.mod_small.
  - intros j Hj. lia.
Qed.

Lemma store_keeps_nonempty map index ne :
  shape map → 0 ≤ index < capacity map → entry_status ne = OCCUPIED →
  ∀ p e, 0 ≤ p → entry_at map p = Some e →
    entry_status e ≠ __FLUENT_LIBC_HASHMAP_EMPTY →
    ∃ e', entry_at (store_entry map index ne) p = Some e'
          ∧ entry_status e' ≠ __FLUENT_LIBC_HASHMAP_EMPTY.
Proof.
  intros Hshape Hidx Hne p e Hp Hat He.
  destruct (decide (p = index)) as [-> | Hdiff].
  - exists ne. rewrite entry_at_store_eq by done. split; [done | congruence].
  - exists e. by rewrite entry_at_store_ne by lia.
Qed.

Lemma chain_ok_store map index ne :
  shape map → 0 ≤ index < capacity map → entry_status ne = OCCUPIED →
  chain_ok map → reachable map (entry_hash ne mod capacity map) index →
  chain_ok (store_entry map index ne).
Proof.
  intros Hshape Hidx Hne Hchain Hreach p e Hp Hat Hocc.
  eapply (reachable_mono map); [done | lia | by apply store_keeps_nonempty |].
  destruct (decide (p = index)) as [-> | Hdiff].
  - rewrite entry_at_store_eq in Hat by done. by simplify_eq.
  - rewrite entry_at_store_ne in Hat by lia. by apply Hchain.
Qed.

Lemma no_tombstone_store map index ne :
  entry_status ne = OCCUPIED → no_tombstone map →
  no_tombstone (store_entry map index ne).
Proof.
  intros Hne Hno e [-> | Hin]%elem_store; [congruence | by apply Hno].
Qed.

Lemma hashes_ok_store map index ne :
  entry_hash ne = u32 (hash_fn map (entry_key ne)) → hashes_ok map →
  hashes_ok (store_entry map index ne).
Proof.
  intros Hne Hok e [-> | Hin]%elem_store Hocc; [done | by apply Hok].
Qed.

(** What a finished run of the loop has done. *)
Lemma insert_loop_spec (fuel : nat) : ∀ map index dist ne map' ok,
  shape map → 0 ≤ index < capacity map → entry_status ne = OCCUPIED →
  hashmap_insert_loop fuel map index dist ne = Ret (map', ok) →
  ok = 1 ∧ same_config map map' ∧ capacity map' = capacity map ∧ shape map'
  ∧ count map' = wrap64 (count map + 1)
  ∧ live (entries map') ≡ₚ ne :: live (entries map)
  ∧ (no_tombstone map → no_tombstone map')
  ∧ (hashes_ok map → entry_hash ne = u32 (hash_fn map (entry_key ne)) → hashes_ok map')
  ∧ (chain_ok map → reachable map (entry_hash ne mod capacity map) index → chain_ok map').
Proof.
  induction fuel as [| fuel IH]; intros map index dist ne map' ok Hshape Hidx Hne Hrun;
    [done |]. cbn [hashmap_insert_loop] in Hrun.
  destruct (entry_at map index) as [cur |] eqn:Hcur; [| done].
  destruct (bool_decide _ || bool_decide _) eqn:Hst.
  - apply status_free in Hst. simplify_eq. split_and!; try done.
    + by apply shape_store.
    + cbn. by eapply live_store_free.
    + intros Hno. by apply (no_tombstone_store map).
    + intros Hok Hh. by apply (hashes_ok_store map).
    + intros Hchain Hreach. by apply (chain_ok_store map).
  - apply status_occupied in Hst.
    destruct (next_index map index Hshape Hidx) as [Hnext Hrange].
    assert (entry_status cur ≠ __FLUENT_LIBC_HASHMAP_EMPTY) as Hcur_ne by congruence.
    destruct (_ <? dist); cbn [capacity store_entry set_entries] in Hrun;
      rewrite Hnext in Hrun; apply IH in Hrun; try done.
    + destruct Hrun as (-> & Hcfg & Hcap & Hshape' & Hcount & Hlive & Hno & Hok & Hchain).
      split_and!; try done; try apply Hcfg.
      * rewrite Hlive. cbn. by eapply live_store_swap.
      * intros Hno0. by apply Hno, no_tombstone_store.
      * intros Hok0 Hh. apply Hok; [by apply hashes_ok_store |].
        apply Hok0; [by eapply entry_at_elem | done].
      * intros Hchain0 Hreach. apply Hchain; [by apply chain_ok_store |].
        cbn [capacity store_entry set_entries].
        apply (reachable_step (store_entry map index ne) _ index ne).
        -- cbn. lia.
        -- eapply (reachable_mono map); [done | lia | by apply store_keeps_nonempty |].
           apply Hchain0; [lia | done | done].
        -- by apply entry_at_store_eq.
        -- congruence.
    + by apply shape_store.
    + destruct Hrun as (-> & Hcfg & Hcap & Hshape' & Hcount & Hlive & Hno & Hok & Hchain).
      split_and!; try done; try apply Hcfg.
      intros Hchain0 Hreach. apply Hchain; [done |].
      eapply reachable_step; [lia | done | done | done].
Qed.

End InsertLoop.

(** C10: on a table with a slot that is Empty or a Tombstone (in particular
    when [count] counts the occupied slots and [count < capacity]), the
    placement loop of insert terminates, within [capacity] iterations, with
    the return value 1; every entry, the carried one and the residents, sits
    in a slot of the resulting array, and [count] has grown by one.  The
    same holds for the loop as insert starts it, at the ideal bucket of the
    key with distance 0. *)
Theorem insert_loop_total {K V D : Type} (map : hashmap_t K V D) (fuel : nat) :
  shape map →
  has_free_slot map ∨ (count_ok map ∧ count map < capacity map) →
  (Z.to_nat (capacity map) ≤ fuel)%nat →
  (∀ index dist new_entry,
     0 ≤ index < capacity map → entry_status new_entry = OCCUPIED →
     ∃ map', hashmap_insert_loop fuel map index dist new_entry = Ret (map', 1)
       ∧ live (entries map') ≡ₚ new_entry :: live (entries map)
       ∧ count map' = wrap64 (count map + 1)
       ∧ capacity map' = capacity map)
  ∧ (∀ key value,
     ∃ map', hashmap_insert_place fuel map key value = Ret (map', 1)
       ∧ pairs map' ≡ₚ (key, value) :: pairs map
       ∧ count map' = wrap64 (count map + 1)
       ∧ capacity map' = capacity map).
Proof.
  intros Hshape Hfree Hfuel.
  assert (has_free_slot map) as Hslot.
  { destruct Hfree as [? | [? ?]]; [done | by apply count_lt_capacity_free]. }
  assert (∀ index dist new_entry,
     0 ≤ index < capacity map → entry_status new_entry = OCCUPIED →
     ∃ map', hashmap_insert_loop fuel map index dist new_entry = Ret (map', 1)
       ∧ live (entries map') ≡ₚ new_entry :: live (entries map)
       ∧ count map' = wrap64 (count map + 1)
       ∧ capacity map' = capacity map) as Hloop.
  { intros index dist ne Hidx Hne.
    destruct (free_slot_ahead map index Hshape Hidx Hslot) as (d & Hd & Hahead).
    destruct (insert_loop_terminates d fuel map index dist ne Hshape Hidx Hahead ltac:(lia))
      as [map' Hrun].
    exists map'. split; [done |].
    apply insert_loop_spec in Hrun; [| done..].
    by destruct Hrun as (_ & _ & Hcap & _ & Hcount & Hlive & _). }
  split; [done |]. intros key value. unfold hashmap_insert_place.
  destruct Hslot as (p & e & Hp & Hat & _).
  pose proof (entry_at_lt map p e Hshape Hp Hat) as Hlt.
  destruct (capacity map =? 0) eqn:Hzero; [lia |].
  destruct (Hloop (u32 (hash_fn map key) mod capacity map) 0
              (Build_entry key value OCCUPIED (u32 (hash_fn map key))))
    as (map' & Hrun & Hlive & Hcount & Hcap); [apply Z.mod_pos_bound; lia | done |].
  exists map'. split_and!; [done | | done | done].
  unfold pairs. by rewrite Hlive.
Qed.

Lemma insert_loop_total_witness :
  ∃ map', hashmap_insert_place 4 StringInt.sample "e"%string 5 = Ret (map', 1)
    ∧ pairs map' ≡ₚ ("e"%string, 5) :: pairs StringInt.sample
    ∧ count map' = wrap64 (count StringInt.sample + 1)
    ∧ capacity map' = capacity StringInt.sample.
Proof.
  apply (insert_loop_total StringInt.sample 4).
  - split; [reflexivity | vm_compute; reflexivity].
  - left. exists 1, (StringInt.tombstone 7 3876335077).
    split; [lia |]. split; [reflexivity | discriminate].
  - vm_compute. lia.
Defined.

(** ** Iteration *)

Section Iteration.
Context {K V D : Type}.
Implicit Types (map : hashmap_t K V D) (e : hash_entry_t K V).

Lemma iter_next_end map i (fuel : nat) :
  capacity map ≤ i →
  hashmap_iter_next (S fuel) (Build_iter map i) = Ret (Build_iter map i, None).
Proof.
  intros Hi. cbn. destruct (i <? capacity map) eqn:Hlt; [lia | done].
Qed.

Lemma iter_next_hit map i e (fuel : nat) :
  shape map → 0 ≤ i → entry_at map i = Some e → entry_status e = OCCUPIED →
  hashmap_iter_next (S fuel) (Build_iter map i) = Ret (Build_iter map (i + 1), Some i).
Proof.
  intros Hshape Hi Hat Hocc. pose proof (entry_at_lt map i e Hshape Hi Hat) as Hlt.
  cbn. destruct (i <? capacity map) eqn:Hcmp; [| lia].
  rewrite Hat, bool_decide_eq_true_2 by done.
  rewrite wrap64_small; [done | destruct Hshape; lia].
Qed.

Lemma iter_next_skip map i e (fuel : nat) :
  shape map → 0 ≤ i → entry_at map i = Some e → entry_status e ≠ OCCUPIED →
  hashmap_iter_next (S fuel) (Build_iter map i)
  = hashmap_iter_next fuel (Build_iter map (i + 1)).
Proof.
  intros Hshape Hi Hat Hocc. pose proof (entry_at_lt map i e Hshape Hi Hat) as Hlt.
  cbn. destruct (i <? capacity map) eqn:Hcmp; [| lia].
  rewrite Hat, bool_decide_eq_false_2 by done.
  rewrite wrap64_small; [done | destruct Hshape; lia].
Qed.

(** With more fuel than slots left, the result does not depend on the
    fuel. *)
Lemma iter_next_fuel map (n : nat) : ∀ i (fuel1 fuel2 : nat),
  shape map → 0 ≤ i → capacity map - i ≤ Z.of_nat n →
  (n < fuel1)%nat → (n < fuel2)%nat →
  hashmap_iter_next fuel1 (Build_iter map i) = hashmap_iter_next fuel2 (Build_iter map i).
Proof.
  induction n as [| n IH]; intros i fuel1 fuel2 Hshape Hi Hn H1 H2;
    destruct fuel1 as [| fuel1], fuel2 as [| fuel2]; try lia.
  - by rewrite !iter_next_end by lia.
  - destruct (decide (capacity map ≤ i)) as [Hend | Hin].
    { by rewrite !iter_next_end by lia. }
    destruct (entry_at_is_Some map i Hshape ltac:(lia)) as [e Hat].
    destruct (decide (entry_status e = OCCUPIED)) as [Hocc | Hfree].
    + by rewrite !(iter_next_hit map i e).
    + rewrite !(iter_next_skip map i e) by done. apply IH; [done | lia..].
Qed.

(** Draining from index [i]: the indices returned are those of the
    occupied slots from [i] on, each once, in ascending order. *)
Lemma iter_drain_spec map (n : nat) : ∀ i (rounds : nat),
  shape map → 0 ≤ i → capacity map - i = Z.of_nat n →
  (length (live (drop (Z.to_nat i) (entries map))) < rounds)%nat →
  ∃ ps, iter_drain rounds (Build_iter map i) = Ret (Build_iter map (capacity map), ps)
    ∧ entry_at map <$> ps = Some <$> live (drop (Z.to_nat i) (entries map))
    ∧ Forall (λ p, i ≤ p < capacity map) ps
    ∧ NoDup ps
    ∧ (∀ q e, i ≤ q → entry_at map q = Some e → entry_status e = OCCUPIED → q ∈ ps).
Proof.
  induction n as [| n IH]; intros i rounds Hshape Hi Hn Hrounds.
  - destruct rounds as [| rounds]; [lia |].
    assert (i = capacity map) as -> by lia.
    exists []. cbn [iter_drain iter_map]. rewrite iter_next_end by lia. cbn.
    split_and!; [done | | done | constructor |].
    + destruct Hshape as [-> _]. by rewrite Nat2Z.id, drop_all.
    + intros q e Hq Hat _. pose proof (entry_at_lt map q e Hshape ltac:(lia) Hat). lia.
  - destruct (entry_at_is_Some map i Hshape ltac:(lia)) as [e Hat].
    pose proof Hat as Hdrop. unfold entry_at in Hdrop. apply drop_S in Hdrop.
    replace (S (Z.to_nat i)) with (Z.to_nat (i + 1)) in Hdrop by lia.
    destruct (decide (entry_status e = OCCUPIED)) as [Hocc | Hfree].
    + assert (live (drop (Z.to_nat i) (entries map))
              = e :: live (drop (Z.to_nat (i + 1)) (entries map))) as Hlive
        by (rewrite Hdrop; unfold live; by rewrite filter_cons_True).
      rewrite Hlive in Hrounds |- *. cbn [length] in Hrounds.
      destruct rounds as [| rounds]; [lia |].
      assert (0 ≤ i + 1) as H1 by lia.
      assert (capacity map - (i + 1) = Z.of_nat n) as H2 by lia.
      assert (length (live (drop (Z.to_nat (i + 1)) (entries map))) < rounds)%nat
        as H3 by lia.
      destruct (IH (i + 1) rounds Hshape H1 H2 H3)
        as (ps & Hrun & Hread & Hrange & Hnodup & Hall).
      exists (i :: ps). cbn [iter_drain iter_map].
      rewrite (iter_next_hit map i e) by done. cbn. rewrite Hrun. cbn.
      split_and!; [done | | | |].
      * cbn. by rewrite Hat, Hread.
      * constructor; [lia |]. eapply Forall_impl; [done |]. cbn. lia.
      * constructor; [| done]. intros Hin.
        rewrite Forall_forall in Hrange. apply Hrange in Hin. lia.
      * intros q e' Hq Hat' Hocc'. destruct (decide (q = i)) as [-> | Hne]; [left |].
        right. eapply Hall; [| done | done]. lia.
    + assert (live (drop (Z.to_nat i) (entries map))
              = live (drop (Z.to_nat (i + 1)) (entries map))) as Hlive
        by (rewrite Hdrop; unfold live; by rewrite filter_cons_False).
      rewrite Hlive in Hrounds |- *.
      destruct rounds as [| rounds]; [lia |].
      assert (0 ≤ i + 1) as H1 by lia.
      assert (capacity map - (i + 1) = Z.of_nat n) as H2 by lia.
      destruct (IH (i + 1) (S rounds) Hshape H1 H2 Hrounds)
        as (ps & Hrun & Hread & Hrange & Hnodup & Hall).
      exists ps. split_and!; [| done | | done |].
      * rewrite <- Hrun. cbn [iter_drain iter_map].
        rewrite (iter_next_skip map i e) by done.
        by rewrite (iter_next_fuel map n (i + 1) _ (S (Z.to_nat (capacity map)))) by (done || lia).
      * eapply Forall_impl; [done |]. cbn. lia.
      * intros q e' Hq Hat' Hocc'. destruct (decide (q = i)) as [-> | Hne]; [congruence |].
        eapply Hall; [| done | done]. lia.
Qed.

End Iteration.

(** C8: on a table whose [count] is the number of its occupied slots, a
    fresh iterator driven by [iter_next] until it returns the null pointer
    yields exactly [count] entries; each of them is Occupied, none comes
    twice, no occupied slot is left out, whatever Empty and Tombstone slots
    lie in between; afterwards [iter_next] keeps returning the null
    pointer. *)
Theorem iter_visits_occupied {K V D : Type} (map : hashmap_t K V D) (rounds : nat) :
  shape map → count_ok map → (Z.to_nat (count map) < rounds)%nat →
  ∃ ps,
    iter_drain rounds (hashmap_iter_begin map) = Ret (Build_iter map (capacity map), ps)
    ∧ Z.of_nat (length ps) = count map
    ∧ (∀ p, p ∈ ps → ∃ e, entry_at map p = Some e ∧ entry_status e = OCCUPIED)
    ∧ NoDup ps
    ∧ (∀ p e, 0 ≤ p → entry_at map p = Some e → entry_status e = OCCUPIED → p ∈ ps)
    ∧ (∀ fuel : nat,
         hashmap_iter_next (S fuel) (Build_iter map (capacity map))
         = Ret (Build_iter map (capacity map), None)).
Proof.
  intros Hshape Hcount Hrounds. unfold count_ok in Hcount.
  destruct (iter_drain_spec map (length (entries map)) 0 rounds)
    as (ps & Hrun & Hread & Hrange & Hnodup & Hall);
    [done | lia | destruct Hshape; lia
    | change (Z.to_nat 0) with 0%nat; rewrite drop_0; lia |].
  change (Z.to_nat 0) with 0%nat in Hread. rewrite drop_0 in Hread.
  exists ps. split_and!; [done | | | done | | ].
  - rewrite Hcount. f_equal.
    rewrite <- (length_fmap (entry_at map) ps), Hread. by rewrite length_fmap.
  - intros p [i Hi]%list_elem_of_lookup_1.
    assert ((entry_at map <$> ps) !! i = Some (entry_at map p)) as Hp
      by (by rewrite list_lookup_fmap, Hi).
    rewrite Hread, list_lookup_fmap in Hp.
    destruct (live (entries map) !! i) as [e |] eqn:He; [| done].
    exists e. cbn in Hp. split; [congruence |].
    apply list_elem_of_lookup_2, list_elem_of_filter in He. tauto.
  - intros p e Hp. by apply Hall.
  - intros fuel. apply iter_next_end. lia.
Qed.

Lemma iter_visits_occupied_witness :
  ∃ ps,
    iter_drain 3 (hashmap_iter_begin StringInt.sample)
    = Ret (Build_iter StringInt.sample (capacity StringInt.sample), ps)
    ∧ Z.of_nat (length ps) = count StringInt.sample
    ∧ (∀ p, p ∈ ps → ∃ e, entry_at StringInt.sample p = Some e ∧ entry_status e = OCCUPIED)
    ∧ NoDup ps
    ∧ (∀ p e, 0 ≤ p → entry_at StringInt.sample p = Some e → entry_status e = OCCUPIED → p ∈ ps)
    ∧ (∀ fuel : nat,
         hashmap_iter_next (S fuel) (Build_iter StringInt.sample (capacity StringInt.sample))
         = Ret (Build_iter StringInt.sample (capacity StringInt.sample), None)).
Proof.
  apply (iter_visits_occupied StringInt.sample 3).
  - split; [reflexivity | vm_compute; reflexivity].
  - reflexivity.
  - vm_compute. lia.
Defined.

(** ** Lookup and removal *)

Section Lookup.
Context {K V D : Type}.
Variable zero_key : K.
Implicit Types (map : hashmap_t K V D) (e : hash_entry_t K V).

Lemma slot_matches_occupied map e hash key :
  slot_matches map e hash key = true → entry_status e = OCCUPIED.
Proof.
  unfold slot_matches. intros [[H _]%andb_true_iff _]%andb_true_iff.
  by apply bool_decide_eq_true in H.
Qed.

Lemma slot_matches_not_empty map e hash key :
  slot_matches map e hash key = true →
  bool_decide (entry_status e = __FLUENT_LIBC_HASHMAP_EMPTY) = false.
Proof.
  intros H%slot_matches_occupied. apply bool_decide_eq_false. congruence.
Qed.

Lemma run_shift map index (d : nat) :
  0 < capacity map → run map index (S d) → run map ((index + 1) mod capacity map) d.
Proof.
  intros Hpos Hrun j Hj. rewrite index_shift by done. apply Hrun. lia.
Qed.


Lemma get_loop_empty map key hash index e (fuel : nat) :
  entry_at map index = Some e → entry_status e = __FLUENT_LIBC_HASHMAP_EMPTY →
  hashmap_get_loop (S fuel) map key hash index = Ret None.
Proof.
  intros Hat Hst. cbn. by rewrite Hat, Hst.
Qed.

(** The scan finds a matching slot that lies [d] steps ahead behind
    slots that are not Empty: it returns the first matching slot. *)
Lemma get_loop_some (d : nat) : ∀ (fuel : nat) map key hash index,
  shape map → 0 ≤ index < capacity map → run map index d →
  (∃ e, entry_at map ((index + Z.of_nat d) mod capacity map) = Some e
        ∧ slot_matches map e hash key = true) →
  (d < fuel)%nat →
  ∃ q e, hashmap_get_loop fuel map key hash index = Ret (Some q)
    ∧ 0 ≤ q ∧ entry_at map q = Some e ∧ slot_matches map e hash key = true.
Proof.
  induction d as [| d IH]; intros fuel map key hash index Hshape Hidx Hrun (e & Hat & Hm) Hfuel;
    (destruct fuel as [| fuel]; [lia |]); cbn [hashmap_get_loop].
  - replace ((index + Z.of_nat 0) mod capacity map) with index in Hat
      by (rewrite Z.add_0_r, Z.mod_small; lia).
    rewrite Hat, (slot_matches_not_empty _ _ _ _ Hm), Hm.
    exists index, e. split_and!; [done | lia | done | done].
  - destruct (Hrun 0%nat ltac:(lia)) as (cur & Hcur & Hcur_ne).
    rewrite Z.add_0_r, Z.mod_small in Hcur by lia. rewrite Hcur.
    rewrite bool_decide_eq_false_2 by done.
    destruct (slot_matches map cur hash key) eqn:Hcm.
    + exists index, cur. split_and!; [done | lia | done | done].
    + destruct (next_index map index Hshape Hidx) as [-> Hrange].
      apply IH; [done | done | apply run_shift; [lia | done] | | lia].
      exists e. by rewrite index_shift by lia.
Qed.

(** The scan reports "not found" when no slot matches and an Empty slot
    lies ahead. *)
Lemma get_loop_none (d : nat) : ∀ (fuel : nat) map key hash index,
  shape map → 0 ≤ index < capacity map →
  (∀ p e, 0 ≤ p → entry_at map p = Some e → slot_matches map e hash key = false) →
  (∃ e, entry_at map ((index + Z.of_nat d) mod capacity map) = Some e
        ∧ entry_status e = __FLUENT_LIBC_HASHMAP_EMPTY) →
  (d < fuel)%nat →
  hashmap_get_loop fuel map key hash index = Ret None.
Proof.
  induction d as [| d IH]; intros fuel map key hash index Hshape Hidx Hno (e & Hat & He) Hfuel;
    (destruct fuel as [| fuel]; [lia |]).
  - replace ((index + Z.of_nat 0) mod capacity map) with index in Hat
      by (rewrite Z.add_0_r, Z.mod_small; lia).
    by eapply get_loop_empty.
  - cbn [hashmap_get_loop].
    destruct (entry_at_is_Some map index Hshape Hidx) as [cur Hcur]. rewrite Hcur.
    destruct (bool_decide _); [done |].
    rewrite (Hno index cur) by (done || lia).
    destruct (next_index map index Hshape Hidx) as [-> Hrange].
    apply IH; [done | done | done | | lia].
    exists e. by rewrite index_shift by lia.
Qed.

Lemma empty_slot_ahead map index :
  shape map → 0 ≤ index < capacity map → has_empty_slot map →
  ∃ d : nat, (d < Z.to_nat (capacity map))%nat
    ∧ ∃ e, entry_at map ((index + Z.of_nat d) mod capacity map) = Some e
           ∧ entry_status e = __FLUENT_LIBC_HASHMAP_EMPTY.
Proof.
  intros Hshape Hidx (p & e & Hp & Hat & Hfree).
  pose proof (entry_at_lt map p e Hshape Hp Hat) as Hlt.
  pose proof (Z.mod_pos_bound (p - index) (capacity map) ltac:(lia)) as Hd.
  exists (Z.to_nat ((p - index) mod capacity map)). split; [lia |].
  exists e. split; [| done]. rewrite Z2Nat.id by lia.
  rewrite Zplus_mod_idemp_r.
  replace (index + (p - index)) with p by lia. by rewrite Z.mod_small by lia.
Qed.

(** What a finished run of the loop of remove has done. *)
Lemma remove_loop_spec (fuel : nat) : ∀ map key hash index map' ok,
  shape map → 0 ≤ index < capacity map →
  hashmap_remove_loop zero_key fuel map key hash index = Ret (map', ok) →
  (ok = 0 ∧ map' = map)
  ∨ (ok = 1 ∧ ∃ q e, 0 ≤ q < capacity map ∧ entry_at map q = Some e
       ∧ slot_matches map e hash key = true
       ∧ map' = set_count
                  (store_entry map q
                     (Build_entry zero_key (entry_value e) TOMBSTONE (entry_hash e)))
                  (wrap64 (count map - 1))).
Proof.
  induction fuel as [| fuel IH]; intros map key hash index map' ok Hshape Hidx Hrun;
    [done |]. cbn [hashmap_remove_loop] in Hrun.
  destruct (entry_at map index) as [cur |] eqn:Hcur; [| done].
  destruct (bool_decide _); [left; by simplify_eq |].
  destruct (slot_matches map cur hash key) eqn:Hm.
  - right. simplify_eq. split; [done |]. by exists index, cur.
  - destruct (next_index map index Hshape Hidx) as [Hnext Hrange].
    rewrite Hnext in Hrun. by apply IH in Hrun.
Qed.

End Lookup.

(** The scan of get on a table without an Empty slot and without a
    matching slot runs forever. *)
Lemma get_loop_all_tombstones (fuel : nat) : ∀ index,
  0 ≤ index < 4 →
  hashmap_get_loop fuel StringInt.all_tombstones "x"%string (u32 (hash_str_key "x")) index
  = OutOfFuel.
Proof.
  induction fuel as [| fuel IH]; intros index Hidx; [done |].
  assert (index = 0 ∨ index = 1 ∨ index = 2 ∨ index = 3) as [-> | [-> | [-> | ->]]] by lia.
  - exact (IH 1 ltac:(lia)).
  - exact (IH 2 ltac:(lia)).
  - exact (IH 3 ltac:(lia)).
  - exact (IH 0 ltac:(lia)).
Qed.

(** The claim C6 as it is written fails on a table that holds the key
    twice, which insert allows: after the inserts of "k" with 1 and of "k"
    with 2 into a fresh table, remove("k") succeeds and get("k") still
    finds the second entry.  It also fails on a table that removals have
    left without an Empty slot: remove("x") succeeds and get("x") does not
    return. *)
Lemma remove_then_get_duplicate :
  (StringInt.new 4 StringInt.two = (StringInt.w_ok, Some StringInt.fresh4)
   ∧ StringInt.inserts 8 StringInt.w_ok StringInt.fresh4 [("k"%string, 1); ("k"%string, 2)]
     = Ret (StringInt.w_ok, StringInt.dup, 1)
   ∧ StringInt.remove 8 StringInt.dup "k"%string = Ret (StringInt.dup_removed, 1)
   ∧ hashmap_get 8 StringInt.dup_removed "k"%string = Ret (Some 3)
   ∧ value_at StringInt.dup_removed 3 = Some 2)
  ∧ (StringInt.churn = Ret (StringInt.w_ok, StringInt.churned, 1)
     ∧ StringInt.remove 8 StringInt.churned "x"%string = Ret (StringInt.all_tombstones, 1)
     ∧ ∀ fuel : nat, hashmap_get fuel StringInt.all_tombstones "x"%string = OutOfFuel)
  ∧ ¬ (∀ (map map' : StringInt.table) (key : string) (fuel : nat),
         StringInt.remove fuel map key = Ret (map', 1) →
         ∃ fuel' : nat, hashmap_get fuel' map' key = Ret None).
Proof.
  split_and!; [reflexivity.. | |].
  - intros fuel. apply (get_loop_all_tombstones fuel 3). lia.
  - intros Hclaim.
    destruct (Hclaim StringInt.dup StringInt.dup_removed "k"%string 8%nat eq_refl)
      as [fuel' Hget].
    destruct fuel' as [| [| fuel']]; discriminate Hget.
Qed.

(** C6, amended: on a table with an Empty slot in which at most one
    Occupied slot matches [key], a successful remove of [key] turns the
    matching slot, and no other, into a Tombstone and lowers [count] by one
    (modulo 2^64 in general, exactly when [count] counts the occupied
    slots); get of [key] then returns "not found". *)
Theorem remove_then_get {K V D : Type} (zero_key : K) (map map' : hashmap_t K V D)
    (key : K) (fuel : nat) :
  shape map → has_empty_slot map →
  (∀ p1 e1 p2 e2, 0 ≤ p1 → 0 ≤ p2 →
     entry_at map p1 = Some e1 → entry_at map p2 = Some e2 →
     slot_matches map e1 (u32 (hash_fn map key)) key = true →
     slot_matches map e2 (u32 (hash_fn map key)) key = true → p1 = p2) →
  hashmap_remove zero_key fuel map key = Ret (map', 1) →
  (∀ fuel' : nat, (Z.to_nat (capacity map) ≤ fuel')%nat →
     hashmap_get fuel' map' key = Ret None)
  ∧ count map' = wrap64 (count map - 1)
  ∧ (count_ok map → count map' = count map - 1 ∧ count_ok map')
  ∧ ∃ q e, 0 ≤ q < capacity map ∧ entry_at map q = Some e
      ∧ entry_status e = OCCUPIED
      ∧ entry_at map' q
        = Some (Build_entry zero_key (entry_value e) TOMBSTONE (entry_hash e))
      ∧ ∀ p, 0 ≤ p → p ≠ q → entry_at map' p = entry_at map p.
Proof.
  intros Hshape Hempty Huniq Hrun. unfold hashmap_remove in Hrun.
  destruct (capacity map =? 0) eqn:Hzero; [done |].
  assert (0 < capacity map) as Hpos by (destruct Hshape; lia).
  apply remove_loop_spec in Hrun as [[? _] | (_ & q & e & Hq & Hat & Hm & ->)];
    [done | | done | by apply Z.mod_pos_bound].
  set (t := Build_entry zero_key (entry_value e) TOMBSTONE (entry_hash e)).
  set (map1 := store_entry map q t).
  assert (shape map1) as Hshape1 by by apply shape_store.
  assert (entry_at map1 q = Some t) as Hq1 by by apply entry_at_store_eq.
  assert (∀ p, 0 ≤ p → p ≠ q → entry_at map1 p = entry_at map p) as Hother
    by (intros p Hp Hne; apply entry_at_store_ne; lia).
  pose proof (slot_matches_occupied _ _ _ _ Hm) as Hocc.
  split_and!.
  - intros fuel' Hfuel. unfold hashmap_get.
    change (capacity (set_count map1 (wrap64 (count map - 1)))) with (capacity map).
    change (hash_fn (set_count map1 (wrap64 (count map - 1)))) with (hash_fn map).
    rewrite Hzero.
    assert (0 ≤ u32 (hash_fn map key) mod capacity map < capacity map) as Hidx
      by by apply Z.mod_pos_bound.
    destruct (empty_slot_ahead map1 (u32 (hash_fn map key) mod capacity map))
      as (d & Hd & e0 & Hat0 & He0); [done | done | |].
    { destruct Hempty as (p & e0 & Hp & Hat0 & He0). exists p, e0.
      split_and!; [done | | done]. rewrite Hother; [done | done |].
      intros ->. congruence. }
    apply (get_loop_none d); [done | done | | | cbn in Hd; lia].
    + intros p e' Hp Hat'. change (entry_at map1 p = Some e') in Hat'.
      destruct (decide (p = q)) as [-> | Hne].
      * rewrite Hq1 in Hat'. by simplify_eq.
      * rewrite Hother in Hat' by done.
        destruct (slot_matches map e' (u32 (hash_fn map key)) key) eqn:Hm'; [| done].
        exfalso. apply Hne. eapply Huniq; [| | done | done | done | done]; lia.
    + by exists e0.
  - done.
  - intros Hcount. unfold count_ok in *. cbn [count entries set_count store_entry set_entries].
    assert (length (live (entries map))
            = S (length (live (<[Z.to_nat q := t]> (entries map))))) as Hlen.
    { unfold entry_at in Hat.
      rewrite insert_take_drop by (by eapply lookup_lt_Some).
      rewrite <- (take_drop_middle _ _ _ Hat) at 1. unfold live.
      rewrite !filter_app, filter_cons_True, filter_cons_False by done.
      rewrite !length_app. cbn. lia. }
    pose proof (live_length_le (entries map)) as Hle.
    destruct Hshape as [Hcap Hlt].
    rewrite wrap64_small by lia. split; [lia |].
    subst map1. cbn [entries store_entry set_entries]. lia.
  - exists q, e. split_and!; [lia | lia | done | done | done | done].
Qed.

Lemma remove_then_get_witness :
  (∀ fuel' : nat, (Z.to_nat (capacity StringInt.x_in) ≤ fuel')%nat →
     hashmap_get fuel' StringInt.x_out "x"%string = Ret None)
  ∧ count StringInt.x_out = wrap64 (count StringInt.x_in - 1)
  ∧ (count_ok StringInt.x_in →
       count StringInt.x_out = count StringInt.x_in - 1 ∧ count_ok StringInt.x_out)
  ∧ ∃ q e, 0 ≤ q < capacity StringInt.x_in ∧ entry_at StringInt.x_in q = Some e
      ∧ entry_status e = OCCUPIED
      ∧ entry_at StringInt.x_out q
        = Some (Build_entry ""%string (entry_value e) TOMBSTONE (entry_hash e))
      ∧ ∀ p, 0 ≤ p → p ≠ q → entry_at StringInt.x_out p = entry_at StringInt.x_in p.
Proof.
  apply (remove_then_get ""%string StringInt.x_in StringInt.x_out "x"%string 4).
  - split; [reflexivity | vm_compute; reflexivity].
  - exists 0, StringInt.empty. split; [lia |]. split; reflexivity.
  - intros p1 e1 p2 e2 Hp1 Hp2 H1 H2 Hm1 Hm2.
    assert (∀ p e, 0 ≤ p → entry_at StringInt.x_in p = Some e →
              slot_matches StringInt.x_in e (u32 (hash_str_key "x")) "x"%string = true →
              p = 3) as Hthree.
    { intros p e Hp Hat Hm. unfold entry_at in Hat.
      destruct (Z.to_nat p) as [| [| [| [| n]]]] eqn:Hn; cbn in Hat; simplify_eq;
        [discriminate Hm.. | lia]. }
    rewrite (Hthree p1 e1), (Hthree p2 e2); done.
  - reflexivity.
Defined.


(** ** Insert and resize *)

Lemma to_size_range (x : spec_float) (n : Z) :
  Double.to_size x = Some n → 0 ≤ n < 2 ^ 64.
Proof.
  destruct x as [s | s | | s m e]; cbn; try done.
  - intros [= <-]. lia.
  - destruct (0 <=? e) eqn:He.
    + destruct s.
      * destruct (_ =? 0); [intros [= <-]; lia | done].
      * destruct (_ <? 2 ^ 64) eqn:Hlt; [| done]. intros [= <-]. split; [| lia].
        apply Z.mul_nonneg_nonneg; [lia |]. apply Z.pow_nonneg. lia.
    + destruct s.
      * destruct (_ =? 0); [intros [= <-]; lia | done].
      * destruct (_ <? 2 ^ 64) eqn:Hlt; [| done]. intros [= <-]. split; [| lia].
        apply Z.div_pos; [lia |]. apply Z.pow_pos_nonneg; lia.
Qed.

Section InsertResize.
Context {K V D : Type}.
Variable zero_key : K.
Variable zero_value : V.
Variable default_hash_fn : K → Z.
Implicit Types (map : hashmap_t K V D) (e : hash_entry_t K V) (w : world K V D).

Local Abbreviation new := (hashmap_new zero_key zero_value default_hash_fn).
Local Abbreviation insert := (hashmap_insert zero_key zero_value default_hash_fn).
Local Abbreviation resize_with := (hashmap_resize_with zero_key zero_value default_hash_fn).
Local Abbreviation pair_of := (λ e : hash_entry_t K V, (entry_key e, entry_value e)).

Lemma same_config_trans map1 map2 map3 :
  same_config map1 map2 → same_config map2 map3 → same_config map1 map3.
Proof.
  intros (? & ? & ? & ?) (? & ? & ? & ?). split_and!; congruence.
Qed.

Lemma hashmap_new_Some w capacity grow_factor destructor hash_fn cmp_fn w' map :
  new w capacity grow_factor destructor hash_fn cmp_fn = (w', Some map) →
  map = Build_hashmap (replicate (Z.to_nat capacity) (zero_entry zero_key zero_value))
          capacity 0 grow_factor destructor
          (match hash_fn with Some f => f | None => default_hash_fn end) cmp_fn.
Proof.
  unfold hashmap_new, hashmap_init.
  destruct (alloc w) as [w1 []]; cbn; [| done].
  destruct (alloc w1) as [w2 []]; cbn; [| done]. by intros [= _ <-].
Qed.

Lemma live_replicate (n : nat) :
  live (replicate n (zero_entry zero_key zero_value)) = [].
Proof.
  induction n as [| n IH]; [done |]. cbn [replicate]. unfold live in *.
  by rewrite filter_cons_False.
Qed.

(** A table fresh from [calloc]. *)
Lemma fresh_ok capacity grow_factor (destructor : option D) hash_fn cmp_fn :
  0 ≤ capacity < 2 ^ 64 →
  let map := Build_hashmap (replicate (Z.to_nat capacity) (zero_entry zero_key zero_value))
               capacity 0 grow_factor destructor hash_fn cmp_fn in
  shape map ∧ count_ok map ∧ chain_ok map ∧ hashes_ok map ∧ no_tombstone map
  ∧ pairs map = [].
Proof.
  intros Hcap map. subst map. split_and!.
  - split; cbn; [rewrite length_replicate; lia | lia].
  - unfold count_ok. cbn [entries count]. by rewrite live_replicate.
  - intros p e _ Hat Hocc. apply entry_at_elem in Hat. cbn in Hat.
    apply elem_of_replicate_inv in Hat. by subst.
  - intros e Hin Hocc. cbn in Hin. apply elem_of_replicate_inv in Hin. by subst.
  - intros e Hin. cbn in Hin. apply elem_of_replicate_inv in Hin. by subst.
  - unfold pairs. cbn [entries]. by rewrite live_replicate.
Qed.

Lemma pairs_length map : length (pairs map) = length (live (entries map)).
Proof. unfold pairs. by rewrite length_fmap. Qed.

(** What a finished placement has done. *)
Lemma insert_place_spec (fuel : nat) map key value map' ok :
  shape map →
  hashmap_insert_place fuel map key value = Ret (map', ok) →
  ok = 1 ∧ same_config map map' ∧ capacity map' = capacity map ∧ shape map'
  ∧ 0 < capacity map'
  ∧ pairs map' ≡ₚ (key, value) :: pairs map
  ∧ (count_ok map → count_ok map')
  ∧ (chain_ok map → chain_ok map')
  ∧ (hashes_ok map → hashes_ok map')
  ∧ (no_tombstone map → no_tombstone map').
Proof.
  intros Hshape Hrun. unfold hashmap_insert_place in Hrun.
  destruct (capacity map =? 0) eqn:Hzero; [done |].
  assert (0 < capacity map) as Hpos by (destruct Hshape; lia).
  assert (0 ≤ u32 (hash_fn map key) mod capacity map < capacity map) as Hidx
    by by apply Z.mod_pos_bound.
  apply insert_loop_spec in Hrun; [| done..].
  destruct Hrun as (-> & Hcfg & Hcap & Hshape' & Hcount & Hlive & Hno & Hok & Hchain).
  split_and!; try done.
  - lia.
  - unfold pairs. by rewrite Hlive.
  - unfold count_ok. intros Hc. rewrite Hcount, Hc.
    apply Permutation_length in Hlive. cbn in Hlive.
    pose proof (live_length_le (entries map')) as Hle.
    destruct Hshape' as [Hcap' Hlt]. rewrite wrap64_small; lia.
  - intros Hc. apply Hchain; [done |]. cbn. by apply reachable_self.
  - intros Hh. by apply Hok.
Qed.

Lemma inserted_count map key value map' :
  inserted map key value map' → count_ok map → count map' = count map + 1.
Proof.
  intros (_ & _ & _ & Hperm & Hcount & _) Hc. specialize (Hcount Hc).
  unfold count_ok in *. apply Permutation_length in Hperm.
  cbn in Hperm. rewrite !pairs_length in Hperm. lia.
Qed.

(** The reinsertion loop of resize over the [n] slots from [i] on. *)
Lemma resize_loop_spec (ins : insert_fn K V D) (n : nat) :
  insert_ok ins →
  ∀ i w map new_map w' new_map',
    shape new_map → 0 ≤ i →
    hashmap_resize_loop ins w map new_map (seqZ i (Z.of_nat n)) = Ret (w', new_map', true) →
    same_config new_map new_map' ∧ shape new_map'
    ∧ pairs new_map'
      ≡ₚ (pair_of <$> live (take n (drop (Z.to_nat i) (entries map)))) ++ pairs new_map
    ∧ (count_ok new_map → count_ok new_map')
    ∧ (chain_ok new_map → chain_ok new_map')
    ∧ (hashes_ok new_map → hashes_ok new_map')
    ∧ (no_tombstone new_map → no_tombstone new_map')
    ∧ (count_ok new_map →
       (∀ j : nat, (j < length (live (take n (drop (Z.to_nat i) (entries map)))))%nat →
          Double.load_exceeded (capacity new_map) (count new_map + Z.of_nat j) = false) →
       capacity new_map' = capacity new_map).
Proof.
  intros Hins. induction n as [| n IH]; intros i w map new_map w' new_map' Hshape Hi Hrun.
  - change (seqZ i (Z.of_nat 0)) with (@nil Z) in Hrun. cbn in Hrun.
    simplify_eq. rewrite take_0. split_and!; done.
  - assert (seqZ i (Z.of_nat (S n)) = i :: seqZ (i + 1) (Z.of_nat n)) as Hseq.
    { rewrite seqZ_cons by lia. do 2 f_equal; lia. }
    rewrite Hseq in Hrun. cbn [hashmap_resize_loop] in Hrun.
    destruct (entry_at map i) as [e |] eqn:Hat; [| done].
    pose proof Hat as Hdrop. unfold entry_at in Hdrop. apply drop_S in Hdrop.
    replace (S (Z.to_nat i)) with (Z.to_nat (i + 1)) in Hdrop by lia.
    rewrite Hdrop. cbn [take].
    destruct (bool_decide (entry_status e = OCCUPIED)) eqn:Hocc.
    + apply bool_decide_eq_true in Hocc.
      assert (∀ es, live (e :: es) = e :: live es) as ->
        by (intros es; unfold live; by rewrite filter_cons_True).
      destruct (ins w new_map (entry_key e) (entry_value e)) as [[[w1 nm1] ok1] | |] eqn:Hcall;
        cbn in Hrun; [| done | done].
      destruct (Hins _ _ _ _ _ _ _ Hshape Hcall) as [[-> ->] | [-> Hdone]]; [done |].
      cbn in Hrun.
      pose proof Hdone as (Hcfg & Hshape1 & _ & Hperm & Hcount & Hchain & Hhash & Hno & Hcap).
      apply IH in Hrun; [| done | lia].
      destruct Hrun as (Hcfg' & Hshape' & Hperm' & Hcount' & Hchain' & Hhash' & Hno' & Hcap').
      split_and!; [by eapply same_config_trans | done | | auto.. |].
      * rewrite Hperm', Hperm. cbn. by rewrite Permutation_middle.
      * intros Hc Hload. rewrite Hcap'; [apply Hcap | by apply Hcount |].
        -- unfold load_exceeded. rewrite <- (Z.add_0_r (count new_map)).
           apply (Hload 0%nat). cbn [length]. lia.
        -- intros j Hj. rewrite Hcap, (inserted_count _ _ _ _ Hdone Hc).
           ++ replace (count new_map + 1 + Z.of_nat j) with (count new_map + Z.of_nat (S j)) by lia.
              apply Hload. cbn [length]. lia.
           ++ unfold load_exceeded. rewrite <- (Z.add_0_r (count new_map)).
              apply (Hload 0%nat). cbn [length]. lia.
    + apply bool_decide_eq_false in Hocc.
      assert (∀ es, live (e :: es) = live es) as ->
        by (intros es; unfold live; by rewrite filter_cons_False).
      apply IH in Hrun; [done | done | lia].
Qed.

(** What a finished resize has done: on failure nothing; on success the
    table holds the same pairs in a fresh array, and the array has the
    requested capacity when no reinsertion met the load check. *)
Lemma resize_with_spec (ins : insert_fn K V D) w map new_capacity w' map' ok :
  insert_ok ins → shape map → 0 ≤ new_capacity < 2 ^ 64 →
  resize_with ins w map new_capacity = Ret (w', map', ok) →
  (ok = 0 ∧ map' = map)
  ∨ (ok = 1 ∧ resized map map'
     ∧ ((∀ j : nat, (j < length (live (entries map)))%nat →
           Double.load_exceeded new_capacity (Z.of_nat j) = false) →
        capacity map' = new_capacity)).
Proof.
  intros Hins Hshape Hcap Hrun. unfold hashmap_resize_with in Hrun.
  destruct (new w new_capacity _ _ _ _) as [w1 [nm |]] eqn:Hnew;
    [| left; by simplify_eq].
  apply hashmap_new_Some in Hnew. subst nm.
  destruct (fresh_ok new_capacity (grow_factor map) (destructor map) (hash_fn map)
              (cmp_fn map) Hcap) as (Hs & Hc & Hch & Hh & Hno & Hp).
  destruct Hshape as [Hlen Hlt]. rewrite Hlen in Hrun.
  destruct (hashmap_resize_loop _ _ _ _ _) as [[[w2 nm2] ok2] | |] eqn:Hloop;
    cbn in Hrun; [| done | done].
  destruct ok2; [| left; by simplify_eq].
  right. simplify_eq. split; [done |].
  apply resize_loop_spec in Hloop; [| done | done | lia].
  change (Z.to_nat 0) with 0%nat in Hloop. rewrite drop_0, take_ge in Hloop by lia.
  destruct Hloop as (Hcfg & Hshape' & Hperm & Hcount & Hchain & Hhash & Hnot & Hsame).
  rewrite Hp, app_nil_r in Hperm. split.
  - split_and!; [done | done | by apply Hcount | by apply Hchain | | by apply Hnot | done].
    intros e Hin Hocc. cbn in Hin |- *. rewrite (Hhash Hh e Hin Hocc).
    by destruct Hcfg as (_ & _ & -> & _).
  - intros Hload. cbn [capacity]. rewrite Hsame; [done | done |].
    intros j Hj. cbn [capacity count]. by apply Hload.
Qed.

(** Insert, for every amount of fuel, keeps its contract. *)
Lemma insert_spec (fuel : nat) : insert_ok (insert fuel : insert_fn K V D).
Proof.
  induction fuel as [| fuel IH]; intros w map key value w' map' ok Hshape Hrun; [done |].
  cbn [hashmap_insert] in Hrun.
  destruct (load_exceeded map) eqn:Hload.
  - destruct (grown_capacity map) as [n |] eqn:Hgrow; [| done].
    apply to_size_range in Hgrow.
    destruct (resize_with (insert fuel) w map n) as [[[w1 map1] ok1] | |] eqn:Hres;
      cbn in Hrun; [| done | done].
    apply resize_with_spec in Hres as [[-> ->] | (-> & Hres & _)]; [| | done..].
    { left. cbn in Hrun. by simplify_eq. }
    cbn in Hrun.
    destruct Hres as (Hcfg & Hshape1 & Hcount1 & Hchain1 & Hhash1 & Hno1 & Hperm1).
    destruct (hashmap_insert_place fuel map1 key value) as [[map2 ok2] | |] eqn:Hplace;
      cbn in Hrun; [| done | done].
    apply insert_place_spec in Hplace; [| done].
    destruct Hplace as (-> & Hcfg2 & Hcap2 & Hshape2 & Hpos2 & Hperm2 & Hc2 & Hch2 & Hh2 & Hn2).
    right. simplify_eq. split; [done |].
    split_and!; [by eapply same_config_trans | done | done | | auto.. | congruence].
    by rewrite Hperm2, Hperm1.
  - cbn in Hrun.
    destruct (hashmap_insert_place fuel map key value) as [[map2 ok2] | |] eqn:Hplace;
      cbn in Hrun; [| done | done].
    apply insert_place_spec in Hplace; [| done].
    destruct Hplace as (-> & Hcfg2 & Hcap2 & Hshape2 & Hpos2 & Hperm2 & Hc2 & Hch2 & Hh2 & Hn2).
    right. simplify_eq. split; [done |]. split_and!; auto.
Qed.

(** A resize that returns 0 hands back the table it was given, whatever
    the insert function. *)
Lemma resize_with_failure (ins : insert_fn K V D) w map new_capacity w' map' :
  resize_with ins w map new_capacity = Ret (w', map', 0) → map' = map.
Proof.
  unfold hashmap_resize_with.
  destruct (new w new_capacity _ _ _ _) as [w1 [nm |]]; [| by intros [= _ <-]].
  destruct (hashmap_resize_loop _ _ _ _ _) as [[[w2 nm2] []] | |]; cbn; [done | | done..].
  by intros [= _ <-].
Qed.

(** Below 2^49 slots the load check stays false up to nine tenths of the
    capacity. *)
Lemma load_check_below (n count : Z) :
  0 ≤ n < 2 ^ 49 → 10 * count ≤ 9 * n →
  ∀ j, 0 ≤ j < count → Double.load_exceeded n j = false.
Proof.
  intros Hn Hcount j Hj. change (2 ^ 49) with 562949953421312 in Hn.
  rewrite load_exceeded_exact by (change (2 ^ 49) with 562949953421312; lia).
  apply Z.ltb_ge. lia.
Qed.

(** The capacity after an insert that resized without a nested resize. *)
Lemma insert_resized_capacity (fuel : nat) w map key value w' map' n :
  shape map → count_ok map →
  insert (S fuel) w map key value = Ret (w', map', 1) →
  load_exceeded map = true → grown_capacity map = Some n →
  (∀ j, 0 ≤ j < count map → Double.load_exceeded n j = false) →
  capacity map' = n.
Proof.
  intros Hshape Hcount Hrun Hload Hgrow Hbelow.
  cbn [hashmap_insert] in Hrun. rewrite Hload, Hgrow in Hrun.
  pose proof (to_size_range _ _ Hgrow) as Hn.
  destruct (resize_with (insert fuel) w map n) as [[[w1 map1] ok1] | |] eqn:Hres;
    cbn in Hrun; [| done | done].
  apply resize_with_spec in Hres as [[-> ->] | (-> & Hres & Hsame)];
    [by cbn in Hrun | | apply insert_spec | done | done].
  cbn in Hrun.
  destruct (hashmap_insert_place fuel map1 key value) as [[map2 ok2] | |] eqn:Hplace;
    cbn in Hrun; [| done | done].
  apply insert_place_spec in Hplace; [| apply Hres].
  destruct Hplace as (_ & _ & Hcap & _). simplify_eq. rewrite Hcap. apply Hsame.
  intros j Hj. apply Hbelow. unfold count_ok in Hcount. lia.
Qed.

End InsertResize.

(** C4: when resize fails it returns 0 and hands back the table it was
    given: entries, capacity and count are those of before the call.  It
    fails when the allocation of the new table fails and when one of the
    reinsertions fails (then the new table is freed, which calls the
    destructor on it); it returns nothing but 0 and 1. *)
Theorem resize_failure_unmodified {K V D : Type} (zero_key : K) (zero_value : V)
    (default_hash_fn : K → Z) (fuel : nat) (w : world K V D) (map : hashmap_t K V D)
    (new_capacity : Z) :
  let resize := hashmap_resize zero_key zero_value default_hash_fn fuel in
  let new_map :=
    hashmap_new zero_key zero_value default_hash_fn w new_capacity (grow_factor map)
      (destructor map) (Some (hash_fn map)) (cmp_fn map) in
  (∀ w' map', resize w map new_capacity = Ret (w', map', 0) →
     map' = map ∧ entries map' = entries map ∧ capacity map' = capacity map
     ∧ count map' = count map)
  ∧ (∀ w1, new_map = (w1, None) → resize w map new_capacity = Ret (w1, map, 0))
  ∧ (∀ w1 nm w2 nm2,
       new_map = (w1, Some nm) →
       hashmap_resize_loop (hashmap_insert zero_key zero_value default_hash_fn fuel)
         w1 map nm (seqZ 0 (capacity map)) = Ret (w2, nm2, false) →
       resize w map new_capacity = Ret (hashmap_free w2 nm2, map, 0))
  ∧ (∀ w' map' ok, resize w map new_capacity = Ret (w', map', ok) → ok = 0 ∨ ok = 1).
Proof.
  intros resize new_map. subst resize new_map.
  unfold hashmap_resize, hashmap_resize_with.
  destruct (hashmap_new _ _ _ _ _ _ _ _ _) as [w1 [nm |]].
  - destruct (hashmap_resize_loop _ _ _ _ _) as [[[w2 nm2] []] | |] eqn:Hloop; cbn;
      split_and!; intros; simplify_eq; auto; congruence.
  - cbn. split_and!; intros; simplify_eq; auto.
Qed.

Lemma resize_failure_unmodified_witness :
  StringInt.resize 8 StringInt.w_fail StringInt.sample 8
  = Ret (Build_world [] [], StringInt.sample, 0).
Proof.
  apply (proj1 (proj2 (resize_failure_unmodified ""%string 0 hash_str_key 8
                         StringInt.w_fail StringInt.sample 8))).
  reflexivity.
Defined.

(** The claim C5 as it is written fails on the capacity: resize reinserts
    with insert, whose own capacity check resizes the new table again when
    the requested capacity is small.  The table that holds "x" alone,
    resized to the capacity 1, comes back with the capacity 2. *)
Lemma resize_capacity_not_requested :
  StringInt.insert 8 StringInt.w_ok StringInt.fresh4 "x"%string 1
  = Ret (StringInt.w_ok, StringInt.x_in, 1)
  ∧ StringInt.resize 8 StringInt.w_ok StringInt.x_in 1
    = Ret (StringInt.w_ok, StringInt.x_resized, 1)
  ∧ capacity StringInt.x_resized = 2
  ∧ ¬ (∀ (map map' : StringInt.table) (new_capacity : Z) (fuel : nat) w w',
         StringInt.resize fuel w map new_capacity = Ret (w', map', 1) →
         capacity map' = new_capacity).
Proof.
  split_and!; [reflexivity.. |].
  intros Hclaim.
  specialize (Hclaim StringInt.x_in StringInt.x_resized 1 8%nat
                StringInt.w_ok StringInt.w_ok eq_refl).
  discriminate Hclaim.
Qed.

(** C5, amended: when resize succeeds on a table whose [count] is the
    number of its occupied slots, the occupied (key, value) pairs after it
    are, as a multiset, those of before, [count] is unchanged and no slot of
    the new array is a Tombstone.  The capacity is the requested one when
    the check [count + 1 > capacity * 0.9] of insert stays false for the
    requested capacity at every count below that of the table, which is the
    case when the table fills at most nine tenths of a requested capacity
    below 2^49; otherwise the reinsertions have resized the new table
    further. *)
Theorem resize_preserves {K V D : Type} (zero_key : K) (zero_value : V)
    (default_hash_fn : K → Z) (fuel : nat) (w w' : world K V D) (map map' : hashmap_t K V D)
    (new_capacity : Z) :
  shape map → count_ok map → 0 ≤ new_capacity < 2 ^ 64 →
  hashmap_resize zero_key zero_value default_hash_fn fuel w map new_capacity
  = Ret (w', map', 1) →
  pairs map' ≡ₚ pairs map
  ∧ count map' = count map
  ∧ no_tombstone map'
  ∧ ((∀ j, 0 ≤ j < count map → Double.load_exceeded new_capacity j = false) →
     capacity map' = new_capacity)
  ∧ (new_capacity < 2 ^ 49 → 10 * count map ≤ 9 * new_capacity →
     capacity map' = new_capacity).
Proof.
  intros Hshape Hcount Hcap Hrun. unfold hashmap_resize in Hrun.
  apply resize_with_spec in Hrun as [[? _] | (_ & Hres & Hsame)];
    [done | | apply insert_spec | done | done].
  destruct Hres as (_ & _ & Hcount' & _ & _ & Hno & Hperm).
  assert ((∀ j, 0 ≤ j < count map → Double.load_exceeded new_capacity j = false) →
          capacity map' = new_capacity) as Hexact.
  { intros Hload. apply Hsame. intros j Hj. apply Hload.
    unfold count_ok in Hcount. lia. }
  split_and!; [done | | done | done |].
  - unfold count_ok in *. rewrite Hcount, Hcount'.
    apply Permutation_length in Hperm. rewrite !pairs_length in Hperm. lia.
  - intros Hlt Hfits. apply Hexact, load_check_below; [lia | done].
Qed.

Lemma resize_preserves_witness :
  pairs StringInt.sample_resized ≡ₚ pairs StringInt.sample
  ∧ count StringInt.sample_resized = count StringInt.sample
  ∧ no_tombstone StringInt.sample_resized
  ∧ ((∀ j, 0 ≤ j < count StringInt.sample → Double.load_exceeded 8 j = false) →
     capacity StringInt.sample_resized = 8)
  ∧ (8 < 2 ^ 49 → 10 * count StringInt.sample ≤ 9 * 8 →
     capacity StringInt.sample_resized = 8).
Proof.
  apply (resize_preserves ""%string 0 hash_str_key 8 StringInt.w_ok StringInt.w_ok
           StringInt.sample StringInt.sample_resized 8).
  - split; [reflexivity | vm_compute; reflexivity].
  - reflexivity.
  - lia.
  - reflexivity.
Defined.

(** ** Sequences of inserts *)

Section Sequences.
Context {K V D : Type}.
Variable zero_key : K.
Variable zero_value : V.
Variable default_hash_fn : K → Z.
Implicit Types (map : hashmap_t K V D) (e : hash_entry_t K V) (w : world K V D).

Lemma reachable_bounded map i p :
  0 < capacity map → reachable map i p →
  ∃ d : nat, (d < Z.to_nat (capacity map))%nat
    ∧ p = (i + Z.of_nat d) mod capacity map ∧ run map i d.
Proof.
  intros Hpos (d & -> & Hrun).
  pose proof (Z.mod_pos_bound (Z.of_nat d) (capacity map) Hpos) as Hd.
  exists (Z.to_nat (Z.of_nat d mod capacity map)). split_and!.
  - lia.
  - rewrite Z2Nat.id by lia. by rewrite Zplus_mod_idemp_r.
  - intros j Hj. apply Hrun.
    pose proof (Z.mod_le (Z.of_nat d) (capacity map) ltac:(lia) Hpos). lia.
Qed.

Lemma pairs_elem map key value :
  (key, value) ∈ pairs map →
  ∃ p e, 0 ≤ p ∧ entry_at map p = Some e ∧ entry_status e = OCCUPIED
         ∧ entry_key e = key ∧ entry_value e = value.
Proof.
  unfold pairs. intros (e & [= -> ->] & [Hocc Hin]%list_elem_of_filter)%list_elem_of_fmap.
  apply elem_entry_at in Hin as (p & Hp & Hat). by exists p, e.
Qed.

Lemma elem_pairs map p e :
  entry_at map p = Some e → entry_status e = OCCUPIED →
  (entry_key e, entry_value e) ∈ pairs map.
Proof.
  intros Hat Hocc. unfold pairs. apply list_elem_of_fmap. exists e. split; [done |].
  apply list_elem_of_filter. split; [done | by eapply entry_at_elem].
Qed.

Lemma get_loop_fuel_mono (fuel : nat) : ∀ (fuel' : nat) map key hash index r,
  hashmap_get_loop fuel map key hash index = Ret r → (fuel ≤ fuel')%nat →
  hashmap_get_loop fuel' map key hash index = Ret r.
Proof.
  induction fuel as [| fuel IH]; intros fuel' map key hash index r Hrun Hle; [done |].
  destruct fuel' as [| fuel']; [lia |]. cbn [hashmap_get_loop] in Hrun |- *.
  destruct (entry_at map index); [| done].
  destruct (bool_decide _); [done |]. destruct (slot_matches _ _ _ _); [done |].
  apply IH; [done | lia].
Qed.

(** Get on a table that keeps the invariant: a key among the pairs is
    found, with its value when no other pair has an equal key. *)
Lemma get_finds map key value :
  shape map → chain_ok map → hashes_ok map →
  (key, value) ∈ pairs map →
  cmp_fn map key key ≠ 0 →
  (∀ key' value', (key', value') ∈ pairs map → cmp_fn map key' key ≠ 0 → value' = value) →
  ∃ p, value_at map p = Some value
    ∧ ∀ fuel : nat, (Z.to_nat (capacity map) ≤ fuel)%nat →
        hashmap_get fuel map key = Ret (Some p).
Proof.
  intros Hshape Hchain Hhash Hin Hrefl Huniq.
  apply pairs_elem in Hin as (p & e & Hp & Hat & Hocc & <- & <-).
  pose proof (entry_at_lt map p e Hshape Hp Hat) as Hlt.
  assert (0 < capacity map) as Hpos by lia.
  pose proof (Hhash e (entry_at_elem _ _ _ Hat) Hocc) as Hh.
  destruct (reachable_bounded map _ p Hpos (Hchain p e Hp Hat Hocc)) as (d & Hd & Hpd & Hrun).
  rewrite Hh in Hpd, Hrun.
  set (hash := u32 (hash_fn map (entry_key e))) in *.
  assert (slot_matches map e hash (entry_key e) = true) as Hm.
  { unfold slot_matches. rewrite bool_decide_eq_true_2 by done.
    rewrite <- Hh, Z.eqb_refl. cbn. apply negb_true_iff. lia. }
  assert (0 ≤ hash mod capacity map < capacity map) as Hidx
    by by apply Z.mod_pos_bound.
  destruct (get_loop_some d (S d) map (entry_key e) hash (hash mod capacity map)
              Hshape Hidx Hrun) as (q & e' & Hget & Hq & Hat' & Hm');
    [exists e; by rewrite <- Hpd | lia |].
  exists q. split.
  - unfold value_at. rewrite Hat'. cbn. f_equal.
    apply (Huniq (entry_key e')).
    + apply (elem_pairs map q); [done | by eapply slot_matches_occupied].
    + unfold slot_matches in Hm'. apply andb_true_iff in Hm' as [_ Hc].
      apply negb_true_iff in Hc. lia.
  - intros fuel Hfuel. unfold hashmap_get. fold hash.
    destruct (capacity map =? 0) eqn:Hzero; [lia |].
    eapply get_loop_fuel_mono; [done | lia].
Qed.

(** A run of inserts that all succeed. *)
Lemma insert_all_spec (kvs : list (K * V)) : ∀ (fuel : nat) w map w' map',
  shape map →
  insert_all zero_key zero_value default_hash_fn fuel w map kvs = Ret (w', map', 1) →
  same_config map map' ∧ shape map'
  ∧ pairs map' ≡ₚ kvs ++ pairs map
  ∧ (count_ok map → count_ok map')
  ∧ (chain_ok map → chain_ok map')
  ∧ (hashes_ok map → hashes_ok map').
Proof.
  induction kvs as [| [key value] kvs IH]; intros fuel w map w' map' Hshape Hrun.
  - cbn in Hrun. by simplify_eq.
  - cbn [insert_all] in Hrun.
    destruct (hashmap_insert _ _ _ fuel w map key value) as [[[w1 map1] ok1] | |] eqn:Hins;
      cbn in Hrun; [| done | done].
    apply insert_spec in Hins as [[-> ->] | (-> & Hdone)]; [done | | done].
    cbn in Hrun.
    destruct Hdone as (Hcfg & Hshape1 & _ & Hperm & Hcount & Hchain & Hhash & _).
    apply IH in Hrun; [| done].
    destruct Hrun as (Hcfg' & Hshape' & Hperm' & Hcount' & Hchain' & Hhash').
    split_and!; [by eapply same_config_trans | done | | auto..].
    rewrite Hperm', Hperm. cbn. by rewrite Permutation_middle.
Qed.

End Sequences.

(** C1: a run of inserts into a fresh table whose keys are pairwise
    unequal under the comparison callback (and each equal to itself), all
    of them successful, leaves [count] at the number of keys inserted, and
    get on each inserted key returns the slot that holds the value inserted
    with it. *)
Theorem insert_all_get {K V D : Type} (zero_key : K) (zero_value : V)
    (default_hash_fn : K → Z) (fuel : nat) (w w0 w' : world K V D) (capacity0 : Z)
    (grow_factor0 : spec_float) (destructor0 : option D) (hash_fn0 : option (K → Z))
    (cmp_fn0 : K → K → Z) (map0 map' : hashmap_t K V D) (kvs : list (K * V)) :
  0 ≤ capacity0 < 2 ^ 64 →
  hashmap_new zero_key zero_value default_hash_fn w capacity0 grow_factor0 destructor0
    hash_fn0 cmp_fn0 = (w0, Some map0) →
  (∀ key value, (key, value) ∈ kvs → cmp_fn0 key key ≠ 0) →
  (∀ (i j : nat) ki vi kj vj, i ≠ j →
     kvs !! i = Some (ki, vi) → kvs !! j = Some (kj, vj) → cmp_fn0 ki kj = 0) →
  insert_all zero_key zero_value default_hash_fn fuel w0 map0 kvs = Ret (w', map', 1) →
  count map' = Z.of_nat (length kvs)
  ∧ ∀ key value, (key, value) ∈ kvs →
      ∃ p, value_at map' p = Some value
        ∧ ∀ fuel' : nat, (Z.to_nat (capacity map') ≤ fuel')%nat →
            hashmap_get fuel' map' key = Ret (Some p).
Proof.
  intros Hcap Hnew Hrefl Hdistinct Hrun.
  apply hashmap_new_Some in Hnew. subst map0.
  destruct (fresh_ok zero_key zero_value capacity0 grow_factor0 destructor0
              (match hash_fn0 with Some f => f | None => default_hash_fn end)
              cmp_fn0 Hcap) as (Hs & Hc & Hch & Hh & _ & Hp).
  apply insert_all_spec in Hrun; [| done].
  destruct Hrun as (Hcfg & Hshape & Hperm & Hcount & Hchain & Hhash).
  rewrite Hp, app_nil_r in Hperm.
  destruct Hcfg as (_ & _ & _ & Hcmp). cbn in Hcmp. split.
  - rewrite (Hcount Hc). f_equal.
    rewrite <- pairs_length. by apply Permutation_length.
  - intros key value Hin.
    apply get_finds; [done | by apply Hchain | by apply Hhash | by rewrite Hperm | |].
    + rewrite Hcmp. by eapply Hrefl.
    + intros key' value' Hin' Hne. rewrite Hperm in Hin'. rewrite Hcmp in Hne.
      apply list_elem_of_lookup_1 in Hin as [i Hi].
      apply list_elem_of_lookup_1 in Hin' as [j Hj].
      destruct (decide (j = i)) as [-> | Hij]; [congruence |].
      by rewrite (Hdistinct j i key' value' key value Hij Hj Hi) in Hne.
Qed.

Lemma insert_all_get_witness :
  count StringInt.abcd = 4
  ∧ ∀ key value,
      (key, value) ∈ [("a"%string, 1); ("b"%string, 2); ("c"%string, 3); ("d"%string, 4)] →
      ∃ p, value_at StringInt.abcd p = Some value
        ∧ ∀ fuel' : nat, (Z.to_nat (capacity StringInt.abcd) ≤ fuel')%nat →
            hashmap_get fuel' StringInt.abcd key = Ret (Some p).
Proof.
  apply (insert_all_get ""%string 0 hash_str_key 8 StringInt.w_ok StringInt.w_ok
           StringInt.w_ok 4 StringInt.two None None StringInt.str_eq StringInt.fresh4
           StringInt.abcd
           [("a"%string, 1); ("b"%string, 2); ("c"%string, 3); ("d"%string, 4)]).
  - lia.
  - reflexivity.
  - intros key value _. unfold StringInt.str_eq. by rewrite decide_True.
  - intros i j ki vi kj vj Hij Hi Hj.
    destruct i as [| [| [| [| i]]]], j as [| [| [| [| j]]]];
      cbn in Hi, Hj; simplify_eq; reflexivity.
  - reflexivity.
Defined.

(** The claim C2 as it is written fails when [capacity * grow_factor]
    grows the table too little: with capacity 1 and the growth factor 1.5
    the resize before the first insert asks for [(size_t) 1.5 = 1] slot, the
    insert succeeds, and the table is full: load factor 1. *)
Lemma load_factor_exceeded :
  StringInt.new 1 StringInt.one_and_half = (StringInt.w_ok, Some StringInt.fresh1)
  ∧ Double.ltb (Double.of_size 1) (grow_factor StringInt.fresh1) = true
  ∧ StringInt.insert 8 StringInt.w_ok StringInt.fresh1 "a"%string 1
    = Ret (StringInt.w_ok, StringInt.full1, 1)
  ∧ count StringInt.full1 = 1 ∧ capacity StringInt.full1 = 1
  ∧ ¬ (10 * count StringInt.full1 ≤ 9 * capacity StringInt.full1)
  ∧ Double.ltb (Double.mul (Double.of_size (capacity StringInt.full1)) Double.c0_9)
               (Double.of_size (count StringInt.full1)) = true.
Proof.
  split_and!; [reflexivity.. | | reflexivity]. cbn. lia.
Qed.

(** C2, amended: on a table of fewer than 2^49 slots whose [count] is the
    number of its occupied slots, a successful insert raises [count] by
    one, and the load factor afterwards is at most 0.9 when no resize was
    needed (the check [count + 1 > capacity * 0.9] was false), and when the
    resize asked for a capacity [n = (size_t)(capacity * grow_factor)] below
    2^49 with [count + 1 ≤ 0.9 * n], which is then the capacity of the
    table.  A growth factor above 1.0 alone does not give such an [n]. *)
Theorem insert_load_factor {K V D : Type} (zero_key : K) (zero_value : V)
    (default_hash_fn : K → Z) (fuel : nat) (w w' : world K V D) (map map' : hashmap_t K V D)
    (key : K) (value : V) :
  shape map → count_ok map → capacity map < 2 ^ 49 →
  hashmap_insert zero_key zero_value default_hash_fn fuel w map key value
  = Ret (w', map', 1) →
  count map' = count map + 1
  ∧ (load_exceeded map = false →
     capacity map' = capacity map ∧ 10 * count map' ≤ 9 * capacity map')
  ∧ (∀ n, load_exceeded map = true → grown_capacity map = Some n →
       n < 2 ^ 49 → 10 * (count map + 1) ≤ 9 * n →
       capacity map' = n ∧ 10 * count map' ≤ 9 * capacity map').
Proof.
  intros Hshape Hcount Hsmall Hrun.
  pose proof Hrun as Hspec.
  apply insert_spec in Hspec as [[? _] | (_ & Hdone)]; [done | | done].
  pose proof (inserted_count _ _ _ _ Hdone Hcount) as Hcount'.
  pose proof (live_length_le (entries map)) as Hle.
  pose proof Hshape as [Hcap _]. pose proof Hcount as Hc. unfold count_ok in Hc.
  split_and!; [done | |].
  - intros Hload. destruct Hdone as (_ & _ & _ & _ & _ & _ & _ & _ & Hsame).
    specialize (Hsame Hload). split; [done |].
    unfold load_exceeded in Hload.
    rewrite load_exceeded_exact in Hload by lia.
    apply Z.ltb_ge in Hload. lia.
  - intros n Hload Hgrow Hn Hfits. destruct fuel as [| fuel]; [done |].
    pose proof (to_size_range _ _ Hgrow) as Hrange.
    assert (capacity map' = n) as Hcapn.
    { eapply insert_resized_capacity; [done | done | done | done | done |].
      apply load_check_below; lia. }
    split; [done | lia].
Qed.

Lemma insert_load_factor_witness :
  count StringInt.abcd = count StringInt.abc + 1
  ∧ (load_exceeded StringInt.abc = false →
     capacity StringInt.abcd = capacity StringInt.abc
     ∧ 10 * count StringInt.abcd ≤ 9 * capacity StringInt.abcd)
  ∧ (∀ n, load_exceeded StringInt.abc = true → grown_capacity StringInt.abc = Some n →
       n < 2 ^ 49 → 10 * (count StringInt.abc + 1) ≤ 9 * n →
       capacity StringInt.abcd = n
       ∧ 10 * count StringInt.abcd ≤ 9 * capacity StringInt.abcd).
Proof.
  apply (insert_load_factor ""%string 0 hash_str_key 8 StringInt.w_ok StringInt.w_ok
           StringInt.abc StringInt.abcd "d"%string 4).
  - split; [reflexivity | vm_compute; reflexivity].
  - reflexivity.
  - vm_compute. reflexivity.
  - reflexivity.
Defined.

(** * Further properties *)

(** ** The hash functions *)

Lemma u32_range (x : Z) : 0 ≤ u32 x < 2 ^ 32.
Proof. unfold u32. apply Z.mod_pos_bound. lia. Qed.

Lemma ascii_byte_zero (c : Ascii.ascii) :
  Z.of_N (Ascii.N_of_ascii c) = 0 → c = Ascii.zero.
Proof.
  intros H. rewrite <- (Ascii.ascii_N_embedding c).
  replace (Ascii.N_of_ascii c) with 0%N by lia. done.
Qed.

(** X1: [hash_str_key] reads a C string: the bytes behind the first NUL
    do not enter the hash, whatever they are. *)
Theorem hash_str_key_stops_at_nul (s1 s2 : string) :
  hash_str_key (s1 +:+ String Ascii.zero s2) = hash_str_key s1.
Proof.
  unfold hash_str_key. generalize 2166136261.
  induction s1 as [| c s1 IH]; intros hash; [done |].
  change (String c s1 +:+ String Ascii.zero s2)
    with (String c (s1 +:+ String Ascii.zero s2)).
  cbn [hash_str_key_loop]. destruct (_ =? 0); [done | apply IH].
Qed.

(** X2: [hash_char_key] of a character other than NUL is [hash_str_key]
    of the string made of that character; at NUL the two differ, since
    [hash_char_key] mixes the byte in without looking at it. *)
Theorem hash_char_key_as_string :
  (∀ c : Ascii.ascii, c ≠ Ascii.zero →
     hash_char_key c = hash_str_key (String c EmptyString))
  ∧ hash_char_key Ascii.zero ≠ hash_str_key (String Ascii.zero EmptyString).
Proof.
  split.
  - intros c Hc. unfold hash_char_key, hash_str_key. cbn [hash_str_key_loop].
    destruct (_ =? 0) eqn:Hz; [| done].
    apply Z.eqb_eq, ascii_byte_zero in Hz. done.
  - vm_compute. discriminate.
Qed.

(** *** [hash_int] *)

Lemma testbit_above (x n : Z) :
  0 ≤ x < 2 ^ 32 → 32 ≤ n → Z.testbit x n = false.
Proof.
  intros Hx Hn. destruct (decide (x = 0)) as [-> | Hne]; [apply Z.bits_0 |].
  apply Z.bits_above_log2; [lia |].
  assert (Z.log2 x < 32) by (apply Z.log2_lt_pow2; lia). lia.
Qed.

Lemma xorshift_range (x k : Z) :
  0 ≤ x < 2 ^ 32 → 0 ≤ k → 0 ≤ Z.lxor x (Z.shiftr x k) < 2 ^ 32.
Proof.
  intros Hx Hk.
  assert (0 ≤ Z.shiftr x k) as Hs by (apply Z.shiftr_nonneg; lia).
  assert (0 ≤ Z.lxor x (Z.shiftr x k)) as Hnn by (apply Z.lxor_nonneg; lia).
  split; [done |].
  destruct (decide (Z.lxor x (Z.shiftr x k) = 0)) as [-> | Hne]; [lia |].
  apply Z.log2_lt_pow2; [lia |].
  pose proof (Z.log2_lxor x (Z.shiftr x k) ltac:(lia) Hs) as Hle.
  assert (Z.log2 x < 32) as H1.
  { destruct (decide (x = 0)) as [-> | ?]; [done |]. apply Z.log2_lt_pow2; lia. }
  assert (Z.log2 (Z.shiftr x k) ≤ Z.log2 x) as H2.
  { apply Z.log2_le_mono. rewrite Z.shiftr_div_pow2 by done.
    apply Z.div_le_upper_bound; [apply Z.pow_pos_nonneg; lia |].
    assert (1 ≤ 2 ^ k) by (pose proof (Z.pow_pos_nonneg 2 k); lia). nia. }
  lia.
Qed.

(** [x ^= x >> k] loses nothing: the top [k] bits are those of [x], and
    each lower bit is that of [x] xored with a bit already known. *)
Lemma xorshift_inj (k x y : Z) :
  0 < k → 0 ≤ x < 2 ^ 32 → 0 ≤ y < 2 ^ 32 →
  Z.lxor x (Z.shiftr x k) = Z.lxor y (Z.shiftr y k) → x = y.
Proof.
  intros Hk Hx Hy Heq. apply Z.bits_inj'. intros n Hn.
  assert (∀ (m : nat) n, 0 ≤ n → 32 - n ≤ Z.of_nat m → Z.testbit x n = Z.testbit y n) as Hbits.
  { clear n Hn. induction m as [| m IH]; intros n Hn Hm.
    - by rewrite !testbit_above by lia.
    - destruct (decide (32 ≤ n)); [by rewrite !testbit_above by lia |].
      pose proof (f_equal (λ z, Z.testbit z n) Heq) as Hb. cbn beta in Hb.
      rewrite !Z.lxor_spec, !Z.shiftr_spec in Hb by done.
      rewrite (IH (n + k)) in Hb by lia.
      by destruct (Z.testbit x n), (Z.testbit y n), (Z.testbit y (n + k)). }
  apply (Hbits (Z.to_nat 32)); lia.
Qed.

(** [x *= c] loses nothing when [c] has an inverse modulo 2^32. *)
Lemma mul_odd_inj (c d x y : Z) :
  u32 (c * d) = 1 → 0 ≤ x < 2 ^ 32 → 0 ≤ y < 2 ^ 32 →
  u32 (x * c) = u32 (y * c) → x = y.
Proof.
  unfold u32. intros Hinv Hx Hy Heq.
  assert (∀ z, z mod 2 ^ 32 = ((z * c) mod 2 ^ 32 * d) mod 2 ^ 32) as Hback.
  { intros z. rewrite Z.mul_mod_idemp_l by lia. rewrite <- Z.mul_assoc.
    rewrite <- Z.mul_mod_idemp_r by lia. rewrite Hinv. by rewrite Z.mul_1_r. }
  rewrite <- (Z.mod_small x (2 ^ 32)), <- (Z.mod_small y (2 ^ 32)) by done.
  rewrite (Hback x), (Hback y). by rewrite Heq.
Qed.

(** X3: [hash_int] maps the 32-bit integers one-to-one into themselves:
    its result is a [uint32_t], and two different inputs never collide. *)
Theorem hash_int_injective (x y : Z) :
  0 ≤ x < 2 ^ 32 → 0 ≤ y < 2 ^ 32 → x ≠ y →
  0 ≤ hash_int x < 2 ^ 32 ∧ hash_int x ≠ hash_int y.
Proof.
  intros Hx Hy Hne. unfold hash_int. split.
  - apply xorshift_range; [apply u32_range | lia].
  - intros H. apply Hne.
    apply xorshift_inj in H; [| lia | apply u32_range..].
    apply (mul_odd_inj _ 0x7ed1b41d) in H;
      [| reflexivity | apply xorshift_range; [apply u32_range | lia]..].
    apply xorshift_inj in H; [| lia | apply u32_range..].
    apply (mul_odd_inj _ 0xa5cb9243) in H;
      [| reflexivity | apply xorshift_range; [done | lia]..].
    apply xorshift_inj in H; [done | lia | done..].
Qed.

Lemma hash_int_injective_witness :
  0 ≤ hash_int 1 < 2 ^ 32 ∧ hash_int 1 ≠ hash_int 2.
Proof. apply (hash_int_injective 1 2); lia. Defined.

(** *** [hash_probe_distance] *)

(** X4: for a table of at most 2^63 slots, [hash_probe_distance] is the
    number of steps from the ideal bucket [hash % capacity] forward to
    [index], wrapping at the end of the array: it is below [capacity],
    adding it to the ideal bucket leads to [index], and it is 0 exactly in
    the ideal bucket. *)
Theorem hash_probe_distance_cyclic (hash index capacity : Z) :
  0 < capacity ≤ 2 ^ 63 → 0 ≤ index < capacity →
  0 ≤ hash_probe_distance hash index capacity < capacity
  ∧ (hash mod capacity + hash_probe_distance hash index capacity) mod capacity = index
  ∧ (hash_probe_distance hash index capacity = 0 ↔ index = hash mod capacity).
Proof.
  intros Hc Hi. unfold hash_probe_distance.
  pose proof (Z.mod_pos_bound hash capacity ltac:(lia)) as Hh.
  set (h := hash mod capacity) in *.
  change (2 ^ 63) with 9223372036854775808 in Hc.
  rewrite wrap64_small by (change (2 ^ 64) with 18446744073709551616; lia).
  destruct (decide (h ≤ index)) as [Hle | Hgt].
  - replace (index + capacity - h) with (index - h + 1 * capacity) by lia.
    rewrite Z.mod_add, (Z.mod_small (index - h)) by lia.
    replace (h + (index - h)) with index by lia.
    rewrite Z.mod_small by lia. lia.
  - rewrite (Z.mod_small (index + capacity - h)) by lia.
    replace (h + (index + capacity - h)) with (index + 1 * capacity) by lia.
    rewrite Z.mod_add, Z.mod_small by lia. lia.
Qed.

Lemma hash_probe_distance_cyclic_witness :
  0 ≤ hash_probe_distance 7 1 4 < 4
  ∧ (7 mod 4 + hash_probe_distance 7 1 4) mod 4 = 1
  ∧ (hash_probe_distance 7 1 4 = 0 ↔ 1 = 7 mod 4).
Proof. apply (hash_probe_distance_cyclic 7 1 4); lia. Defined.

(** ** Keys that are not in the table *)

Section Absent.
Context {K V D : Type}.
Variable zero_key : K.
Implicit Types (map : hashmap_t K V D) (e : hash_entry_t K V).

Lemma no_pair_no_match map key hash :
  Forall (λ kv, cmp_fn map kv.1 key = 0) (pairs map) →
  ∀ p e, 0 ≤ p → entry_at map p = Some e → slot_matches map e hash key = false.
Proof.
  intros Hno p e _ Hat. destruct (slot_matches map e hash key) eqn:Hm; [| done].
  pose proof (slot_matches_occupied _ _ _ _ Hm) as Hocc.
  pose proof (elem_pairs map p e Hat Hocc) as Hin.
  rewrite Forall_forall in Hno. apply Hno in Hin. cbn in Hin.
  unfold slot_matches in Hm. rewrite Hin in Hm. by rewrite andb_false_r in Hm.
Qed.

Lemma remove_loop_none (d : nat) : ∀ (fuel : nat) map key hash index,
  shape map → 0 ≤ index < capacity map →
  (∀ p e, 0 ≤ p → entry_at map p = Some e → slot_matches map e hash key = false) →
  (∃ e, entry_at map ((index + Z.of_nat d) mod capacity map) = Some e
        ∧ entry_status e = __FLUENT_LIBC_HASHMAP_EMPTY) →
  (d < fuel)%nat →
  hashmap_remove_loop zero_key fuel map key hash index = Ret (map, 0).
Proof.
  induction d as [| d IH]; intros fuel map key hash index Hshape Hidx Hno (e & Hat & He) Hfuel;
    (destruct fuel as [| fuel]; [lia |]); cbn [hashmap_remove_loop].
  - replace ((index + Z.of_nat 0) mod capacity map) with index in Hat
      by (rewrite Z.add_0_r, Z.mod_small; lia).
    by rewrite Hat, He.
  - destruct (entry_at_is_Some map index Hshape Hidx) as [cur Hcur]. rewrite Hcur.
    destruct (bool_decide _); [done |].
    rewrite (Hno index cur) by (done || lia).
    destruct (next_index map index Hshape Hidx) as [-> Hrange].
    apply IH; [done | done | done | | lia].
    exists e. by rewrite index_shift by lia.
Qed.

(** Without an Empty slot and without a matching slot the scans of get
    and remove go round the array for ever. *)
Lemma get_loop_diverges map key hash (fuel : nat) : ∀ index,
  shape map → 0 ≤ index < capacity map →
  Forall (λ e, entry_status e ≠ __FLUENT_LIBC_HASHMAP_EMPTY) (entries map) →
  (∀ p e, 0 ≤ p → entry_at map p = Some e → slot_matches map e hash key = false) →
  hashmap_get_loop fuel map key hash index = OutOfFuel.
Proof.
  induction fuel as [| fuel IH]; intros index Hshape Hidx Hfull Hno; [done |].
  cbn [hashmap_get_loop].
  destruct (entry_at_is_Some map index Hshape Hidx) as [cur Hcur]. rewrite Hcur.
  rewrite Forall_forall in Hfull.
  rewrite bool_decide_eq_false_2 by (apply Hfull; by eapply entry_at_elem).
  rewrite (Hno index cur) by (done || lia).
  destruct (next_index map index Hshape Hidx) as [-> Hrange].
  apply IH; [done | done | by apply Forall_forall | done].
Qed.

Lemma remove_loop_diverges map key hash (fuel : nat) : ∀ index,
  shape map → 0 ≤ index < capacity map →
  Forall (λ e, entry_status e ≠ __FLUENT_LIBC_HASHMAP_EMPTY) (entries map) →
  (∀ p e, 0 ≤ p → entry_at map p = Some e → slot_matches map e hash key = false) →
  hashmap_remove_loop zero_key fuel map key hash index = OutOfFuel.
Proof.
  induction fuel as [| fuel IH]; intros index Hshape Hidx Hfull Hno; [done |].
  cbn [hashmap_remove_loop].
  destruct (entry_at_is_Some map index Hshape Hidx) as [cur Hcur]. rewrite Hcur.
  rewrite Forall_forall in Hfull.
  rewrite bool_decide_eq_false_2 by (apply Hfull; by eapply entry_at_elem).
  rewrite (Hno index cur) by (done || lia).
  destruct (next_index map index Hshape Hidx) as [-> Hrange].
  apply IH; [done | done | by apply Forall_forall | done].
Qed.

(** When every slot is occupied the placement loop carries an entry
    round the array for ever. *)
Lemma insert_loop_diverges (fuel : nat) : ∀ map index dist e,
  shape map → 0 ≤ index < capacity map →
  Forall (λ e, entry_status e = OCCUPIED) (entries map) → entry_status e = OCCUPIED →
  hashmap_insert_loop fuel map index dist e = OutOfFuel.
Proof.
  induction fuel as [| fuel IH]; intros map index dist ne Hshape Hidx Hfull Hne; [done |].
  cbn [hashmap_insert_loop].
  destruct (entry_at_is_Some map index Hshape Hidx) as [cur Hcur]. rewrite Hcur.
  assert (entry_status cur = OCCUPIED) as Hocc.
  { rewrite Forall_forall in Hfull. apply Hfull. by eapply entry_at_elem. }
  rewrite (proj1 (status_occupied cur) Hocc).
  destruct (next_index map index Hshape Hidx) as [Hnext Hrange].
  destruct (_ <? dist); cbn [capacity store_entry set_entries]; rewrite Hnext.
  - apply IH; [by apply shape_store | done | | done].
    apply Forall_forall. intros e' [-> | Hin]%elem_store; [done |].
    rewrite Forall_forall in Hfull. by apply Hfull.
  - by apply IH.
Qed.

Lemma live_all (es : list (hash_entry_t K V)) :
  length (live es) = length es → Forall (λ e, entry_status e = OCCUPIED) es.
Proof.
  induction es as [| e es IH]; [constructor |]. unfold live in *.
  destruct (decide (entry_status e = OCCUPIED)) as [Hocc | Hfree].
  - rewrite filter_cons_True by done. cbn [length]. intros Hlen.
    constructor; [done |]. apply IH. lia.
  - rewrite filter_cons_False by done. cbn [length]. intros Hlen.
    pose proof (length_filter (λ e, entry_status e = OCCUPIED) es). lia.
Qed.

End Absent.

(** X5: a key that no occupied slot holds (no stored key is equal to it
    under the comparison callback), looked up in a table that has an Empty
    slot: get returns the null pointer, and remove returns 0 and leaves the
    table as it is, both within [capacity] iterations. *)
Theorem absent_key_not_found {K V D : Type} (zero_key : K) (map : hashmap_t K V D)
    (key : K) (fuel : nat) :
  shape map → has_empty_slot map →
  Forall (λ kv, cmp_fn map kv.1 key = 0) (pairs map) →
  (Z.to_nat (capacity map) ≤ fuel)%nat →
  hashmap_get fuel map key = Ret None
  ∧ hashmap_remove zero_key fuel map key = Ret (map, 0).
Proof.
  intros Hshape Hempty Hno Hfuel.
  assert (0 < capacity map) as Hpos.
  { destruct Hempty as (p & e & Hp & Hat & _).
    pose proof (entry_at_lt map p e Hshape Hp Hat). lia. }
  unfold hashmap_get, hashmap_remove.
  destruct (capacity map =? 0) eqn:Hzero; [lia |].
  assert (0 ≤ u32 (hash_fn map key) mod capacity map < capacity map) as Hidx
    by by apply Z.mod_pos_bound.
  destruct (empty_slot_ahead map _ Hshape Hidx Hempty) as (d & Hd & Hat).
  split.
  - apply (get_loop_none d); [done | done | by apply no_pair_no_match | done | lia].
  - apply (remove_loop_none zero_key d); [done | done | by apply no_pair_no_match | done | lia].
Qed.

Lemma absent_key_not_found_witness :
  hashmap_get 4 StringInt.sample "b"%string = Ret None
  ∧ StringInt.remove 4 StringInt.sample "b"%string = Ret (StringInt.sample, 0).
Proof.
  apply (absent_key_not_found ""%string StringInt.sample "b"%string 4).
  - split; [reflexivity | vm_compute; reflexivity].
  - exists 3, StringInt.empty. split; [lia |]. split; reflexivity.
  - repeat constructor.
  - vm_compute. lia.
Defined.

(** X6: on a table without an Empty slot (removals leave Tombstones, and
    insert refills only the Tombstones it meets), get and remove of a key
    that no occupied slot holds do not return: the scan ends at an Empty
    slot or at a match, and there is neither. *)
Theorem lookup_diverges_without_empty_slot {K V D : Type} (zero_key : K)
    (map : hashmap_t K V D) (key : K) :
  shape map → 0 < capacity map →
  Forall (λ e, entry_status e ≠ __FLUENT_LIBC_HASHMAP_EMPTY) (entries map) →
  Forall (λ kv, cmp_fn map kv.1 key = 0) (pairs map) →
  ∀ fuel : nat,
    hashmap_get fuel map key = OutOfFuel
    ∧ hashmap_remove zero_key fuel map key = OutOfFuel.
Proof.
  intros Hshape Hpos Hfull Hno fuel. unfold hashmap_get, hashmap_remove.
  destruct (capacity map =? 0) eqn:Hzero; [lia |].
  assert (0 ≤ u32 (hash_fn map key) mod capacity map < capacity map) as Hidx
    by by apply Z.mod_pos_bound.
  split.
  - apply get_loop_diverges; [done | done | done | by apply no_pair_no_match].
  - apply remove_loop_diverges; [done | done | done | by apply no_pair_no_match].
Qed.

Lemma lookup_diverges_without_empty_slot_witness :
  hashmap_get 1000 StringInt.churned "a"%string = OutOfFuel
  ∧ StringInt.remove 1000 StringInt.churned "a"%string = OutOfFuel.
Proof.
  apply (lookup_diverges_without_empty_slot ""%string StringInt.churned "a"%string).
  - split; [reflexivity | vm_compute; reflexivity].
  - reflexivity.
  - repeat constructor; discriminate.
  - repeat constructor.
Defined.

(** X7: the placement of insert on a table whose [count] has reached
    [capacity], every slot being occupied, does not return: the loop ends
    only at an Empty or Tombstone slot. *)
Theorem insert_place_diverges_when_full {K V D : Type} (map : hashmap_t K V D)
    (key : K) (value : V) :
  shape map → count_ok map → 0 < capacity map → count map = capacity map →
  ∀ fuel : nat, hashmap_insert_place fuel map key value = OutOfFuel.
Proof.
  intros Hshape Hcount Hpos Hfull fuel. unfold hashmap_insert_place.
  destruct (capacity map =? 0) eqn:Hzero; [lia |].
  apply insert_loop_diverges; [done | by apply Z.mod_pos_bound | | done].
  apply live_all. destruct Hshape as [Hcap _]. unfold count_ok in Hcount. lia.
Qed.

Lemma insert_place_diverges_when_full_witness :
  hashmap_insert_place 1000 StringInt.full1 "b"%string 2 = OutOfFuel.
Proof.
  apply (insert_place_diverges_when_full StringInt.full1 "b"%string 2).
  - split; [reflexivity | vm_compute; reflexivity].
  - reflexivity.
  - reflexivity.
  - reflexivity.
Defined.

(** ** Removal and the invariant *)

Section Removal.
Context {K V D : Type}.
Variable zero_key : K.
Implicit Types (map : hashmap_t K V D) (e t : hash_entry_t K V).

Lemma live_store_tombstone (es : list (hash_entry_t K V)) i old t :
  es !! i = Some old → entry_status old = OCCUPIED → entry_status t ≠ OCCUPIED →
  live es ≡ₚ old :: live (<[i:=t]> es).
Proof.
  intros Hi Hold Ht. rewrite insert_take_drop by (by eapply lookup_lt_Some).
  rewrite <- (take_drop_middle es i old Hi) at 1. unfold live.
  rewrite !filter_app, filter_cons_True, filter_cons_False by done.
  by rewrite Permutation_middle.
Qed.

Lemma store_keeps_nonempty_any map index t :
  shape map → 0 ≤ index < capacity map →
  entry_status t ≠ __FLUENT_LIBC_HASHMAP_EMPTY →
  ∀ p e, 0 ≤ p → entry_at map p = Some e →
    entry_status e ≠ __FLUENT_LIBC_HASHMAP_EMPTY →
    ∃ e', entry_at (store_entry map index t) p = Some e'
          ∧ entry_status e' ≠ __FLUENT_LIBC_HASHMAP_EMPTY.
Proof.
  intros Hshape Hidx Ht p e Hp Hat He.
  destruct (decide (p = index)) as [-> | Hdiff].
  - exists t. by rewrite entry_at_store_eq.
  - exists e. by rewrite entry_at_store_ne by lia.
Qed.

(** The scan of get does not see the difference between an entry that
    does not match and the Tombstone that replaces it. *)
Lemma get_loop_store_tombstone map q e t key hash n (fuel : nat) : ∀ index,
  shape map → 0 ≤ q < capacity map → entry_at map q = Some e →
  entry_status e ≠ __FLUENT_LIBC_HASHMAP_EMPTY → slot_matches map e hash key = false →
  entry_status t = TOMBSTONE → 0 ≤ index < capacity map →
  hashmap_get_loop fuel (set_count (store_entry map q t) n) key hash index
  = hashmap_get_loop fuel map key hash index.
Proof.
  induction fuel as [| fuel IH]; intros index Hshape Hq Hat He Hm Ht Hidx; [done |].
  cbn [hashmap_get_loop].
  change (entry_at (set_count (store_entry map q t) n) index)
    with (entry_at (store_entry map q t) index).
  change (capacity (set_count (store_entry map q t) n)) with (capacity map).
  destruct (next_index map index Hshape Hidx) as [Hnext Hrange].
  destruct (decide (index = q)) as [-> | Hne].
  - rewrite entry_at_store_eq, Hat by done.
    rewrite !bool_decide_eq_false_2 by (done || congruence). rewrite Hm.
    assert (slot_matches (set_count (store_entry map q t) n) t hash key = false) as ->
      by (unfold slot_matches; by rewrite Ht).
    rewrite Hnext. by apply IH.
  - rewrite entry_at_store_ne by lia.
    destruct (entry_at map index) as [cur |]; [| done].
    destruct (bool_decide _); [done |].
    change (slot_matches (set_count (store_entry map q t) n) cur hash key)
      with (slot_matches map cur hash key).
    destruct (slot_matches map cur hash key); [done |].
    rewrite Hnext. by apply IH.
Qed.

(** The invariant under the store of a Tombstone over an occupied
    slot. *)
Lemma tombstone_keeps_invariant map q e t n :
  table_ok map → 0 ≤ q < capacity map → entry_at map q = Some e →
  entry_status e = OCCUPIED → entry_status t = TOMBSTONE →
  n = wrap64 (count map - 1) →
  table_ok (set_count (store_entry map q t) n)
  ∧ n = count map - 1
  ∧ live (entries map) ≡ₚ e :: live (entries (set_count (store_entry map q t) n)).
Proof.
  intros (Hshape & Hcount & Hchain & Hhash) Hq Hat Hocc Ht ->.
  assert (live (entries map) ≡ₚ e :: live (<[Z.to_nat q := t]> (entries map))) as Hlive
    by (apply live_store_tombstone; [done | done | congruence]).
  assert (wrap64 (count map - 1) = count map - 1) as Hn.
  { unfold count_ok in Hcount. apply Permutation_length in Hlive. cbn [length] in Hlive.
    pose proof (live_length_le (entries map)) as Hle. destruct Hshape as [Hcap Hlt].
    apply wrap64_small. lia. }
  split_and!; [| done | done]. split_and!.
  - by apply (shape_store map).
  - unfold count_ok in *. cbn [count entries set_count store_entry set_entries].
    rewrite Hn. apply Permutation_length in Hlive. cbn [length] in Hlive. lia.
  - intros p e' Hp Hat' Hocc'.
    change (entry_at (store_entry map q t) p = Some e') in Hat'.
    change (reachable (store_entry map q t) (entry_hash e' mod capacity map) p).
    assert (p ≠ q) as Hne.
    { intros ->. rewrite entry_at_store_eq in Hat' by done. simplify_eq. congruence. }
    rewrite entry_at_store_ne in Hat' by lia.
    eapply (reachable_mono map); [done | lia | | by apply Hchain].
    apply store_keeps_nonempty_any; [done | done | congruence].
  - intros e' [-> | Hin]%elem_store Hocc'; [congruence | by apply Hhash].
Qed.

End Removal.

(** The invariant on a written-out table of four slots whose occupied
    slots are all in their ideal buckets. *)
Ltac concrete_table_ok :=
  split_and!;
  [ split; [reflexivity | vm_compute; reflexivity]
  | reflexivity
  | let p := fresh "p" in
    let Hat := fresh "Hat" in
    let Hocc := fresh "Hocc" in
    let Hn := fresh "Hn" in
    let Hp := fresh "Hp" in
    intros p ? ? Hat Hocc; unfold entry_at in Hat;
    assert (p = Z.of_nat (Z.to_nat p)) as Hp by lia;
    destruct (Z.to_nat p) as [| [| [| [| ?]]]] eqn:Hn; cbn in Hat, Hp; simplify_eq;
    try discriminate Hocc;
    match goal with |- reachable ?m _ ?i => by apply (reachable_self m i) end
  | let Hat := fresh "Hat" in
    let Hocc := fresh "Hocc" in
    intros ? (? & ? & Hat)%elem_entry_at Hocc; unfold entry_at in Hat;
    match type of Hat with
    | _ !! ?n = _ => destruct n as [| [| [| [| ?]]]]
    end; cbn in Hat; simplify_eq; (reflexivity || discriminate Hocc) ].

Lemma table_ok_sample : table_ok StringInt.sample.
Proof. concrete_table_ok. Qed.

Lemma table_ok_k_in : table_ok Examples.k_in.
Proof. concrete_table_ok. Qed.

Lemma table_ok_abc : table_ok StringInt.abc.
Proof. concrete_table_ok. Qed.

(** X8: a successful remove of [key] leaves every lookup of another key
    as it was: when no stored key is equal to both [key] and [key'], get
    of [key'] returns after the removal what it returned before, for every
    amount of fuel.  The Tombstone keeps the probe chains through the slot
    intact. *)
Theorem remove_keeps_other_lookups {K V D : Type} (zero_key : K)
    (map map' : hashmap_t K V D) (key key' : K) (fuel fuel' : nat) :
  shape map →
  hashmap_remove zero_key fuel map key = Ret (map', 1) →
  Forall (λ kv, cmp_fn map kv.1 key ≠ 0 → cmp_fn map kv.1 key' = 0) (pairs map) →
  hashmap_get fuel' map' key' = hashmap_get fuel' map key'.
Proof.
  intros Hshape Hrun Hother. unfold hashmap_remove in Hrun.
  destruct (capacity map =? 0) eqn:Hzero; [done |].
  assert (0 < capacity map) as Hpos by (destruct Hshape; lia).
  apply remove_loop_spec in Hrun as [[? _] | (_ & q & e & Hq & Hat & Hm & ->)];
    [done | | done | by apply Z.mod_pos_bound].
  pose proof (slot_matches_occupied _ _ _ _ Hm) as Hocc.
  unfold hashmap_get.
  change (capacity (set_count _ _)) with (capacity map).
  change (hash_fn (set_count _ _)) with (hash_fn map). rewrite Hzero.
  apply (get_loop_store_tombstone map q e);
    [done | done | done | congruence | | done | by apply Z.mod_pos_bound].
  rewrite Forall_forall in Hother.
  pose proof (Hother _ (elem_pairs map q e Hat Hocc)) as Hcmp. cbn in Hcmp.
  unfold slot_matches in Hm |- *.
  apply andb_true_iff in Hm as [_ Hc]. apply negb_true_iff, Z.eqb_neq in Hc.
  rewrite (Hcmp Hc). by rewrite andb_false_r.
Qed.

Lemma remove_keeps_other_lookups_witness :
  hashmap_get 4 Examples.sample_less_a "c"%string = hashmap_get 4 StringInt.sample "c"%string.
Proof.
  apply (remove_keeps_other_lookups ""%string StringInt.sample Examples.sample_less_a
           "a"%string "c"%string 4 4).
  - split; [reflexivity | vm_compute; reflexivity].
  - reflexivity.
  - repeat constructor. intros H. by vm_compute in H.
Defined.

(** X9: remove keeps the invariant of the table.  When it returns 0 the
    table is as it was; when it returns 1 the array still has [capacity]
    slots, [count] is one less and still counts the occupied slots, every
    occupied slot is still reached from its ideal bucket, and the pairs of
    the table are those of before less one pair whose key is equal to
    [key]. *)
Theorem remove_keeps_invariant {K V D : Type} (zero_key : K)
    (map map' : hashmap_t K V D) (key : K) (fuel : nat) (ok : Z) :
  table_ok map →
  hashmap_remove zero_key fuel map key = Ret (map', ok) →
  (ok = 0 ∧ map' = map)
  ∨ (ok = 1 ∧ table_ok map' ∧ same_config map map' ∧ capacity map' = capacity map
     ∧ count map' = count map - 1
     ∧ ∃ k v, cmp_fn map k key ≠ 0 ∧ pairs map ≡ₚ (k, v) :: pairs map').
Proof.
  intros Hok Hrun. pose proof Hok as (Hshape & _). unfold hashmap_remove in Hrun.
  destruct (capacity map =? 0) eqn:Hzero; [done |].
  assert (0 < capacity map) as Hpos by (destruct Hshape; lia).
  apply remove_loop_spec in Hrun as [[-> ->] | (-> & q & e & Hq & Hat & Hm & ->)];
    [by left | | done | by apply Z.mod_pos_bound].
  right. pose proof (slot_matches_occupied _ _ _ _ Hm) as Hocc.
  destruct (tombstone_keeps_invariant map q e
              (Build_entry zero_key (entry_value e) TOMBSTONE (entry_hash e))
              (wrap64 (count map - 1)) Hok Hq Hat Hocc eq_refl eq_refl)
    as (Hok' & Hn & Hlive).
  split_and!; [done | done | done | done | done |].
  exists (entry_key e), (entry_value e). split.
  - unfold slot_matches in Hm. apply andb_true_iff in Hm as [_ Hc].
    by apply negb_true_iff, Z.eqb_neq in Hc.
  - unfold pairs. by rewrite Hlive.
Qed.

Lemma remove_keeps_invariant_witness :
  (1 = 0 ∧ Examples.sample_less_a = StringInt.sample)
  ∨ (1 = 1 ∧ table_ok Examples.sample_less_a
     ∧ same_config StringInt.sample Examples.sample_less_a
     ∧ capacity Examples.sample_less_a = capacity StringInt.sample
     ∧ count Examples.sample_less_a = count StringInt.sample - 1
     ∧ ∃ k v, cmp_fn StringInt.sample k "a"%string ≠ 0
         ∧ pairs StringInt.sample ≡ₚ (k, v) :: pairs Examples.sample_less_a).
Proof.
  apply (remove_keeps_invariant ""%string StringInt.sample Examples.sample_less_a
           "a"%string 4 1).
  - exact table_ok_sample.
  - reflexivity.
Defined.

(** ** Insert and the invariant *)

(** X10: insert keeps the invariant of the table and never overwrites.
    When it returns 0 the table is as it was.  When it returns 1 the
    invariant holds again, [count] is one more, and the pairs of the table
    are those of before and the new pair: a pair with an equal key that was
    there before is still there. *)
Theorem insert_keeps_invariant {K V D : Type} (zero_key : K) (zero_value : V)
    (default_hash_fn : K → Z) (fuel : nat) (w w' : world K V D)
    (map map' : hashmap_t K V D) (key : K) (value : V) (ok : Z) :
  table_ok map →
  hashmap_insert zero_key zero_value default_hash_fn fuel w map key value
  = Ret (w', map', ok) →
  (ok = 0 ∧ map' = map)
  ∨ (ok = 1 ∧ table_ok map' ∧ same_config map map'
     ∧ count map' = count map + 1
     ∧ pairs map' ≡ₚ (key, value) :: pairs map).
Proof.
  intros (Hshape & Hcount & Hchain & Hhash) Hrun.
  apply insert_spec in Hrun as [[-> ->] | (-> & Hdone)]; [by left | | done].
  right. pose proof (inserted_count _ _ _ _ Hdone Hcount) as Hc.
  destruct Hdone as (Hcfg & Hshape' & _ & Hperm & Hcount' & Hchain' & Hhash' & _).
  split_and!; [done | | done | done | done]. split_and!; auto.
Qed.

Lemma insert_keeps_invariant_witness :
  (1 = 0 ∧ StringInt.dup = Examples.k_in)
  ∨ (1 = 1 ∧ table_ok StringInt.dup ∧ same_config Examples.k_in StringInt.dup
     ∧ count StringInt.dup = count Examples.k_in + 1
     ∧ pairs StringInt.dup ≡ₚ ("k"%string, 2) :: pairs Examples.k_in).
Proof.
  apply (insert_keeps_invariant ""%string 0 hash_str_key 8 StringInt.w_ok StringInt.w_ok
           Examples.k_in StringInt.dup "k"%string 2 1).
  - exact table_ok_k_in.
  - reflexivity.
Defined.

(** X11: insert then get, on any table that keeps the invariant (it may
    hold Tombstones and may have been resized).  After a successful insert
    of a key that is equal to itself and to no stored key, get of the key
    returns the slot that holds the value inserted; and get of a stored key
    still returns its value. *)
Theorem insert_then_get {K V D : Type} (zero_key : K) (zero_value : V)
    (default_hash_fn : K → Z) (fuel : nat) (w w' : world K V D)
    (map map' : hashmap_t K V D) (key : K) (value : V) :
  table_ok map →
  hashmap_insert zero_key zero_value default_hash_fn fuel w map key value
  = Ret (w', map', 1) →
  cmp_fn map key key ≠ 0 →
  Forall (λ kv, cmp_fn map kv.1 key = 0 ∧ cmp_fn map key kv.1 = 0) (pairs map) →
  (∃ p, value_at map' p = Some value
     ∧ ∀ fuel' : nat, (Z.to_nat (capacity map') ≤ fuel')%nat →
         hashmap_get fuel' map' key = Ret (Some p))
  ∧ (∀ k v, (k, v) ∈ pairs map → cmp_fn map k k ≠ 0 →
       (∀ k2 v2, (k2, v2) ∈ pairs map → cmp_fn map k2 k ≠ 0 → v2 = v) →
       ∃ p, value_at map' p = Some v
         ∧ ∀ fuel' : nat, (Z.to_nat (capacity map') ≤ fuel')%nat →
             hashmap_get fuel' map' k = Ret (Some p)).
Proof.
  intros (Hshape & Hcount & Hchain & Hhash) Hrun Hrefl Hfresh.
  apply insert_spec in Hrun as [[? _] | (_ & Hdone)]; [done | | done].
  destruct Hdone as (Hcfg & Hshape' & _ & Hperm & _ & Hchain' & Hhash' & _).
  destruct Hcfg as (_ & _ & _ & Hcmp). rewrite Forall_forall in Hfresh. split.
  - apply get_finds; [done | by apply Hchain' | by apply Hhash' | | by rewrite Hcmp |].
    + rewrite Hperm. by left.
    + intros k2 v2 Hin Hne. rewrite Hperm in Hin. rewrite Hcmp in Hne.
      apply elem_of_cons in Hin as [[= -> ->] | Hin]; [done |].
      by destruct (Hfresh _ Hin) as [Heq _].
  - intros k v Hin Hk Huniq.
    apply get_finds; [done | by apply Hchain' | by apply Hhash' | | by rewrite Hcmp |].
    + rewrite Hperm. by right.
    + intros k2 v2 Hin2 Hne. rewrite Hperm in Hin2. rewrite Hcmp in Hne.
      apply elem_of_cons in Hin2 as [[= -> ->] | Hin2]; [| by eapply Huniq].
      by destruct (Hfresh _ Hin) as [_ Heq].
Qed.

Lemma insert_then_get_witness :
  (∃ p, value_at StringInt.abc p = Some 2
     ∧ ∀ fuel' : nat, (Z.to_nat (capacity StringInt.abc) ≤ fuel')%nat →
         hashmap_get fuel' StringInt.abc "b"%string = Ret (Some p))
  ∧ (∀ k v, (k, v) ∈ pairs StringInt.sample → cmp_fn StringInt.sample k k ≠ 0 →
       (∀ k2 v2, (k2, v2) ∈ pairs StringInt.sample →
          cmp_fn StringInt.sample k2 k ≠ 0 → v2 = v) →
       ∃ p, value_at StringInt.abc p = Some v
         ∧ ∀ fuel' : nat, (Z.to_nat (capacity StringInt.abc) ≤ fuel')%nat →
             hashmap_get fuel' StringInt.abc k = Ret (Some p)).
Proof.
  apply (insert_then_get ""%string 0 hash_str_key 8 StringInt.w_ok StringInt.w_ok
           StringInt.sample StringInt.abc "b"%string 2).
  - exact table_ok_sample.
  - reflexivity.
  - vm_compute. discriminate.
  - repeat constructor.
Defined.

(** X12: iterating over a table that a run of successful inserts has
    filled from new yields the inserted pairs, each once, in some order:
    the slots returned until the null pointer comes hold, read in the order
    of the iteration, a permutation of the pairs inserted. *)
Theorem inserts_then_iterate {K V D : Type} (zero_key : K) (zero_value : V)
    (default_hash_fn : K → Z) (fuel : nat) (w w0 w' : world K V D) (capacity0 : Z)
    (grow_factor0 : spec_float) (destructor0 : option D) (hash_fn0 : option (K → Z))
    (cmp_fn0 : K → K → Z) (map0 map' : hashmap_t K V D) (kvs : list (K * V))
    (rounds : nat) :
  0 ≤ capacity0 < 2 ^ 64 →
  hashmap_new zero_key zero_value default_hash_fn w capacity0 grow_factor0 destructor0
    hash_fn0 cmp_fn0 = (w0, Some map0) →
  insert_all zero_key zero_value default_hash_fn fuel w0 map0 kvs = Ret (w', map', 1) →
  (length kvs < rounds)%nat →
  ∃ ps kvs',
    iter_drain rounds (hashmap_iter_begin map') = Ret (Build_iter map' (capacity map'), ps)
    ∧ (λ p, (λ e, (entry_key e, entry_value e)) <$> entry_at map' p) <$> ps = Some <$> kvs'
    ∧ kvs' ≡ₚ kvs.
Proof.
  intros Hcap Hnew Hrun Hrounds.
  apply hashmap_new_Some in Hnew. subst map0.
  destruct (fresh_ok zero_key zero_value capacity0 grow_factor0 destructor0
              (match hash_fn0 with Some f => f | None => default_hash_fn end)
              cmp_fn0 Hcap) as (Hs & _ & _ & _ & _ & Hp).
  apply insert_all_spec in Hrun; [| done].
  destruct Hrun as (_ & Hshape & Hperm & _).
  rewrite Hp, app_nil_r in Hperm.
  assert (length (live (entries map')) = length kvs) as Hlen
    by (rewrite <- pairs_length; by apply Permutation_length).
  destruct (iter_drain_spec map' (length (entries map')) 0 rounds)
    as (ps & Hdrain & Hread & _);
    [done | lia | destruct Hshape; lia
    | change (Z.to_nat 0) with 0%nat; rewrite drop_0; lia |].
  change (Z.to_nat 0) with 0%nat in Hread. rewrite drop_0 in Hread.
  exists ps, (pairs map'). split_and!; [done | | done].
  change (fmap (λ e : hash_entry_t K V, (entry_key e, entry_value e)) ∘ entry_at map' <$> ps
          = Some <$> pairs map').
  rewrite list_fmap_compose, Hread. unfold pairs.
  by rewrite <- !list_fmap_compose.
Qed.

Lemma inserts_then_iterate_witness :
  ∃ ps kvs',
    iter_drain 5 (hashmap_iter_begin StringInt.abcd)
    = Ret (Build_iter StringInt.abcd (capacity StringInt.abcd), ps)
    ∧ (λ p, (λ e, (entry_key e, entry_value e)) <$> entry_at StringInt.abcd p) <$> ps
      = Some <$> kvs'
    ∧ kvs' ≡ₚ [("a"%string, 1); ("b"%string, 2); ("c"%string, 3); ("d"%string, 4)].
Proof.
  apply (inserts_then_iterate ""%string 0 hash_str_key 8 StringInt.w_ok StringInt.w_ok
           StringInt.w_ok 4 StringInt.two None None StringInt.str_eq StringInt.fresh4
           StringInt.abcd
           [("a"%string, 1); ("b"%string, 2); ("c"%string, 3); ("d"%string, 4)] 5).
  - lia.
  - reflexivity.
  - reflexivity.
  - cbn. lia.
Defined.

(** ** New tables and tables without slots *)

Section Fresh.
Context {K V D : Type}.
Variable zero_key : K.
Variable zero_value : V.
Variable default_hash_fn : K → Z.
Implicit Types (map : hashmap_t K V D) (e : hash_entry_t K V) (w : world K V D).

Lemma alloc_calls w : destructor_calls (alloc w).1 = destructor_calls w.
Proof. unfold alloc. by destruct (alloc_plan w). Qed.

Lemma hashmap_new_calls w capacity grow_factor (destructor : option D) hash_fn cmp_fn :
  destructor_calls
    (hashmap_new zero_key zero_value default_hash_fn w capacity grow_factor destructor
       hash_fn cmp_fn).1
  = destructor_calls w.
Proof.
  unfold hashmap_new, hashmap_init.
  pose proof (alloc_calls w) as H1. destruct (alloc w) as [w1 []]; cbn in *; [| done].
  pose proof (alloc_calls w1) as H2. destruct (alloc w1) as [w2 []]; cbn in *; congruence.
Qed.

(** [capacity * grow_factor] for the capacity 0. *)
Lemma grown_capacity_zero map n :
  capacity map = 0 → grown_capacity map = Some n → n = 0.
Proof.
  unfold grown_capacity. intros ->. destruct (grow_factor map) as [s | s | | s m e];
    cbn; congruence.
Qed.

(** The scan of get ends: an Empty slot lies ahead. *)
Lemma get_loop_total (d : nat) : ∀ (fuel : nat) map key hash index,
  shape map → 0 ≤ index < capacity map →
  (∃ e, entry_at map ((index + Z.of_nat d) mod capacity map) = Some e
        ∧ entry_status e = __FLUENT_LIBC_HASHMAP_EMPTY) →
  (d < fuel)%nat →
  ∃ r, hashmap_get_loop fuel map key hash index = Ret r.
Proof.
  induction d as [| d IH]; intros fuel map key hash index Hshape Hidx (e & Hat & He) Hfuel;
    (destruct fuel as [| fuel]; [lia |]).
  - replace ((index + Z.of_nat 0) mod capacity map) with index in Hat
      by (rewrite Z.add_0_r, Z.mod_small; lia).
    exists None. by eapply get_loop_empty.
  - cbn [hashmap_get_loop].
    destruct (entry_at_is_Some map index Hshape Hidx) as [cur Hcur]. rewrite Hcur.
    destruct (bool_decide _); [by eexists |].
    destruct (slot_matches _ _ _ _); [by eexists |].
    destruct (next_index map index Hshape Hidx) as [-> Hrange].
    apply IH; [done | done | | lia].
    exists e. by rewrite index_shift by lia.
Qed.

End Fresh.

(** X13: the table that new returns.  It keeps the invariant, has the
    capacity asked for, holds no pair, and uses [default_hash_fn] when no
    hash callback was given; no destructor has been called.  On it get
    returns the null pointer and remove returns 0 for every key, at the
    first slot they look at, and the first [iter_next] returns the null
    pointer. *)
Theorem new_table_is_empty {K V D : Type} (zero_key : K) (zero_value : V)
    (default_hash_fn : K → Z) (w w' : world K V D) (capacity0 : Z)
    (grow_factor0 : spec_float) (destructor0 : option D) (hash_fn0 : option (K → Z))
    (cmp_fn0 : K → K → Z) (map : hashmap_t K V D) :
  0 < capacity0 < 2 ^ 64 →
  hashmap_new zero_key zero_value default_hash_fn w capacity0 grow_factor0 destructor0
    hash_fn0 cmp_fn0 = (w', Some map) →
  table_ok map ∧ capacity map = capacity0 ∧ count map = 0 ∧ pairs map = []
  ∧ hash_fn map = match hash_fn0 with Some f => f | None => default_hash_fn end
  ∧ destructor_calls w' = destructor_calls w
  ∧ (∀ key (fuel : nat),
       hashmap_get (S fuel) map key = Ret None
       ∧ hashmap_remove zero_key (S fuel) map key = Ret (map, 0))
  ∧ ∀ rounds : nat,
      iter_drain (S rounds) (hashmap_iter_begin map)
      = Ret (Build_iter map (capacity map), []).
Proof.
  intros Hcap Hnew.
  pose proof (hashmap_new_calls zero_key zero_value default_hash_fn w capacity0 grow_factor0
                destructor0 hash_fn0 cmp_fn0) as Hcalls.
  rewrite Hnew in Hcalls. cbn in Hcalls.
  apply hashmap_new_Some in Hnew.
  destruct (fresh_ok zero_key zero_value capacity0 grow_factor0 destructor0
              (match hash_fn0 with Some f => f | None => default_hash_fn end)
              cmp_fn0 ltac:(lia)) as (Hs & Hc & Hch & Hh & _ & Hp).
  rewrite <- Hnew in Hs, Hc, Hch, Hh, Hp.
  assert (∀ i, 0 ≤ i < capacity0 →
            entry_at map i = Some (zero_entry zero_key zero_value)) as Hslot.
  { intros i Hi. subst map. unfold entry_at. cbn [entries].
    apply lookup_replicate_2. lia. }
  assert (capacity map = capacity0) as Hcm by by subst map.
  split_and!; [done | done | by subst map | done | by subst map | done | |].
  - intros key fuel. unfold hashmap_get, hashmap_remove. rewrite Hcm.
    destruct (capacity0 =? 0) eqn:Hz; [lia |].
    pose proof (Z.mod_pos_bound (u32 (hash_fn map key)) capacity0 ltac:(lia)) as Hidx.
    split.
    + by apply (get_loop_empty map _ _ _ (zero_entry zero_key zero_value)); [apply Hslot |].
    + cbn [hashmap_remove_loop]. by rewrite Hslot.
  - intros rounds.
    destruct (iter_drain_spec map (length (entries map)) 0 (S rounds))
      as (ps & Hdrain & Hread & _);
      [done | lia | destruct Hs; lia | |].
    { change (Z.to_nat 0) with 0%nat. rewrite drop_0.
      unfold pairs in Hp. apply fmap_nil_inv in Hp. rewrite Hp. cbn. lia. }
    change (Z.to_nat 0) with 0%nat in Hread. rewrite drop_0 in Hread.
    unfold pairs in Hp. apply fmap_nil_inv in Hp. rewrite Hp in Hread.
    apply fmap_nil_inv in Hread. by subst ps.
Qed.

Lemma new_table_is_empty_witness :
  table_ok StringInt.fresh4 ∧ capacity StringInt.fresh4 = 4 ∧ count StringInt.fresh4 = 0
  ∧ pairs StringInt.fresh4 = []
  ∧ hash_fn StringInt.fresh4 = hash_str_key
  ∧ destructor_calls StringInt.w_ok = destructor_calls StringInt.w_ok
  ∧ (∀ key (fuel : nat),
       hashmap_get (S fuel) StringInt.fresh4 key = Ret None
       ∧ hashmap_remove ""%string (S fuel) StringInt.fresh4 key = Ret (StringInt.fresh4, 0))
  ∧ ∀ rounds : nat,
      iter_drain (S rounds) (hashmap_iter_begin StringInt.fresh4)
      = Ret (Build_iter StringInt.fresh4 (capacity StringInt.fresh4), []).
Proof.
  apply (new_table_is_empty ""%string 0 hash_str_key StringInt.w_ok StringInt.w_ok 4
           StringInt.two None None StringInt.str_eq StringInt.fresh4).
  - lia.
  - reflexivity.
Defined.

(** X14: a table of capacity 0, which new builds when it is asked for it
    and [calloc] hands out a block, cannot be used: get, remove and the
    placement of insert compute [hash % 0], which is undefined, and insert
    never returns 1; it returns 0, with the table as it was, when the
    resize it starts with fails. *)
Theorem capacity_zero_unusable {K V D : Type} (zero_key : K) (zero_value : V)
    (default_hash_fn : K → Z) (map : hashmap_t K V D) :
  shape map → capacity map = 0 →
  (∀ (fuel : nat) key value,
     hashmap_get fuel map key = Undefined
     ∧ hashmap_remove zero_key fuel map key = Undefined
     ∧ hashmap_insert_place fuel map key value = Undefined)
  ∧ (∀ (fuel : nat) (w w' : world K V D) key value map' ok,
       hashmap_insert zero_key zero_value default_hash_fn fuel w map key value
       = Ret (w', map', ok) →
       ok = 0 ∧ map' = map).
Proof.
  intros Hshape Hzero. split.
  - intros fuel key value. unfold hashmap_get, hashmap_remove, hashmap_insert_place.
    by rewrite Hzero.
  - intros fuel w w' key value map' ok Hrun. destruct fuel as [| fuel]; [done |].
    cbn [hashmap_insert] in Hrun.
    assert (∀ m : hashmap_t K V D, capacity m = 0 →
              hashmap_insert_place fuel m key value = Undefined) as Hplace
      by (intros m Hm; unfold hashmap_insert_place; by rewrite Hm).
    destruct (load_exceeded map).
    + destruct (grown_capacity map) as [n |] eqn:Hgrow; [| done].
      apply grown_capacity_zero in Hgrow; [| done]. subst n.
      destruct (hashmap_resize_with _ _ _ _ _ _ _) as [[[w1 map1] ok1] | |] eqn:Hres;
        cbn in Hrun; [| done | done].
      apply resize_with_spec in Hres as [[-> ->] | (-> & _ & Hsame)];
        [cbn in Hrun; by simplify_eq | | apply insert_spec | done | lia].
      cbn in Hrun. rewrite Hplace in Hrun; [done |]. apply Hsame.
      destruct Hshape as [Hlen _]. rewrite Hzero in Hlen.
      destruct (entries map); [| cbn in Hlen; lia]. cbn. lia.
    + cbn in Hrun. by rewrite Hplace in Hrun.
Qed.

Lemma capacity_zero_unusable_witness :
  (∀ (fuel : nat) key value,
     hashmap_get fuel Examples.empty0 key = Undefined
     ∧ hashmap_remove ""%string fuel Examples.empty0 key = Undefined
     ∧ hashmap_insert_place fuel Examples.empty0 key value = Undefined)
  ∧ (∀ (fuel : nat) (w w' : world string Z unit) key value map' ok,
       hashmap_insert ""%string 0 hash_str_key fuel w Examples.empty0 key value
       = Ret (w', map', ok) →
       ok = 0 ∧ map' = Examples.empty0).
Proof.
  apply (capacity_zero_unusable ""%string 0 hash_str_key Examples.empty0).
  - split; [reflexivity | vm_compute; reflexivity].
  - reflexivity.
Defined.

(** ** Lookups after a resize *)

(** X15: a successful resize leaves a table without Tombstones, so that,
    when [count] is below the capacity afterwards, a slot is Empty and get
    returns for every key, found or not, within [capacity] iterations:
    also on a table on which get did not return before. *)
Theorem resize_restores_termination {K V D : Type} (zero_key : K) (zero_value : V)
    (default_hash_fn : K → Z) (fuel : nat) (w w' : world K V D)
    (map map' : hashmap_t K V D) (new_capacity : Z) :
  shape map → 0 ≤ new_capacity < 2 ^ 64 →
  hashmap_resize zero_key zero_value default_hash_fn fuel w map new_capacity
  = Ret (w', map', 1) →
  count map' < capacity map' →
  has_empty_slot map'
  ∧ ∀ key (fuel' : nat), (Z.to_nat (capacity map') ≤ fuel')%nat →
      ∃ r, hashmap_get fuel' map' key = Ret r.
Proof.
  intros Hshape Hcap Hrun Hroom. unfold hashmap_resize in Hrun.
  apply resize_with_spec in Hrun as [[? _] | (_ & Hres & _)];
    [done | | apply insert_spec | done | done].
  destruct Hres as (_ & Hshape' & Hcount' & _ & _ & Hno & _).
  assert (has_empty_slot map') as Hempty.
  { destruct (count_lt_capacity_free map' Hshape' Hcount' Hroom) as (p & e & Hp & Hat & Hfree).
    exists p, e. split_and!; [done | done |].
    pose proof (Hno e (entry_at_elem _ _ _ Hat)) as Hnt.
    destruct (entry_status e); done. }
  split; [done |]. intros key fuel' Hfuel.
  assert (0 < capacity map') as Hpos.
  { destruct Hempty as (p & e & Hp & Hat & _).
    pose proof (entry_at_lt map' p e Hshape' Hp Hat). lia. }
  unfold hashmap_get. destruct (capacity map' =? 0) eqn:Hzero; [lia |].
  assert (0 ≤ u32 (hash_fn map' key) mod capacity map' < capacity map') as Hidx
    by by apply Z.mod_pos_bound.
  destruct (empty_slot_ahead map' _ Hshape' Hidx Hempty) as (d & Hd & Hat).
  apply (get_loop_total d); [done | done | done | lia].
Qed.

Lemma resize_restores_termination_witness :
  has_empty_slot StringInt.x_in
  ∧ ∀ key (fuel' : nat), (Z.to_nat (capacity StringInt.x_in) ≤ fuel')%nat →
      ∃ r, hashmap_get fuel' StringInt.x_in key = Ret r.
Proof.
  apply (resize_restores_termination ""%string 0 hash_str_key 8 StringInt.w_ok
           StringInt.w_ok StringInt.churned StringInt.x_in 4).
  - split; [reflexivity | vm_compute; reflexivity].
  - lia.
  - reflexivity.
  - reflexivity.
Defined.

(** ** The destructor callback *)

Section Calls.
Context {K V D : Type}.
Variable zero_key : K.
Variable zero_value : V.
Variable default_hash_fn : K → Z.
Implicit Types (map : hashmap_t K V D) (w : world K V D).

Section Resize.
Variable ins : insert_fn K V D.
Hypothesis ins_quiet : ∀ w map key value w' map' ok,
  ins w map key value = Ret (w', map', ok) → ok ≠ 0 →
  destructor_calls w' = destructor_calls w.

Lemma resize_loop_calls (idxs : list Z) : ∀ w map new_map w' new_map',
  hashmap_resize_loop ins w map new_map idxs = Ret (w', new_map', true) →
  destructor_calls w' = destructor_calls w.
Proof.
  induction idxs as [| i idxs IH]; intros w map new_map w' new_map' Hrun;
    cbn [hashmap_resize_loop] in Hrun; [by simplify_eq |].
  destruct (entry_at map i) as [e |]; [| done].
  destruct (bool_decide _); [| by eapply IH].
  destruct (ins w new_map (entry_key e) (entry_value e)) as [[[w1 nm1] ok1] | |] eqn:Hcall;
    cbn in Hrun; [| done | done].
  destruct (ok1 =? 0) eqn:Hz; [done |].
  apply IH in Hrun. rewrite Hrun. eapply ins_quiet; [done | lia].
Qed.

Lemma resize_with_calls w map new_capacity w' map' ok :
  hashmap_resize_with zero_key zero_value default_hash_fn ins w map new_capacity
  = Ret (w', map', ok) →
  ok ≠ 0 → destructor_calls w' = destructor_calls w.
Proof.
  unfold hashmap_resize_with. intros Hrun Hok.
  pose proof (hashmap_new_calls zero_key zero_value default_hash_fn w new_capacity
                (grow_factor map) (destructor map) (Some (hash_fn map)) (cmp_fn map))
    as Hnew.
  destruct (hashmap_new _ _ _ _ _ _ _ _ _) as [w1 [nm |]]; cbn in Hnew;
    [| by simplify_eq].
  destruct (hashmap_resize_loop _ _ _ _ _) as [[[w2 nm2] []] | |] eqn:Hloop;
    cbn in Hrun; [| by simplify_eq | done | done].
  apply resize_loop_calls in Hloop. simplify_eq. congruence.
Qed.

End Resize.

Lemma insert_calls (fuel : nat) : ∀ w map key value w' map' ok,
  hashmap_insert zero_key zero_value default_hash_fn fuel w map key value
  = Ret (w', map', ok) →
  ok ≠ 0 → destructor_calls w' = destructor_calls w.
Proof.
  induction fuel as [| fuel IH]; intros w map key value w' map' ok Hrun Hok; [done |].
  cbn [hashmap_insert] in Hrun.
  destruct (load_exceeded map).
  - destruct (grown_capacity map) as [n |]; [| done].
    destruct (hashmap_resize_with _ _ _ _ _ _ _) as [[[w1 map1] ok1] | |] eqn:Hres;
      cbn in Hrun; [| done | done].
    destruct (ok1 =? 0) eqn:Hz; [by simplify_eq |].
    destruct (hashmap_insert_place fuel map1 key value) as [[map2 ok2] | |];
      cbn in Hrun; [| done | done].
    simplify_eq. eapply resize_with_calls; [apply IH | done | lia].
  - cbn in Hrun.
    destruct (hashmap_insert_place fuel map key value) as [[map2 ok2] | |];
      cbn in Hrun; [| done | done].
    by simplify_eq.
Qed.

End Calls.

(** X16: the destructor callback runs only where a table is given up.
    An insert and a resize that return 1 have not called it, whatever
    resizes they went through: the arrays they replace are freed without
    it.  [hashmap_NAME_free] calls it once, on the table, when the table
    has one, and not at all otherwise. *)
Theorem success_calls_no_destructor {K V D : Type} (zero_key : K) (zero_value : V)
    (default_hash_fn : K → Z) (fuel : nat) (w : world K V D) (map : hashmap_t K V D) :
  (∀ key value w' map',
     hashmap_insert zero_key zero_value default_hash_fn fuel w map key value
     = Ret (w', map', 1) →
     destructor_calls w' = destructor_calls w)
  ∧ (∀ new_capacity w' map',
       hashmap_resize zero_key zero_value default_hash_fn fuel w map new_capacity
       = Ret (w', map', 1) →
       destructor_calls w' = destructor_calls w)
  ∧ destructor_calls (hashmap_free w map)
    = destructor_calls w ++ match destructor map with Some d => [(d, map)] | None => [] end.
Proof.
  split_and!.
  - intros key value w' map' Hrun. by eapply insert_calls.
  - intros n w' map' Hrun. unfold hashmap_resize in Hrun.
    eapply resize_with_calls; [apply insert_calls | done | done].
  - unfold hashmap_free. destruct (destructor map); [done |]. by rewrite app_nil_r.
Qed.

(** ** Growth by the factors 2.0 and 1.5 *)

(** A product of two positive doubles whose exact value needs no more
    than 53 bits is not rounded, and converts to its integral part. *)
Lemma mul_exact (mc my : positive) (ec ey : Z) :
  Z.pos (digits2_pos mc) = 53 → Z.pos (digits2_pos my) = 53 →
  (2 ^ 53 | Z.pos mc * Z.pos my) → -200 ≤ ec + ey ≤ 0 →
  Z.pos mc * Z.pos my / 2 ^ (- (ec + ey)) < 2 ^ 64 →
  Double.to_size (Double.mul (S754_finite false mc ec) (S754_finite false my ey))
  = Some (Z.pos mc * Z.pos my / 2 ^ (- (ec + ey))).
Proof.
  intros Hdc Hdy [q Hq] He Hlt.
  pose proof (digits_bounds mc) as [Hloc Hhic]. rewrite Hdc in Hloc, Hhic.
  pose proof (digits_bounds my) as [Hloy Hhiy]. rewrite Hdy in Hloy, Hhiy.
  change (2 ^ (53 - 1)) with 4503599627370496 in Hloc, Hloy.
  change (2 ^ 53) with 9007199254740992 in Hhic, Hhiy.
  unfold Double.mul, SFmul, Double.prec, Double.emax. cbn [xorb].
  set (P := (mc * my)%positive).
  assert (Z.pos P = Z.pos mc * Z.pos my) as HP by (subst P; lia).
  rewrite <- HP in Hq, Hlt |- *.
  pose proof (digits_bounds P) as [HloP HhiP].
  assert (105 ≤ Z.pos (digits2_pos P) ≤ 106) as HdP.
  { split.
    - destruct (decide (105 ≤ Z.pos (digits2_pos P))) as [| Hn]; [done |].
      assert (2 ^ Z.pos (digits2_pos P) ≤ 2 ^ 104) as Hle by (apply Z.pow_le_mono_r; lia).
      change (2 ^ 104) with 20282409603651670423947251286016 in Hle. nia.
    - destruct (decide (Z.pos (digits2_pos P) ≤ 106)) as [| Hn]; [done |].
      assert (2 ^ 106 ≤ 2 ^ (Z.pos (digits2_pos P) - 1)) as Hle by (apply Z.pow_le_mono_r; lia).
      change (2 ^ 106) with 81129638414606681695789005144064 in Hle. nia. }
  destruct (round_aux_spec P (ec + ey)) as (mf & ef & Hrun & Hdf & Hef & Hlow & Hup);
    [lia | lia | lia |].
  rewrite Hrun.
  set (s := Z.pos (digits2_pos P) - 53) in *.
  set (e := ec + ey) in *.
  assert (Z.pos mf * 2 ^ (ef - e) = Z.pos P) as HM.
  { assert (2 ^ 53 = 2 ^ (53 - s) * 2 ^ s) as H53 by (rewrite pow2_split by lia; f_equal; lia).
    assert (2 ^ (ef - e) = 2 ^ (ef - e - s) * 2 ^ s) as Hfe
      by (rewrite pow2_split by lia; f_equal; lia).
    assert (2 ^ s = 2 * 2 ^ (s - 1)) as Hs
      by (rewrite <- Z.pow_succ_r by lia; f_equal; lia).
    pose proof (Z.pow_pos_nonneg 2 (s - 1) ltac:(lia) ltac:(lia)) as Hpos.
    rewrite Hq, H53, Z.mul_assoc, Z.div_mul in Hlow by lia.
    rewrite Hfe, Z.mul_assoc in Hlow, Hup |- *.
    rewrite Hq, H53, Z.mul_assoc in Hup |- *.
    set (a := Z.pos mf * 2 ^ (ef - e - s)) in *. set (k := q * 2 ^ (53 - s)) in *.
    f_equal. nia. }
  unfold Double.to_size.
  pose proof (Z.pow_pos_nonneg 2 (- e) ltac:(lia) ltac:(lia)) as Hpe.
  assert ((if 0 <=? ef then Z.pos mf * 2 ^ ef else Z.pos mf / 2 ^ (- ef))
          = Z.pos P / 2 ^ (- e)) as ->.
  { destruct (0 <=? ef) eqn:Hsign.
    - apply Z.leb_le in Hsign. rewrite <- HM.
      replace (ef - e) with (ef + - e) by lia.
      rewrite Z.pow_add_r, Z.mul_assoc, Z.div_mul by lia. done.
    - apply Z.leb_gt in Hsign.
      assert (Z.pos mf = Z.pos P / 2 ^ (ef - e)) as ->.
      { rewrite <- HM, Z.div_mul; [done |].
        pose proof (Z.pow_pos_nonneg 2 (ef - e) ltac:(lia) ltac:(lia)). lia. }
      rewrite div_pow2 by lia. do 2 f_equal. lia. }
  destruct (_ <? 2 ^ 64) eqn:Hcmp; [done | lia].
Qed.

Section Growth.
Context {K V D : Type}.
Implicit Types (map : hashmap_t K V D) (e : hash_entry_t K V).

Lemma grown_capacity_exact map (my : positive) (ey : Z) :
  grow_factor map = S754_finite false my ey → Z.pos (digits2_pos my) = 53 →
  (2 ^ 49 | Z.pos my) → -100 ≤ ey ≤ 0 → 0 < capacity map < 2 ^ 49 →
  capacity map * Z.pos my / 2 ^ (- ey) < 2 ^ 64 →
  grown_capacity map = Some (capacity map * Z.pos my / 2 ^ (- ey)).
Proof.
  intros Hgf Hdy [k Hk] Hey Hcap Hlt. unfold grown_capacity. rewrite Hgf.
  destruct (capacity map) as [| c | c]; [lia | | lia].
  destruct (of_size_spec c) as (mc & HC & Hdc & Hmc & Hd);
    [change (2 ^ 53) with 9007199254740992; change (2 ^ 49) with 562949953421312 in Hcap; lia |].
  pose proof (digits_bounds c) as [Hloc _].
  assert (Z.pos (digits2_pos c) ≤ 49) as Hd49.
  { destruct (decide (Z.pos (digits2_pos c) ≤ 49)) as [| Hgt]; [done |].
    assert (2 ^ 49 ≤ 2 ^ (Z.pos (digits2_pos c) - 1)) as Hle by (apply Z.pow_le_mono_r; lia).
    lia. }
  set (d := Z.pos (digits2_pos c)) in *.
  assert (Z.pos mc * Z.pos my / 2 ^ (- (d - 53 + ey)) = Z.pos c * Z.pos my / 2 ^ (- ey)) as Hval.
  { replace (- (d - 53 + ey)) with (- ey + (53 - d)) by lia.
    rewrite Z.pow_add_r, Hmc by lia.
    replace (Z.pos c * 2 ^ (53 - d) * Z.pos my) with (Z.pos c * Z.pos my * 2 ^ (53 - d)) by ring.
    apply Z.div_mul_cancel_r.
    - pose proof (Z.pow_pos_nonneg 2 (- ey) ltac:(lia) ltac:(lia)). lia.
    - pose proof (Z.pow_pos_nonneg 2 (53 - d) ltac:(lia) ltac:(lia)). lia. }
  rewrite HC, mul_exact; [by rewrite Hval | done | done | | lia | by rewrite Hval].
  exists (Z.pos c * k * 2 ^ (49 - d)).
  rewrite Hmc, Hk.
  replace (Z.pos c * k * 2 ^ (49 - d) * 2 ^ 53) with (Z.pos c * k * (2 ^ (49 - d) * 2 ^ 53)) by ring.
  replace (Z.pos c * 2 ^ (53 - d) * (k * 2 ^ 49)) with (Z.pos c * k * (2 ^ (53 - d) * 2 ^ 49)) by ring.
  rewrite !pow2_split by lia. do 2 f_equal. lia.
Qed.

Lemma grown_capacity_two map :
  grow_factor map = StringInt.two → 0 < capacity map < 2 ^ 49 →
  grown_capacity map = Some (2 * capacity map).
Proof.
  intros Hgf Hcap. pose proof Hcap as Hc. change (2 ^ 49) with 562949953421312 in Hc.
  assert (capacity map * 4503599627370496 / 2 ^ (- (-51)) = 2 * capacity map) as Hval.
  { change (2 ^ (- (-51))) with 2251799813685248.
    replace (capacity map * 4503599627370496) with (2 * capacity map * 2251799813685248)
      by lia.
    by rewrite Z.div_mul. }
  rewrite (grown_capacity_exact map 4503599627370496 (-51)); [| done | done | | lia | done |].
  - f_equal. apply Hval.
  - by exists 8.
  - rewrite Hval. change (2 ^ 64) with 18446744073709551616. lia.
Qed.

Lemma grown_capacity_one_and_half map :
  grow_factor map = StringInt.one_and_half → 0 < capacity map < 2 ^ 49 →
  grown_capacity map = Some (3 * capacity map / 2).
Proof.
  intros Hgf Hcap. pose proof Hcap as Hc. change (2 ^ 49) with 562949953421312 in Hc.
  assert (capacity map * 6755399441055744 / 2 ^ (- (-52)) = 3 * capacity map / 2) as Hval.
  { change (2 ^ (- (-52))) with (2 * 2251799813685248).
    replace (capacity map * 6755399441055744) with (3 * capacity map * 2251799813685248)
      by lia.
    by rewrite Z.div_mul_cancel_r. }
  rewrite (grown_capacity_exact map 6755399441055744 (-52)); [| done | done | | lia | done |].
  - f_equal. apply Hval.
  - by exists 12.
  - rewrite Hval. change (2 ^ 64) with 18446744073709551616.
    pose proof (Z.div_le_upper_bound (3 * capacity map) 2 (3 * capacity map)). lia.
Qed.

(** The placement of insert ends when [count], counting the occupied
    slots, is below [capacity]. *)
Lemma insert_place_total map key value (fuel : nat) :
  shape map → count_ok map → count map < capacity map →
  (Z.to_nat (capacity map) ≤ fuel)%nat →
  ∃ map', hashmap_insert_place fuel map key value = Ret (map', 1).
Proof.
  intros Hshape Hcount Hroom Hfuel.
  pose proof (live_length_le (entries map)) as Hle.
  pose proof Hshape as [Hcap _]. pose proof Hcount as Hc. unfold count_ok in Hc.
  unfold hashmap_insert_place. destruct (capacity map =? 0) eqn:Hzero; [lia |].
  assert (0 ≤ u32 (hash_fn map key) mod capacity map < capacity map) as Hidx
    by (apply Z.mod_pos_bound; lia).
  destruct (free_slot_ahead map _ Hshape Hidx) as (d & Hd & Hfree);
    [by apply count_lt_capacity_free |].
  apply (insert_loop_terminates d); [done | done | done | lia].
Qed.

(** The check of insert in integers. *)
Lemma load_check_false map :
  shape map → count_ok map → capacity map < 2 ^ 49 →
  load_exceeded map = false ↔ 10 * (count map + 1) ≤ 9 * capacity map.
Proof.
  intros [Hcap _] Hc Hsmall. unfold count_ok in Hc.
  pose proof (live_length_le (entries map)) as Hle.
  unfold load_exceeded. rewrite load_exceeded_exact by lia.
  rewrite Z.ltb_ge. lia.
Qed.

(** The capacity that insert asks resize for, under the growth factors
    2.0 and 1.5. *)
Lemma grown_capacity_known map :
  grow_factor map = StringInt.two ∨ grow_factor map = StringInt.one_and_half →
  table_ok map → 2 ≤ capacity map < 2 ^ 48 → 10 * count map ≤ 9 * capacity map →
  load_exceeded map = true →
  ∃ n, grown_capacity map = Some n
    ∧ (n = 2 * capacity map ∧ grow_factor map = StringInt.two
       ∨ n = 3 * capacity map / 2 ∧ grow_factor map = StringInt.one_and_half)
    ∧ capacity map ≤ n ≤ 2 * capacity map ∧ n ≤ 3 * (count map + 1)
    ∧ 10 * (count map + 1) ≤ 9 * n.
Proof.
  intros Hgf (Hshape & Hcount & _) Hcap Hfill Hload.
  change (2 ^ 48) with 281474976710656 in Hcap.
  pose proof (live_length_le (entries map)) as Hle.
  pose proof Hshape as [Hlen _]. pose proof Hcount as Hc. unfold count_ok in Hc.
  unfold load_exceeded in Hload.
  rewrite load_exceeded_exact in Hload by (change (2 ^ 49) with 562949953421312; lia).
  apply Z.ltb_lt in Hload.
  destruct Hgf as [Hgf | Hgf].
  - exists (2 * capacity map). split_and!; [| by left | lia..].
    apply grown_capacity_two; [done |]. change (2 ^ 49) with 562949953421312. lia.
  - exists (3 * capacity map / 2). split_and!; [| by right | Z.div_mod_to_equations; lia..].
    apply grown_capacity_one_and_half; [done |]. change (2 ^ 49) with 562949953421312. lia.
Qed.

End Growth.

(** ** Inserts that succeed *)

Section Total.
Context {K V D : Type}.
Variable zero_key : K.
Variable zero_value : V.
Variable default_hash_fn : K → Z.
Implicit Types (map : hashmap_t K V D) (e : hash_entry_t K V) (w : world K V D).

Local Abbreviation insert := (hashmap_insert zero_key zero_value default_hash_fn).

Lemma insert_no_resize map w key value (fuel : nat) :
  shape map → count_ok map → capacity map < 2 ^ 49 → load_exceeded map = false →
  (Z.to_nat (capacity map) < fuel)%nat →
  ∃ map', insert fuel w map key value = Ret (w, map', 1).
Proof.
  intros Hshape Hcount Hsmall Hload Hfuel.
  destruct fuel as [| fuel]; [lia |]. cbn [hashmap_insert]. rewrite Hload. cbn.
  apply load_check_false in Hload; [| done..].
  pose proof Hshape as [Hcap _]. pose proof Hcount as Hc. unfold count_ok in Hc.
  destruct (insert_place_total map key value fuel) as [map' Hrun]; [done | done | lia | lia |].
  exists map'. by rewrite Hrun.
Qed.

Lemma resize_loop_total (fuel : nat) (n : nat) : ∀ i w map new_map,
  shape map → 0 ≤ i → i + Z.of_nat n ≤ capacity map →
  table_ok new_map → capacity new_map < 2 ^ 49 →
  10 * (count new_map
        + Z.of_nat (length (live (take n (drop (Z.to_nat i) (entries map))))))
  ≤ 9 * capacity new_map →
  (Z.to_nat (capacity new_map) < fuel)%nat →
  ∃ new_map',
    hashmap_resize_loop (insert fuel) w map new_map (seqZ i (Z.of_nat n))
    = Ret (w, new_map', true)
    ∧ table_ok new_map' ∧ same_config new_map new_map'
    ∧ capacity new_map' = capacity new_map
    ∧ count new_map'
      = count new_map
        + Z.of_nat (length (live (take n (drop (Z.to_nat i) (entries map))))).
Proof.
  induction n as [| n IH]; intros i w map new_map Hshape Hi Hin Hok Hsmall Hfill Hfuel.
  - change (seqZ i (Z.of_nat 0)) with (@nil Z). cbn [hashmap_resize_loop].
    exists new_map. rewrite take_0. cbn. split_and!; [done | done | done | done | lia].
  - assert (seqZ i (Z.of_nat (S n)) = i :: seqZ (i + 1) (Z.of_nat n)) as ->.
    { rewrite seqZ_cons by lia. do 2 f_equal; lia. }
    cbn [hashmap_resize_loop].
    destruct (entry_at_is_Some map i Hshape ltac:(lia)) as [e Hat]. rewrite Hat.
    pose proof Hat as Hdrop. unfold entry_at in Hdrop. apply drop_S in Hdrop.
    replace (S (Z.to_nat i)) with (Z.to_nat (i + 1)) in Hdrop by lia.
    rewrite Hdrop in Hfill |- *. cbn [take] in Hfill |- *.
    destruct (bool_decide (entry_status e = OCCUPIED)) eqn:Hocc.
    + apply bool_decide_eq_true in Hocc.
      assert (∀ es, live (e :: es) = e :: live es) as Hlive
        by (intros es; unfold live; by rewrite filter_cons_True).
      rewrite Hlive in Hfill |- *. cbn [length] in Hfill |- *.
      destruct Hok as (Hs & Hc & Hch & Hh).
      assert (load_exceeded new_map = false) as Hload
        by (apply load_check_false; [done | done | done | lia]).
      destruct (insert_no_resize new_map w (entry_key e) (entry_value e) fuel)
        as [map1 Hrun]; [done | done | done | done | done |].
      rewrite Hrun. cbn.
      pose proof Hrun as Hspec.
      apply insert_spec in Hspec as [[? _] | (_ & Hdone)]; [done | | done].
      pose proof (inserted_count _ _ _ _ Hdone Hc) as Hcount1.
      destruct Hdone as (Hcfg & Hs1 & _ & _ & Hc1 & Hch1 & Hh1 & _ & Hsame).
      specialize (Hsame Hload).
      destruct (IH (i + 1) w map map1) as (nm' & Hloop & Hok' & Hcfg' & Hcap' & Hcount');
        [done | lia | lia | split_and!; auto | lia | lia | lia |].
      exists nm'. rewrite Hloop.
      split_and!; [done | done | by eapply same_config_trans | lia | lia].
    + apply bool_decide_eq_false in Hocc.
      assert (∀ es, live (e :: es) = live es) as Hlive
        by (intros es; unfold live; by rewrite filter_cons_False).
      rewrite Hlive in Hfill |- *.
      apply IH; [done | lia | lia | done | done | done | done].
Qed.

Lemma resize_with_total (fuel : nat) w map (n : Z) :
  alloc_plan w = [] → table_ok map → 0 ≤ n < 2 ^ 49 → 10 * count map ≤ 9 * n →
  (Z.to_nat n < fuel)%nat →
  ∃ map',
    hashmap_resize_with zero_key zero_value default_hash_fn (insert fuel) w map n
    = Ret (w, map', 1)
    ∧ table_ok map' ∧ same_config map map' ∧ capacity map' = n ∧ count map' = count map.
Proof.
  intros Hplan (Hshape & Hcount & Hchain & Hhash) Hn Hfill Hfuel.
  set (nm := Build_hashmap (replicate (Z.to_nat n) (zero_entry zero_key zero_value))
               n 0 (grow_factor map) (destructor map) (hash_fn map) (cmp_fn map)).
  assert (hashmap_new zero_key zero_value default_hash_fn w n (grow_factor map)
            (destructor map) (Some (hash_fn map)) (cmp_fn map) = (w, Some nm)) as Hnew.
  { unfold hashmap_new, hashmap_init, alloc. rewrite Hplan. cbn. by rewrite Hplan. }
  unfold hashmap_resize_with. rewrite Hnew.
  destruct (fresh_ok zero_key zero_value n (grow_factor map) (destructor map) (hash_fn map)
              (cmp_fn map) ltac:(change (2 ^ 49) with 562949953421312 in Hn; change (2 ^ 64) with 18446744073709551616; lia))
    as (Hs & Hc & Hch & Hh & _ & _).
  fold nm in Hs, Hc, Hch, Hh.
  pose proof Hshape as [Hlen _]. unfold count_ok in Hcount.
  destruct (resize_loop_total fuel (length (entries map)) 0 w map nm)
    as (nm' & Hloop & (Hs' & Hc' & Hch' & Hh') & Hcfg & Hcap & Hcnt);
    [done | lia | lia | by split_and! | subst nm; cbn [capacity]; lia |
    | subst nm; cbn [capacity]; lia |].
  { change (Z.to_nat 0) with 0%nat. rewrite drop_0, take_ge by lia. subst nm. cbn [count capacity]. lia. }
  change (Z.to_nat 0) with 0%nat in Hcnt. rewrite drop_0, take_ge in Hcnt by lia.
  rewrite Hlen, Hloop. cbn.
  eexists. split; [done |].
  destruct Hcfg as (_ & _ & Hhf & _). cbn in Hhf.
  split_and!; [| done | by subst nm | subst nm; cbn in *; lia].
  split_and!; [done | done | done |].
  intros e Hin Hocc. cbn in Hin |- *. rewrite <- Hhf. by apply Hh'.
Qed.

Lemma insert_grow (fuel : nat) w w' map map' key value :
  table_ok map →
  grow_factor map = StringInt.two ∨ grow_factor map = StringInt.one_and_half →
  2 ≤ capacity map < 2 ^ 48 → 10 * count map ≤ 9 * capacity map →
  insert fuel w map key value = Ret (w', map', 1) →
  10 * count map' ≤ 9 * capacity map'
  ∧ (if load_exceeded map
     then capacity map' = 2 * capacity map ∧ grow_factor map = StringInt.two
          ∨ capacity map' = 3 * capacity map / 2
            ∧ grow_factor map = StringInt.one_and_half
     else capacity map' = capacity map).
Proof.
  intros Hok Hgf Hcap Hfill Hrun. pose proof Hok as (Hshape & Hcount & _).
  pose proof Hrun as Hspec.
  apply insert_spec in Hspec as [[? _] | (_ & Hdone)]; [done | | done].
  pose proof (inserted_count _ _ _ _ Hdone Hcount) as Hcount'.
  destruct (load_exceeded map) eqn:Hload.
  - destruct fuel as [| fuel]; [done |].
    destruct (grown_capacity_known map Hgf Hok Hcap Hfill Hload)
      as (n & Hgrow & Hn & Hrange & _ & Hfits).
    change (2 ^ 48) with 281474976710656 in Hcap.
    assert (capacity map' = n) as Hcap'.
    { eapply insert_resized_capacity; [done | done | done | done | done |].
      apply load_check_below; [change (2 ^ 49) with 562949953421312 |]; lia. }
    split; [lia |]. rewrite Hcap'. tauto.
  - destruct Hdone as (_ & _ & _ & _ & _ & _ & _ & _ & Hsame).
    specialize (Hsame Hload). split; [| done].
    apply load_check_false in Hload; [lia | done | done |].
    change (2 ^ 48) with 281474976710656 in Hcap. change (2 ^ 49) with 562949953421312. lia.
Qed.

Lemma insert_total (fuel : nat) w map key value :
  table_ok map →
  grow_factor map = StringInt.two ∨ grow_factor map = StringInt.one_and_half →
  2 ≤ capacity map < 2 ^ 48 → 10 * count map ≤ 9 * capacity map →
  alloc_plan w = [] → (2 * Z.to_nat (capacity map) + 1 < fuel)%nat →
  ∃ map', insert fuel w map key value = Ret (w, map', 1).
Proof.
  intros Hok Hgf Hcap Hfill Hplan Hfuel. pose proof Hok as (Hshape & Hcount & _).
  pose proof (live_length_le (entries map)) as Hle.
  pose proof Hshape as [Hlen _]. pose proof Hcount as Hc. unfold count_ok in Hc.
  destruct (load_exceeded map) eqn:Hload.
  - destruct (grown_capacity_known map Hgf Hok Hcap Hfill Hload)
      as (n & Hgrow & _ & Hrange & _ & Hfits).
    change (2 ^ 48) with 281474976710656 in Hcap.
    destruct fuel as [| fuel]; [lia |]. cbn [hashmap_insert]. rewrite Hload, Hgrow.
    destruct (resize_with_total fuel w map n) as (map1 & Hres & Hok1 & _ & Hcap1 & Hcount1);
      [done | done | change (2 ^ 49) with 562949953421312; lia | lia | lia |].
    rewrite Hres. cbn. destruct Hok1 as (Hshape1 & Hc1 & _).
    destruct (insert_place_total map1 key value fuel) as [map' Hrun];
      [done | done | lia | lia |].
    exists map'. by rewrite Hrun.
  - apply insert_no_resize; [done | done | | done | lia].
    change (2 ^ 48) with 281474976710656 in Hcap. change (2 ^ 49) with 562949953421312. lia.
Qed.

End Total.

(** ** The capacity check of insert *)

(** C3: the capacity check of insert, on a table of fewer than 2^48 slots
    that keeps the invariant.  The check [count + 1 > capacity * 0.9] is
    true exactly when [9 * capacity < 10 * (count + 1)].  When it is false
    the entry is placed in the table as it is: nothing is allocated, the
    capacity stays, and the pairs are those of before and the new one.
    When it is true, resize is called with [capacity * grow_factor]
    converted to [size_t] (undefined behaviour when the product is no
    [size_t]).  If resize returns 0, as it does when the first allocation
    fails, insert returns 0 and the table is the one it was given.  If
    resize returns 1 the resized table holds the pairs of before, has the
    requested capacity when the table fills at most nine tenths of it, and
    the entry is placed in that table; with allocations that all succeed
    insert does return 1, with the requested capacity and the new pair.
    Under the growth factors 2.0 and 1.5 the requested capacity is
    [2 * capacity], respectively [3 * capacity / 2] rounded down, and that
    is the capacity after every successful insert that resized. *)
Theorem insert_capacity_check {K V D : Type} (zero_key : K) (zero_value : V)
    (default_hash_fn : K → Z) (fuel : nat) (w : world K V D) (map : hashmap_t K V D)
    (key : K) (value : V) :
  table_ok map → capacity map < 2 ^ 48 →
  let insert := hashmap_insert zero_key zero_value default_hash_fn in
  let resize := hashmap_resize zero_key zero_value default_hash_fn in
  let place w map :=
    let* (map, ok) := hashmap_insert_place fuel map key value in Ret (w, map, ok) in
  let grown :=
    Double.to_size (Double.mul (Double.of_size (capacity map)) (grow_factor map)) in
  (load_exceeded map = true ↔ 9 * capacity map < 10 * (count map + 1))
  ∧ (load_exceeded map = false →
     insert (S fuel) w map key value = place w map
     ∧ ∀ w' map' ok, insert (S fuel) w map key value = Ret (w', map', ok) →
         ok = 1 ∧ w' = w ∧ capacity map' = capacity map
         ∧ pairs map' ≡ₚ (key, value) :: pairs map)
  ∧ (load_exceeded map = true →
     (grown = None → insert (S fuel) w map key value = Undefined)
     ∧ ∀ new_capacity, grown = Some new_capacity →
         (∀ w1 map1, resize fuel w map new_capacity = Ret (w1, map1, 0) →
            insert (S fuel) w map key value = Ret (w1, map, 0))
         ∧ (∀ plan, alloc_plan w = false :: plan →
              insert (S fuel) w map key value
              = Ret (Build_world plan (destructor_calls w), map, 0))
         ∧ (∀ w1 map1, resize fuel w map new_capacity = Ret (w1, map1, 1) →
              insert (S fuel) w map key value = place w1 map1
              ∧ pairs map1 ≡ₚ pairs map ∧ count map1 = count map
              ∧ (new_capacity < 2 ^ 49 → 10 * count map ≤ 9 * new_capacity →
                 capacity map1 = new_capacity))
         ∧ (∀ w' map' ok, insert (S fuel) w map key value = Ret (w', map', ok) →
              (ok = 0 ∧ map' = map)
              ∨ (ok = 1 ∧ pairs map' ≡ₚ (key, value) :: pairs map
                 ∧ (new_capacity < 2 ^ 49 → 10 * count map ≤ 9 * new_capacity →
                    capacity map' = new_capacity)))
         ∧ (alloc_plan w = [] → new_capacity < 2 ^ 49 →
            10 * (count map + 1) ≤ 9 * new_capacity →
            (Z.to_nat new_capacity < fuel)%nat →
            ∃ map', insert (S fuel) w map key value = Ret (w, map', 1)
              ∧ capacity map' = new_capacity
              ∧ pairs map' ≡ₚ (key, value) :: pairs map))
  ∧ (0 < capacity map → grow_factor map = StringInt.two →
     grown = Some (2 * capacity map)
     ∧ ∀ w' map', load_exceeded map = true →
         insert (S fuel) w map key value = Ret (w', map', 1) →
         capacity map' = 2 * capacity map)
  ∧ (2 ≤ capacity map → grow_factor map = StringInt.one_and_half →
     grown = Some (3 * capacity map / 2)
     ∧ ∀ w' map', load_exceeded map = true →
         insert (S fuel) w map key value = Ret (w', map', 1) →
         capacity map' = 3 * capacity map / 2).
Proof.
  intros Hok Hsmall insert resize place grown.
  pose proof Hok as (Hshape & Hcount & Hchain & Hhash).
  change grown with (grown_capacity map). subst insert resize place. clear grown.
  pose proof (live_length_le (entries map)) as Hle.
  pose proof Hshape as [Hlen _]. pose proof Hcount as Hc. unfold count_ok in Hc.
  change (2 ^ 48) with 281474976710656 in Hsmall.
  assert (capacity map < 2 ^ 49) as H49 by (change (2 ^ 49) with 562949953421312; lia).
  pose proof (load_check_false map Hshape Hcount H49) as Hcheck.
  assert (∀ n, 10 * count map ≤ 9 * n → n < 2 ^ 49 → 0 ≤ n →
            ∀ j, 0 ≤ j < count map → Double.load_exceeded n j = false) as Hbelow
    by (intros n Hfit Hn49 Hn0; apply load_check_below; lia).
  split_and!.
  - destruct (load_exceeded map).
    + split; [intros _ | done].
      destruct (decide (9 * capacity map < 10 * (count map + 1))) as [| Hge]; [done |].
      assert (true = false) by (apply Hcheck; lia). done.
    + split; [done |]. intros Hlt.
      assert (10 * (count map + 1) ≤ 9 * capacity map) by by apply Hcheck. lia.
  - intros Hload. split.
    + cbn [hashmap_insert]. by rewrite Hload.
    + intros w' map' ok Hrun. cbn [hashmap_insert] in Hrun. rewrite Hload in Hrun.
      cbn in Hrun.
      destruct (hashmap_insert_place fuel map key value) as [[map2 ok2] | |] eqn:Hplace;
        cbn in Hrun; [| done | done].
      apply insert_place_spec in Hplace; [| done].
      destruct Hplace as (-> & _ & Hcap & _ & _ & Hperm & _). by simplify_eq.
  - intros Hload. split.
    { intros Hnone. cbn [hashmap_insert]. by rewrite Hload, Hnone. }
    intros n Hgrow. pose proof (to_size_range _ _ Hgrow) as Hn.
    assert (∀ w1 map1,
              hashmap_resize zero_key zero_value default_hash_fn fuel w map n
              = Ret (w1, map1, 1) →
              pairs map1 ≡ₚ pairs map ∧ count map1 = count map
              ∧ (n < 2 ^ 49 → 10 * count map ≤ 9 * n → capacity map1 = n)) as Hresized.
    { intros w1 map1 Hres. unfold hashmap_resize in Hres.
      apply resize_with_spec in Hres as [[? _] | (_ & Hrz & Hsame)];
        [done | | apply insert_spec | done | done].
      destruct Hrz as (_ & _ & Hcount1 & _ & _ & _ & Hperm).
      split_and!; [done | |].
      - unfold count_ok in Hcount1. rewrite Hcount1, Hc.
        apply Permutation_length in Hperm. rewrite !pairs_length in Hperm. lia.
      - intros Hn49 Hfit. apply Hsame. intros j Hj. apply Hbelow; [done | done | lia | lia]. }
    split_and!.
    + intros w1 map1 Hres. cbn [hashmap_insert]. rewrite Hload, Hgrow.
      unfold hashmap_resize in Hres. rewrite Hres.
      by rewrite (resize_with_failure _ _ _ _ _ _ _ _ _ Hres).
    + intros plan Hplan. cbn [hashmap_insert]. rewrite Hload, Hgrow.
      unfold hashmap_resize_with, hashmap_new, alloc. by rewrite Hplan.
    + intros w1 map1 Hres. split; [| by eapply Hresized].
      cbn [hashmap_insert]. rewrite Hload, Hgrow.
      unfold hashmap_resize in Hres. by rewrite Hres.
    + intros w' map' ok Hrun. pose proof Hrun as Hspec.
      apply insert_spec in Hspec as [[-> ->] | (-> & Hdone)]; [by left | | done].
      right. split; [done |]. split; [apply Hdone |].
      intros Hn49 Hfit.
      eapply insert_resized_capacity; [done | done | done | done | done |].
      apply Hbelow; [done | done | lia].
    + intros Hplan Hn49 Hfit Hfuel.
      destruct (resize_with_total zero_key zero_value default_hash_fn fuel w map n)
        as (map1 & Hres & Hok1 & _ & Hcap1 & Hcount1); [done | done | lia | lia | done |].
      destruct (Hresized w map1 Hres) as (Hperm1 & _).
      cbn [hashmap_insert]. rewrite Hload, Hgrow, Hres. cbn.
      destruct Hok1 as (Hs1 & Hc1 & _).
      destruct (insert_place_total map1 key value fuel) as [map' Hplace];
        [done | done | lia | lia |].
      rewrite Hplace. cbn. exists map'. split; [done |].
      apply insert_place_spec in Hplace; [| done].
      destruct Hplace as (_ & _ & Hcap' & _ & _ & Hperm' & _).
      split; [lia |]. by rewrite Hperm', Hperm1.
  - intros Hpos Hgf.
    assert (grown_capacity map = Some (2 * capacity map)) as Hgrow
      by by apply grown_capacity_two.
    split; [done |]. intros w' map' Hload Hrun.
    eapply insert_resized_capacity; [done | done | done | done | done |].
    apply Hbelow; [lia | change (2 ^ 49) with 562949953421312; lia | lia].
  - intros Hpos Hgf.
    assert (grown_capacity map = Some (3 * capacity map / 2)) as Hgrow
      by (apply grown_capacity_one_and_half; [done | lia]).
    split; [done |]. intros w' map' Hload Hrun.
    eapply insert_resized_capacity; [done | done | done | done | done |].
    apply Hbelow; [| change (2 ^ 49) with 562949953421312 |];
      Z.div_mod_to_equations; lia.
Qed.

Lemma insert_capacity_check_witness :
  StringInt.insert 10 StringInt.w_fail StringInt.abc "d"%string 4
  = Ret (Build_world [] [], StringInt.abc, 0)
  ∧ ∃ map', StringInt.insert 10 StringInt.w_ok StringInt.abc "d"%string 4
            = Ret (StringInt.w_ok, map', 1)
      ∧ capacity map' = 8
      ∧ pairs map' ≡ₚ ("d"%string, 4) :: pairs StringInt.abc.
Proof.
  assert (capacity StringInt.abc < 2 ^ 48) as Hsmall by (vm_compute; reflexivity).
  assert (load_exceeded StringInt.abc = true) as Hload by reflexivity.
  assert (Double.to_size
            (Double.mul (Double.of_size (capacity StringInt.abc))
               (grow_factor StringInt.abc)) = Some 8) as Hgrow by reflexivity.
  split.
  - destruct (insert_capacity_check ""%string 0 hash_str_key 9 StringInt.w_fail
                StringInt.abc "d"%string 4 table_ok_abc Hsmall) as (_ & _ & Hres & _).
    destruct (Hres Hload) as [_ Hn].
    destruct (Hn 8 Hgrow) as (_ & Hfail & _).
    exact (Hfail [] eq_refl).
  - destruct (insert_capacity_check ""%string 0 hash_str_key 9 StringInt.w_ok
                StringInt.abc "d"%string 4 table_ok_abc Hsmall) as (_ & _ & Hres & _).
    destruct (Hres Hload) as [_ Hn].
    destruct (Hn 8 Hgrow) as (_ & _ & _ & _ & Hgood).
    apply Hgood; [reflexivity | vm_compute; reflexivity | vm_compute; discriminate
                 | vm_compute; lia].
Defined.

(** X17: on a table of fewer than 2^49 slots that keeps the invariant,
    an insert whose check [count + 1 > capacity * 0.9] is false always
    returns 1, given fuel for [capacity] iterations of the placement loop,
    and allocates nothing: at that load a slot is free. *)
Theorem insert_without_resize_succeeds {K V D : Type} (zero_key : K) (zero_value : V)
    (default_hash_fn : K → Z) (fuel : nat) (w : world K V D) (map : hashmap_t K V D)
    (key : K) (value : V) :
  table_ok map → capacity map < 2 ^ 49 → load_exceeded map = false →
  (Z.to_nat (capacity map) < fuel)%nat →
  ∃ map',
    hashmap_insert zero_key zero_value default_hash_fn fuel w map key value
    = Ret (w, map', 1).
Proof.
  intros (Hshape & Hcount & _) Hsmall Hload Hfuel.
  by apply insert_no_resize.
Qed.

Lemma insert_without_resize_succeeds_witness :
  ∃ map', StringInt.insert 8 StringInt.w_fail StringInt.sample "b"%string 2
          = Ret (StringInt.w_fail, map', 1).
Proof.
  apply (insert_without_resize_succeeds ""%string 0 hash_str_key 8 StringInt.w_fail
           StringInt.sample "b"%string 2).
  - exact table_ok_sample.
  - vm_compute. reflexivity.
  - reflexivity.
  - vm_compute. lia.
Defined.

(** X18: with the growth factor 2.0 or 1.5, insert keeps the load factor
    at or below 0.9.  On a table of 2 to 2^48 slots that keeps the
    invariant and has [count ≤ 0.9 * capacity], a successful insert leaves
    [count ≤ 0.9 * capacity] again; the capacity is as before when the
    check [count + 1 > capacity * 0.9] was false, and otherwise twice the
    old one, respectively one and a half times the old one rounded down. *)
Theorem insert_keeps_load_factor {K V D : Type} (zero_key : K) (zero_value : V)
    (default_hash_fn : K → Z) (fuel : nat) (w w' : world K V D)
    (map map' : hashmap_t K V D) (key : K) (value : V) :
  table_ok map →
  grow_factor map = StringInt.two ∨ grow_factor map = StringInt.one_and_half →
  2 ≤ capacity map < 2 ^ 48 →
  10 * count map ≤ 9 * capacity map →
  hashmap_insert zero_key zero_value default_hash_fn fuel w map key value
  = Ret (w', map', 1) →
  10 * count map' ≤ 9 * capacity map'
  ∧ (if load_exceeded map
     then capacity map' = 2 * capacity map ∧ grow_factor map = StringInt.two
          ∨ capacity map' = 3 * capacity map / 2
            ∧ grow_factor map = StringInt.one_and_half
     else capacity map' = capacity map).
Proof.
  intros Hok Hgf Hcap Hfill Hrun.
  by eapply insert_grow.
Qed.

Lemma insert_keeps_load_factor_witness :
  10 * count StringInt.abcd ≤ 9 * capacity StringInt.abcd
  ∧ (if load_exceeded StringInt.abc
     then capacity StringInt.abcd = 2 * capacity StringInt.abc
          ∧ grow_factor StringInt.abc = StringInt.two
          ∨ capacity StringInt.abcd = 3 * capacity StringInt.abc / 2
            ∧ grow_factor StringInt.abc = StringInt.one_and_half
     else capacity StringInt.abcd = capacity StringInt.abc).
Proof.
  apply (insert_keeps_load_factor ""%string 0 hash_str_key 8 StringInt.w_ok StringInt.w_ok
           StringInt.abc StringInt.abcd "d"%string 4).
  - exact table_ok_abc.
  - left. reflexivity.
  - vm_compute. split; [discriminate | reflexivity].
  - vm_compute. discriminate.
  - reflexivity.
Defined.

(** X19: insert returns 1 whenever memory suffices.  On a table of 2 to
    2^48 slots with the growth factor 2.0 or 1.5 that keeps the invariant
    and has [count ≤ 0.9 * capacity], in a world whose allocations all
    succeed, insert returns 1: the resize it may start with allocates the
    new table, reinserts every entry without a further resize, and leaves
    room for the new entry.  Fuel for two nested calls and [2 * capacity]
    loop iterations is enough. *)
Theorem insert_succeeds_when_memory_suffices {K V D : Type} (zero_key : K)
    (zero_value : V) (default_hash_fn : K → Z) (fuel : nat) (w : world K V D)
    (map : hashmap_t K V D) (key : K) (value : V) :
  table_ok map →
  grow_factor map = StringInt.two ∨ grow_factor map = StringInt.one_and_half →
  2 ≤ capacity map < 2 ^ 48 → 10 * count map ≤ 9 * capacity map →
  alloc_plan w = [] → (2 * Z.to_nat (capacity map) + 1 < fuel)%nat →
  ∃ map',
    hashmap_insert zero_key zero_value default_hash_fn fuel w map key value
    = Ret (w, map', 1).
Proof.
  intros Hok Hgf Hcap Hfill Hplan Hfuel.
  by apply insert_total.
Qed.

Lemma insert_succeeds_when_memory_suffices_witness :
  ∃ map', StringInt.insert 10 StringInt.w_ok StringInt.abc "d"%string 4
          = Ret (StringInt.w_ok, map', 1).
Proof.
  apply (insert_succeeds_when_memory_suffices ""%string 0 hash_str_key 10 StringInt.w_ok
           StringInt.abc "d"%string 4).
  - exact table_ok_abc.
  - left. reflexivity.
  - vm_compute. split; [discriminate | reflexivity].
  - vm_compute. discriminate.
  - reflexivity.
  - vm_compute. lia.
Defined.

(** X20: a run of inserts succeeds as a whole whenever memory suffices.
    Started on a table of at least 2 slots with the growth factor 2.0 or
    1.5 that keeps the invariant and has [count ≤ 0.9 * capacity] (a table
    fresh from new is one), in a world whose allocations all succeed, every
    insert of the run returns 1; afterwards the table keeps the invariant,
    holds the pairs inserted besides those of before, [count] has grown by
    their number, [count ≤ 0.9 * capacity] holds again, and the capacity
    is at most [bound], any number below 2^48 that is at least the first
    capacity and three times the final count. *)
Theorem inserts_succeed_when_memory_suffices {K V D : Type} (zero_key : K)
    (zero_value : V) (default_hash_fn : K → Z) (fuel : nat) (bound : Z)
    (w : world K V D) (map : hashmap_t K V D) (kvs : list (K * V)) :
  table_ok map →
  grow_factor map = StringInt.two ∨ grow_factor map = StringInt.one_and_half →
  2 ≤ capacity map → 10 * count map ≤ 9 * capacity map →
  capacity map ≤ bound → 3 * (count map + Z.of_nat (length kvs)) ≤ bound →
  bound < 2 ^ 48 → alloc_plan w = [] → (2 * Z.to_nat bound + 1 < fuel)%nat →
  ∃ map',
    insert_all zero_key zero_value default_hash_fn fuel w map kvs = Ret (w, map', 1)
    ∧ table_ok map' ∧ pairs map' ≡ₚ kvs ++ pairs map
    ∧ count map' = count map + Z.of_nat (length kvs)
    ∧ 10 * count map' ≤ 9 * capacity map' ∧ capacity map' ≤ bound.
Proof.
  revert w map. induction kvs as [| [key value] kvs IH];
    intros w map Hok Hgf Hcap Hfill Hbound Hlen Hsmall Hplan Hfuel.
  - exists map. cbn. split_and!; [done | done | done | lia | done | done].
  - cbn [insert_all length] in *.
    destruct (insert_total zero_key zero_value default_hash_fn fuel w map key value) as [map1 Hrun];
      [done | done | lia | done | done | lia |].
    rewrite Hrun. cbn.
    pose proof Hok as (Hshape & Hcount & Hchain & Hhash).
    destruct (insert_grow zero_key zero_value default_hash_fn fuel w w map map1 key value) as [Hfill1 Hcap1];
      [done | done | lia | done | done |].
    pose proof Hrun as Hspec.
    apply insert_spec in Hspec as [[? _] | (_ & Hdone)]; [done | | done].
    pose proof (inserted_count _ _ _ _ Hdone Hcount) as Hcount1.
    destruct Hdone as (Hcfg & Hshape1 & _ & Hperm & Hc1 & Hch1 & Hh1 & _).
    assert (capacity map ≤ capacity map1 ≤ bound) as Hrange.
    { destruct (load_exceeded map) eqn:Hload; [| lia].
      destruct (grown_capacity_known map Hgf Hok ltac:(lia) Hfill Hload)
        as (n & _ & Hn & Hrange & Hthree & _).
      assert (capacity map1 = n) as ->.
      { destruct Hn as [[-> Hg] | [-> Hg]], Hcap1 as [[? Hg1] | [? Hg1]]; try done;
          rewrite Hg in Hg1; discriminate Hg1. }
      lia. }
    destruct (IH w map1) as (map' & Hall & Hok' & Hperm' & Hcount' & Hfill' & Hbound');
      [split_and!; auto | | lia | done | lia | lia | done | done | done |].
    { destruct Hcfg as (-> & _). done. }
    exists map'. split_and!; [done | done | | lia | done | done].
    rewrite Hperm', Hperm. cbn. by rewrite Permutation_middle.
Qed.

Lemma inserts_succeed_when_memory_suffices_witness :
  ∃ map',
    StringInt.inserts 26 StringInt.w_ok Examples.k_in
      [("a"%string, 1); ("b"%string, 2); ("c"%string, 3)]
    = Ret (StringInt.w_ok, map', 1)
    ∧ table_ok map'
    ∧ pairs map' ≡ₚ [("a"%string, 1); ("b"%string, 2); ("c"%string, 3)] ++ pairs Examples.k_in
    ∧ count map' = count Examples.k_in + Z.of_nat 3
    ∧ 10 * count map' ≤ 9 * capacity map' ∧ capacity map' ≤ 12.
Proof.
  apply (inserts_succeed_when_memory_suffices ""%string 0 hash_str_key 26 12 StringInt.w_ok
           Examples.k_in [("a"%string, 1); ("b"%string, 2); ("c"%string, 3)]).
  - exact table_ok_k_in.
  - left. reflexivity.
  - vm_compute. discriminate.
  - vm_compute. discriminate.
  - vm_compute. discriminate.
  - vm_compute. discriminate.
  - vm_compute. reflexivity.
  - reflexivity.
  - vm_compute. lia.
Defined.
